(** * api-ref-bundler, [src/utils.ts]: a shallow embedding and its properties

    The file embeds the path normaliser, the JSON Pointer codec, the
    reference resolver, the path-addressed accessors and the merge of
    [src/utils.ts], with its smaller helpers ([validURL], [filename],
    [isJsonSchema], [calcJsonType], [MapArray]).

    - JavaScript strings are sequences of UTF-16 code units: [list N].
    - A call that can throw returns a [result]: [Ok v] or [Throw e].
    - Objects and arrays live in a store ([gmap loc object]); a value that
      is an object is a reference into the store, so mutation and aliasing
      are visible. *)

From Stdlib Require Import ZArith NArith Lia List Ascii String Bool ZifyBool.
From stdpp Require Import base numbers list option gmap.

Local Open Scope Z_scope.

(** ** JavaScript strings *)

Abbreviation jsstring := (list N).

(** An ASCII literal of the source as a sequence of code units. *)
Fixpoint js (s : string) : jsstring :=
  match s with
  | EmptyString => []
  | String a s' => N_of_ascii a :: js s'
  end.
Arguments js : simpl never.

Definition SLASH : N := 47.
Definition DOT : N := 46.
Definition PERCENT : N := 37.
Definition HASH : N := 35.
Definition TILDE : N := 126.

(** [s.length] *)
Definition str_length (s : jsstring) : Z := Z.of_nat (length s).

(** [s.charCodeAt(i)]; [None] stands for NaN (index out of range). *)
Definition charCodeAt (s : jsstring) (i : Z) : option N :=
  if i <? 0 then None else nth_error s (Z.to_nat i).

(** [code === c] for a code that may be undefined or NaN. *)
Definition code_is (code : option N) (c : N) : bool :=
  match code with
  | Some x => N.eqb x c
  | None => false
  end.

(** [s.slice(a, b)], negative indices counting from the end. *)
Definition slice (s : jsstring) (a b : Z) : jsstring :=
  let len := str_length s in
  let from := if a <? 0 then Z.max (len + a) 0 else Z.min a len in
  let to := if b <? 0 then Z.max (len + b) 0 else Z.min b len in
  firstn (Z.to_nat (to - from)) (skipn (Z.to_nat from) s).

Fixpoint lastIndexOf_from (s : jsstring) (c : N) (i found : Z) : Z :=
  match s with
  | [] => found
  | x :: s' => lastIndexOf_from s' c (i + 1) (if N.eqb x c then i else found)
  end.

(** [s.lastIndexOf(c)] for a one-unit search string; [-1] when absent. *)
Definition lastIndexOf (s : jsstring) (c : N) : Z := lastIndexOf_from s c 0 (-1).

(** [s.split(sep)] for a one-unit separator: never the empty array. *)
Fixpoint split (sep : N) (s : jsstring) : list jsstring :=
  match s with
  | [] => [[]]
  | c :: s' =>
      if N.eqb c sep then [] :: split sep s'
      else match split sep s' with
           | seg :: segs => (c :: seg) :: segs
           | [] => [[c]]
           end
  end.

(** [a.join(sep)] for an array of strings. *)
Fixpoint join (sep : jsstring) (a : list jsstring) : jsstring :=
  match a with
  | [] => []
  | [x] => x
  | x :: a' => x ++ sep ++ join sep a'
  end.

(** [a.pop()] of a fresh array: its last element. *)
Definition pop (a : list jsstring) : option jsstring := List.last (map Some a) None.

(** ** Exceptions *)

Inductive exn := URIError | TypeError | RangeError.

Inductive result (A : Type) :=
| Ok (a : A)
| Throw (e : exn).
Arguments Ok {A} a.
Arguments Throw {A} e.

Definition bind {A B} (k : A -> result B) (r : result A) : result B :=
  match r with
  | Ok a => k a
  | Throw e => Throw e
  end.

Definition rmap {A B} (f : A -> B) (r : result A) : result B :=
  bind (fun a => Ok (f a)) r.

#[global] Instance result_ret : MRet result := @Ok.
#[global] Instance result_bind : MBind result := @bind.
#[global] Instance result_fmap : FMap result := @rmap.

(** [a.map(f)] where [f] may throw: the first exception aborts the map. *)
Fixpoint map_result {A B} (f : A -> result B) (l : list A) : result (list B) :=
  match l with
  | [] => Ok []
  | x :: l' => y ← f x; ys ← map_result f l'; Ok (y :: ys)
  end.

(** ** [decodeURIComponent] (ECMAScript Decode with an empty reserved set) *)

Definition hex_value (c : N) : option N :=
  if ((48 <=? c) && (c <=? 57))%N then Some (c - 48)%N
  else if ((65 <=? c) && (c <=? 70))%N then Some (c - 55)%N
  else if ((97 <=? c) && (c <=? 102))%N then Some (c - 87)%N
  else None.

(** The octet written [%XY], when [p] is a percent sign and [x], [y] are
    hexadecimal digits. *)
Definition escape_octet (p x y : N) : option N :=
  if N.eqb p PERCENT then
    match hex_value x, hex_value y with
    | Some a, Some b => Some (16 * a + b)%N
    | _, _ => None
    end
  else None.

(** A continuation octet [10xxxxxx] gives its six payload bits. *)
Definition continuation (b : N) : option N :=
  if ((128 <=? b) && (b <? 192))%N then Some (b - 128)%N else None.

(** [UTF16EncodeCodePoint] *)
Definition utf16_encode (cp : N) : jsstring :=
  if (cp <? 65536)%N then [cp]
  else [(55296 + (cp - 65536) / 1024)%N; (56320 + (cp - 65536) mod 1024)%N].

(** The code point of a two-, three- or four-octet sequence; [None] when
    the octets are not the UTF-8 encoding of a code point (a continuation
    octet out of range, an overlong form, a surrogate, a value above
    10FFFF). *)
Definition utf8_decode2 (b0 b1 : N) : option N :=
  c1 ← continuation b1;
  let v := ((b0 - 192) * 64 + c1)%N in
  if (128 <=? v)%N then Some v else None.

Definition utf8_decode3 (b0 b1 b2 : N) : option N :=
  c1 ← continuation b1;
  c2 ← continuation b2;
  let v := ((b0 - 224) * 4096 + c1 * 64 + c2)%N in
  if ((2048 <=? v) && negb ((55296 <=? v) && (v <? 57344)))%N then Some v else None.

Definition utf8_decode4 (b0 b1 b2 b3 : N) : option N :=
  c1 ← continuation b1;
  c2 ← continuation b2;
  c3 ← continuation b3;
  let v := ((b0 - 240) * 262144 + c1 * 4096 + c2 * 64 + c3)%N in
  if ((65536 <=? v) && (v <? 1114112))%N then Some v else None.

Definition of_option {A} (o : option A) : result A :=
  match o with
  | Some a => Ok a
  | None => Throw URIError
  end.

Fixpoint decodeURIComponent (s : jsstring) : result jsstring :=
  match s with
  | [] => Ok []
  | c :: s1 =>
      if negb (N.eqb c PERCENT) then rmap (cons c) (decodeURIComponent s1)
      else
        match s1 with
        | x :: y :: s2 =>
            match escape_octet c x y with
            | None => Throw URIError
            | Some b0 =>
                if (b0 <? 128)%N then rmap (cons b0) (decodeURIComponent s2)
                else if (b0 <? 192)%N then Throw URIError
                else if (b0 <? 224)%N then
                  match s2 with
                  | p1 :: x1 :: y1 :: s3 =>
                      v ← of_option (b1 ← escape_octet p1 x1 y1; utf8_decode2 b0 b1);
                      rmap (app (utf16_encode v)) (decodeURIComponent s3)
                  | _ => Throw URIError
                  end
                else if (b0 <? 240)%N then
                  match s2 with
                  | p1 :: x1 :: y1 :: p2 :: x2 :: y2 :: s3 =>
                      v ← of_option (b1 ← escape_octet p1 x1 y1;
                                      b2 ← escape_octet p2 x2 y2;
                                      utf8_decode3 b0 b1 b2);
                      rmap (app (utf16_encode v)) (decodeURIComponent s3)
                  | _ => Throw URIError
                  end
                else if (b0 <? 248)%N then
                  match s2 with
                  | p1 :: x1 :: y1 :: p2 :: x2 :: y2 :: p3 :: x3 :: y3 :: s3 =>
                      v ← of_option (b1 ← escape_octet p1 x1 y1;
                                      b2 ← escape_octet p2 x2 y2;
                                      b3 ← escape_octet p3 x3 y3;
                                      utf8_decode4 b0 b1 b2 b3);
                      rmap (app (utf16_encode v)) (decodeURIComponent s3)
                  | _ => Throw URIError
                  end
                else Throw URIError
            end
        | _ => Throw URIError
        end
  end.

(** ** [posixNormalize] (lines 325-398) *)

Record pn_state := PnState {
  res : jsstring;
  lastSegmentLength : Z;
  lastSlash : Z;
  dots : Z;
  code : option N
}.

Definition pn_init : pn_state :=
  {| res := []; lastSegmentLength := 0; lastSlash := -1; dots := 0; code := None |}.

(** The statements of a slash iteration once [code === SLASH] holds. The
    two [continue] exits set [lastSlash] and [dots] themselves, as the
    fall-through does. *)
Definition pn_slash (path : jsstring) (allowAboveRoot : bool) (i : Z)
    (st : pn_state) : pn_state :=
  let done r l := {| res := r; lastSegmentLength := l; lastSlash := i;
                     dots := 0; code := code st |} in
  let above :=
    if allowAboveRoot then
      done (if str_length (res st) >? 0 then res st ++ js "/.." else js "..") 2
    else done (res st) (lastSegmentLength st) in
  if (lastSlash st =? i - 1) || (dots st =? 1) then
    done (res st) (lastSegmentLength st)
  else if negb (lastSlash st =? i - 1) && (dots st =? 2) then
    if (str_length (res st) <? 2)
       || negb (lastSegmentLength st =? 2)
       || negb (code_is (charCodeAt (res st) (str_length (res st) - 1)) DOT)
       || negb (code_is (charCodeAt (res st) (str_length (res st) - 2)) DOT)
    then
      if str_length (res st) >? 2 then
        let lastSlashIndex := lastIndexOf (res st) SLASH in
        if negb (lastSlashIndex =? str_length (res st) - 1) then
          if lastSlashIndex =? -1 then done [] 0
          else
            let r := slice (res st) 0 lastSlashIndex in
            done r (str_length r - 1 - lastIndexOf r SLASH)
        else above
      else if (str_length (res st) =? 2) || (str_length (res st) =? 1) then
        done [] 0
      else above
    else above
  else
    done (if str_length (res st) >? 0
          then res st ++ js "/" ++ slice path (lastSlash st + 1) i
          else slice path (lastSlash st + 1) i)
         (i - lastSlash st - 1).

(** [code = c] *)
Definition set_code (st : pn_state) (c : option N) : pn_state :=
  {| res := res st; lastSegmentLength := lastSegmentLength st;
     lastSlash := lastSlash st; dots := dots st; code := c |}.

Definition set_dots (st : pn_state) (d : Z) : pn_state :=
  {| res := res st; lastSegmentLength := lastSegmentLength st;
     lastSlash := lastSlash st; dots := d; code := code st |}.

(** One iteration of the [for] loop; [None] is the [break]. *)
Definition pn_body (path : jsstring) (allowAboveRoot : bool) (i : Z)
    (st : pn_state) : option pn_state :=
  let rest (st : pn_state) :=
    if code_is (code st) SLASH then pn_slash path allowAboveRoot i st
    else if code_is (code st) DOT && negb (dots st =? -1)
    then set_dots st (dots st + 1)
    else set_dots st (-1) in
  if i <? str_length path then Some (rest (set_code st (charCodeAt path i)))
  else if code_is (code st) SLASH then None
  else Some (rest (set_code st (Some SLASH))).

(** [for (let i = 0; i <= path.length; ++i)]: [n] iterations are left. *)
Fixpoint pn_loop (n : nat) (path : jsstring) (allowAboveRoot : bool) (i : Z)
    (st : pn_state) : pn_state :=
  match n with
  | O => st
  | S n' =>
      match pn_body path allowAboveRoot i st with
      | None => st
      | Some st' => pn_loop n' path allowAboveRoot (i + 1) st'
      end
  end.

Definition posixNormalize (path : jsstring) (allowAboveRoot : bool) : jsstring :=
  res (pn_loop (S (length path)) path allowAboveRoot 0 pn_init).

(** ** [normalize] (lines 400-426) *)

(** What follows the [try] statement, on the value [path] has by then. *)
Definition normalize_finish (isAbsolute trailingSeparator : bool)
    (path : jsstring) : jsstring :=
  let path := if (str_length path =? 0) && negb isAbsolute then js "." else path in
  let path := if (str_length path >? 0) && trailingSeparator
              then path ++ js "/" else path in
  if isAbsolute then js "/" ++ path else path.

(** [try { path = decodeURIComponent(path) } finally { path =
    posixNormalize(path, !isAbsolute) }] has no [catch]: when the decoding
    throws, the [finally] block runs on the undecoded path and the
    exception then leaves [normalize]. *)
Definition normalize (p : jsstring) : result jsstring :=
  if str_length p =? 0 then Ok (js ".")
  else
    let isAbsolute := code_is (charCodeAt p 0) SLASH in
    let trailingSeparator := code_is (charCodeAt p (str_length p - 1)) SLASH in
    match decodeURIComponent p with
    | Throw e =>
        let _ := posixNormalize p (negb isAbsolute) in
        Throw e
    | Ok decoded =>
        let path := posixNormalize decoded (negb isAbsolute) in
        Ok (normalize_finish isAbsolute trailingSeparator path)
    end.

(** ** [encodeURIComponent] (ECMAScript Encode) *)

Definition in_range (lo hi c : N) : bool := ((lo <=? c) && (c <=? hi))%N.

(** The units [encodeURIComponent] leaves alone: letters, digits and
    [- _ . ! ~ * ' ( )]. *)
Definition unescaped (c : N) : bool :=
  in_range 97 122 c || in_range 65 90 c || in_range 48 57 c
  || N.eqb c 45 || N.eqb c 95 || N.eqb c 46 || N.eqb c 33 || N.eqb c 126
  || N.eqb c 42 || N.eqb c 39 || N.eqb c 40 || N.eqb c 41.

Definition is_high_surrogate (c : N) : bool := in_range 55296 56319 c.
Definition is_low_surrogate (c : N) : bool := in_range 56320 57343 c.

(** The code point of a surrogate pair. *)
Definition pair_code_point (hi lo : N) : N :=
  ((hi - 55296) * 1024 + (lo - 56320) + 65536)%N.

(** The UTF-8 transformation of a code point. *)
Definition utf8_encode (cp : N) : list N :=
  if (cp <? 128)%N then [cp]
  else if (cp <? 2048)%N then [(192 + cp / 64)%N; (128 + cp mod 64)%N]
  else if (cp <? 65536)%N then
    [(224 + cp / 4096)%N; (128 + (cp / 64) mod 64)%N; (128 + cp mod 64)%N]
  else
    [(240 + cp / 262144)%N; (128 + (cp / 4096) mod 64)%N;
     (128 + (cp / 64) mod 64)%N; (128 + cp mod 64)%N].

Definition hex_digit (n : N) : N := if (n <? 10)%N then (48 + n)%N else (55 + n)%N.

(** An octet as [%XY], in upper-case hexadecimal. *)
Definition percent_octet (b : N) : jsstring :=
  [PERCENT; hex_digit (b / 16); hex_digit (b mod 16)].

Definition percent_octets (bs : list N) : jsstring := flat_map percent_octet bs.

Fixpoint encodeURIComponent (s : jsstring) : result jsstring :=
  match s with
  | [] => Ok []
  | c :: s1 =>
      if unescaped c then rmap (cons c) (encodeURIComponent s1)
      else if is_high_surrogate c then
        match s1 with
        | lo :: s2 =>
            if is_low_surrogate lo then
              rmap (app (percent_octets (utf8_encode (pair_code_point c lo))))
                   (encodeURIComponent s2)
            else Throw URIError
        | [] => Throw URIError
        end
      else if is_low_surrogate c then Throw URIError
      else rmap (app (percent_octets (utf8_encode c))) (encodeURIComponent s1)
  end.

(** ** [String.prototype.replace] with the global patterns of [pathMask] *)

(** [s.replace(/c/g, by)] for a one-unit pattern. *)
Definition replace_unit (c : N) (by_ : jsstring) (s : jsstring) : jsstring :=
  flat_map (fun x => if N.eqb x c then by_ else [x]) s.

(** [s.replace(/ab/g, by)] for a two-unit pattern: matches are taken from
    left to right and do not overlap. *)
Fixpoint replace_pair (a b : N) (by_ : jsstring) (s : jsstring) : jsstring :=
  match s with
  | x :: s1 =>
      match s1 with
      | y :: s2 =>
          if N.eqb x a && N.eqb y b then by_ ++ replace_pair a b by_ s2
          else x :: replace_pair a b by_ s1
      | [] => [x]
      end
  | [] => []
  end.

(** ** Path items ([ObjPath = (string | number)[]]) *)

Inductive key :=
| KStr (s : jsstring)
| KNum (n : Z).

Fixpoint digits_of (fuel : nat) (n : N) (acc : jsstring) : jsstring :=
  match fuel with
  | O => acc
  | S fuel' =>
      let acc' := (48 + n mod 10)%N :: acc in
      if (n <? 10)%N then acc' else digits_of fuel' (n / 10) acc'
  end.

(** [String(n)] for an integer [n]: its decimal digits. *)
Definition decimal (n : Z) : jsstring :=
  let m := Z.to_N (Z.abs n) in
  let ds := digits_of (S (N.to_nat (N.log2 m))) m [] in
  if n <? 0 then 45%N :: ds else ds.

(** [String(i)] for a path item. *)
Definition String_of (k : key) : jsstring :=
  match k with
  | KStr s => s
  | KNum n => decimal n
  end.

(** ** The pointer codec (lines 266-278) *)

Definition parsePointer (pointer : jsstring) : result (list jsstring) :=
  rmap (skipn 1)
    (map_result
       (fun i => decodeURIComponent
                   (replace_pair TILDE 48 (js "~")
                      (replace_pair TILDE 49 (js "/") i)))
       (split SLASH pointer)).

Definition buildPointer (path : list key) : result jsstring :=
  if Nat.eqb (length path) 0 then Ok []
  else
    rmap (fun parts => js "/" ++ join (js "/") parts)
      (map_result
         (fun i => encodeURIComponent
                     (replace_unit SLASH (js "~1")
                        (replace_unit TILDE (js "~0") (String_of i))))
         path).

Definition buildRef (path : list key) (fileName : option jsstring)
    : result jsstring :=
  let fileName := default [] fileName in
  if Nat.eqb (length path) 0 then
    Ok (match fileName with [] => js "#" | _ => fileName end)
  else rmap (fun p => fileName ++ js "#" ++ p) (buildPointer path).

(** ** [validURL] (lines 199-207): the pattern as a regular expression *)

Inductive regex :=
| Void
| Eps
| Chr (p : N -> bool)
| Seq (r1 r2 : regex)
| Alt (r1 r2 : regex)
| Star (r : regex).

Fixpoint nullable (r : regex) : bool :=
  match r with
  | Void => false
  | Eps => true
  | Chr _ => false
  | Seq r1 r2 => nullable r1 && nullable r2
  | Alt r1 r2 => nullable r1 || nullable r2
  | Star _ => true
  end.

(** The words of [r] that start with [c], without that [c]. *)
Fixpoint deriv (c : N) (r : regex) : regex :=
  match r with
  | Void => Void
  | Eps => Void
  | Chr p => if p c then Eps else Void
  | Seq r1 r2 =>
      if nullable r1 then Alt (Seq (deriv c r1) r2) (deriv c r2)
      else Seq (deriv c r1) r2
  | Alt r1 r2 => Alt (deriv c r1) (deriv c r2)
  | Star r1 => Seq (deriv c r1) (Star r1)
  end.

(** [/^r$/.test(s)] *)
Definition regex_test (r : regex) (s : jsstring) : bool :=
  nullable (fold_left (fun r c => deriv c r) s r).

Definition Opt (r : regex) : regex := Alt Eps r.
Definition Plus (r : regex) : regex := Seq r (Star r).
Fixpoint Lit (s : jsstring) : regex :=
  match s with
  | [] => Eps
  | c :: s' => Seq (Chr (N.eqb c)) (Lit s')
  end.

(** Character classes under the [i] flag: a letter matches in both cases. *)
Definition letter (c : N) : bool := in_range 97 122 c || in_range 65 90 c.
Definition digit (c : N) : bool := in_range 48 57 c.
Definition one_of (s : jsstring) (c : N) : bool := existsb (N.eqb c) s.
Fixpoint LitI (s : jsstring) : regex :=
  match s with
  | [] => Eps
  | c :: s' =>
      Seq (Chr (fun x => N.eqb x c
                         || (in_range 97 122 c && N.eqb x (c - 32))
                         || (in_range 65 90 c && N.eqb x (c + 32))))
          (LitI s')
  end.

Definition validURL_pattern : regex :=
  let alnum c := letter c || digit c in
  (* protocol *)
  let protocol := Seq (LitI (js "http")) (Seq (Opt (LitI (js "s"))) (Lit (js "://"))) in
  (* domain name: dot-terminated labels, then two letters or more *)
  let label := Seq (Chr alnum)
                 (Star (Seq (Star (Chr (fun c => alnum c || N.eqb c 45))) (Chr alnum))) in
  let domain := Seq (Plus (Seq label (Lit (js "."))))
                  (Seq (Chr letter) (Plus (Chr letter))) in
  (* OR ip (v4) address: four groups of one to three digits *)
  let d13 := Seq (Chr digit) (Seq (Opt (Chr digit)) (Opt (Chr digit))) in
  let d13dot := Seq d13 (Lit (js ".")) in
  let ip := Seq d13dot (Seq d13dot (Seq d13dot d13)) in
  (* port and path *)
  let port := Opt (Seq (Lit (js ":")) (Plus (Chr digit))) in
  let path := Star (Seq (Lit (js "/"))
                      (Star (Chr (fun c => alnum c || one_of (js "-%_.~+") c)))) in
  (* query string *)
  let query := Opt (Seq (Lit (js "?"))
                      (Star (Chr (fun c => alnum c || one_of (js ";&%_.~+=-") c)))) in
  (* fragment locator *)
  let fragment := Opt (Seq (Lit (js "#"))
                         (Star (Chr (fun c => alnum c || one_of (js "-_") c)))) in
  Seq protocol (Seq (Alt domain ip) (Seq port (Seq path (Seq query fragment)))).

Definition validURL (str : jsstring) : bool := regex_test validURL_pattern str.

(** ** References (lines 223-251) *)

(** [!s] for an optional string: undefined and the empty string are falsy. *)
Definition falsy (s : option jsstring) : bool :=
  match s with
  | None | Some [] => true
  | Some _ => false
  end.

Definition createRef (basePath pointer : option jsstring) : jsstring :=
  if falsy basePath then
    (if falsy pointer then js "#" else js "#" ++ default [] pointer)
  else
    default [] basePath ++ (if falsy pointer then [] else js "#" ++ default [] pointer).

Definition relativePath (path : jsstring) (basePath : option jsstring)
    : result jsstring :=
  if falsy basePath then normalize path
  else if falsy (Some path) then normalize (default [] basePath)
  else
    let base := split SLASH (default [] basePath) in
    let base := <[(length base - 1)%nat := path]> base in
    normalize (join (js "/") base).

Record parsed_ref := ParsedRef {
  filePath : jsstring;
  pointer : jsstring;
  normalized : jsstring
}.

(** Line 224, the destructuring of the split: the first part, the default
    [basePath] standing in for a part that is undefined, and the second
    part, which may be undefined. Later parts are not bound. *)
Definition ref_parts (ref basePath : jsstring) : jsstring * option jsstring :=
  let parts := split HASH ref in
  (default basePath (nth_error parts 0), nth_error parts 1).

Section References.
(** [new URL(s).href] is the platform's URL parser and serialiser; it
    throws a [TypeError] on a string it cannot parse. *)
Variable URL_href : jsstring -> result jsstring.

Definition parseRef (ref : jsstring) (basePath : option jsstring)
    : result parsed_ref :=
  let basePath := default [] basePath in
  let '(sourcePath, ref) := ref_parts ref basePath in
  filePath ← (if validURL sourcePath then URL_href sourcePath
              else relativePath sourcePath (Some basePath));
  let pointer :=
    if falsy ref || bool_decide (ref = Some (js "/")) then [] else default [] ref in
  let normalized := createRef (Some filePath) (Some pointer) in
  Ok {| filePath := filePath; pointer := pointer; normalized := normalized |}.
End References.

(** ** Well-formed strings *)

(** A string is well formed when every unit is a 16-bit value and every
    surrogate is half of a pair (what [isWellFormed] tests). *)
Fixpoint well_formed (s : jsstring) : bool :=
  match s with
  | [] => true
  | c :: s1 =>
      if is_high_surrogate c then
        match s1 with
        | lo :: s2 => is_low_surrogate lo && well_formed s2
        | [] => false
        end
      else negb (is_low_surrogate c) && (c <? 65536)%N && well_formed s1
  end.

(** ** Values and the store *)

Abbreviation loc := positive.

(** A value is a primitive or a reference to an object of the store.
    Numbers are the integers (path items and array lengths); functions and
    symbols are outside the documents these utilities handle. *)
Inductive val :=
| VUndefined
| VNull
| VBool (b : bool)
| VNum (n : Z)
| VStr (s : jsstring)
| VRef (l : loc).

(** An object holds its own enumerable properties in insertion order; an
    array is an object with a length whose elements are the properties named
    by the decimal indices. Lookups read own properties only: the members of
    the built-in prototypes are not part of a document. *)
Record object := Object {
  arr_length : option N;
  props : list (jsstring * val)
}.

Abbreviation heap := (gmap loc object).

Fixpoint assoc_get (k : jsstring) (ps : list (jsstring * val)) : option val :=
  match ps with
  | [] => None
  | (k', v) :: ps' => if bool_decide (k' = k) then Some v else assoc_get k ps'
  end.

Fixpoint assoc_set (k : jsstring) (v : val) (ps : list (jsstring * val))
    : list (jsstring * val) :=
  match ps with
  | [] => [(k, v)]
  | (k', v') :: ps' =>
      if bool_decide (k' = k) then (k, v) :: ps' else (k', v') :: assoc_set k v ps'
  end.

(** The index a property name denotes, when it is the decimal form of an
    integer below 2^32 - 1. *)
Definition array_index (k : jsstring) : option N :=
  let n := fold_left (fun acc c => (10 * acc + (c - 48))%N) k 0%N in
  if negb (bool_decide (k = [])) && forallb (in_range 48 57) k
     && bool_decide (decimal (Z.of_N n) = k) && (n <? 4294967295)%N
  then Some n else None.

Definition new_array (vs : list val) : object :=
  {| arr_length := Some (N.of_nat (length vs));
     props := imap (fun i v => (decimal (Z.of_nat i), v)) vs |}.

Definition new_object (ps : list (jsstring * val)) : object :=
  {| arr_length := None; props := ps |}.

Definition alloc (h : heap) (o : object) : heap * loc :=
  let l := fresh (dom h) in (<[l := o]> h, l).

(** [Array.isArray(v)] *)
Definition isArray (h : heap) (v : val) : bool :=
  match v with
  | VRef l => match h !! l with
              | Some o => bool_decide (is_Some (arr_length o))
              | None => false
              end
  | _ => false
  end.

(** [typeof v === "object"]: true of null as well. *)
Definition typeof_object (v : val) : bool :=
  match v with
  | VNull | VRef _ => true
  | _ => false
  end.

Definition is_null (v : val) : bool :=
  match v with
  | VNull => true
  | _ => false
  end.

Definition is_undefined (v : val) : bool :=
  match v with
  | VUndefined => true
  | _ => false
  end.

(** [isObject] (line 197) *)
Definition isObject (v : val) : bool := typeof_object v && negb (is_null v).

(** [o[k]] on an object of the store. *)
Definition own_get (o : object) (k : jsstring) : val :=
  match arr_length o with
  | Some n => if bool_decide (k = js "length") then VNum (Z.of_N n)
              else default VUndefined (assoc_get k (props o))
  | None => default VUndefined (assoc_get k (props o))
  end.

(** [v[k]] for any value: a TypeError on undefined and null; a string has
    its units and its length; the other primitives have no own property. *)
Definition get_prop (h : heap) (v : val) (k : jsstring) : result val :=
  match v with
  | VUndefined | VNull => Throw TypeError
  | VRef l => Ok (match h !! l with
                  | Some o => own_get o k
                  | None => VUndefined
                  end)
  | VStr s =>
      Ok (if bool_decide (k = js "length") then VNum (str_length s)
          else match array_index k with
               | Some i => match nth_error s (N.to_nat i) with
                           | Some c => VStr [c]
                           | None => VUndefined
                           end
               | None => VUndefined
               end)
  | VBool _ | VNum _ => Ok VUndefined
  end.

(** The elements of an array, holes read as undefined ([...v]). *)
Definition elements (o : object) : list val :=
  match arr_length o with
  | Some n =>
      map (fun i => default VUndefined (assoc_get (decimal (Z.of_nat i)) (props o)))
          (seq 0 (N.to_nat n))
  | None => []
  end.

Definition spread (h : heap) (v : val) : list val :=
  match v with
  | VRef l => match h !! l with
              | Some o => elements o
              | None => []
              end
  | _ => []
  end.

(** [Object.keys(v)] of an object: the names of its own enumerable
    properties. *)
Definition Object_keys (h : heap) (v : val) : list jsstring :=
  match v with
  | VRef l => match h !! l with
              | Some o => map fst (props o)
              | None => []
              end
  | _ => []
  end.

Section Accessors.
(** Two conversions of the platform stay abstract: the property name that
    [+s] denotes for a string [s] (ToString of ToNumber of [s]), and the
    length that a value written to an array's [length] denotes (a
    RangeError when it denotes none). *)
Variable numeric_key : jsstring -> jsstring.
Variable array_length_of : heap -> val -> result N.

(** The property name of [+key]. *)
Definition plus_key (k : key) : jsstring :=
  match k with
  | KStr s => numeric_key s
  | KNum n => decimal n
  end.

(** [obj[k] = v] on an object of the store. *)
Definition own_set (h : heap) (o : object) (k : jsstring) (v : val)
    : result object :=
  match arr_length o with
  | None => Ok {| arr_length := None; props := assoc_set k v (props o) |}
  | Some n =>
      if bool_decide (k = js "length") then
        m ← array_length_of h v;
        Ok {| arr_length := Some m;
              props := List.filter (fun p => match array_index p.1 with
                                             | Some i => (i <? m)%N
                                             | None => true
                                             end) (props o) |}
      else
        Ok {| arr_length := Some (match array_index k with
                                  | Some i => N.max n (i + 1)
                                  | None => n
                                  end);
              props := assoc_set k v (props o) |}
  end.

(** [obj[k] = v] in strict code: a TypeError on a primitive. *)
Definition set_prop (h : heap) (obj : val) (k : jsstring) (v : val)
    : result heap :=
  match obj with
  | VRef l =>
      match h !! l with
      | Some o => o' ← own_set h o k v; Ok (<[l := o']> h)
      | None => Ok h
      end
  | _ => Throw TypeError
  end.

(** *** [getValueByPath] (lines 294-303) *)

Fixpoint getValueByPath (h : heap) (value : val) (path : list key)
    : result val :=
  match path with
  | [] => Ok value
  | k :: path' =>
      value' ← get_prop h value
                 (if isArray h value then plus_key k else String_of k);
      if is_undefined value' then Ok value'
      else getValueByPath h value' path'
  end.

(** *** [setValueByPath] (lines 305-318) *)

(** [rest] is [path.slice(i)]: the call returns at once when it is empty,
    and its first item is the last one when nothing follows it. *)
Fixpoint setValueByPath (h : heap) (obj : val) (rest : list key) (value : val)
    : result heap :=
  match rest with
  | [] => Ok h
  | k :: rest' =>
      let key := String_of k in
      cur ← get_prop h obj key;
      h1 ← (if negb (typeof_object cur) then
               let '(h0, l) := alloc h (new_object []) in
               set_prop h0 obj key (VRef l)
             else Ok h);
      match rest' with
      | [] => set_prop h1 obj key value
      | _ => next ← get_prop h1 obj key; setValueByPath h1 next rest' value
      end
  end.
End Accessors.

(** ** [mergeValues] *)

(** A recursive call may fail to return (a cyclic value and patch): [None]
    is a computation that ran out of [fuel]. *)
Definition exec (A : Type) : Type := option (result A).

Definition exec_bind {A B} (e : exec A) (k : A -> exec B) : exec B :=
  match e with
  | Some (Ok a) => k a
  | Some (Throw x) => Some (Throw x)
  | None => None
  end.

Notation "x <~ e ;; k" := (exec_bind e (fun x => k))
  (at level 100, e at next level, k at level 200, right associativity).

Definition lift {A} (r : result A) : exec A := Some r.

(** [{ ...v }]: the own enumerable properties of [v]. *)
Definition own_enumerable (h : heap) (v : val) : list (jsstring * val) :=
  match v with
  | VRef l => match h !! l with
              | Some o => props o
              | None => []
              end
  | _ => []
  end.

(** [result[key] = v] on the plain object at [l]. *)
Definition store_own (h : heap) (l : loc) (k : jsstring) (v : val) : heap :=
  match h !! l with
  | Some o => <[l := {| arr_length := arr_length o;
                        props := assoc_set k v (props o) |}]> h
  | None => h
  end.

(** *** The second definition (lines 280-292) *)

Fixpoint mergeValues (fuel : nat) (h : heap) (value patch : val)
    : exec (heap * val) :=
  match fuel with
  | O => None
  | S fuel' =>
      if isArray h value && isArray h patch then
        let '(h', l) :=
          alloc h (new_array (if isArray h patch
                              then spread h value ++ spread h patch
                              else spread h value)) in
        Some (Ok (h', VRef l))
      else if isObject value && isObject patch then
        let '(h0, l) := alloc h (new_object (own_enumerable h value)) in
        h' <~ fold_left
                (fun acc key =>
                   h1 <~ acc;;
                   old <~ lift (get_prop h1 (VRef l) key);;
                   new <~ lift (get_prop h1 patch key);;
                   m <~ mergeValues fuel' h1 old new;;
                   Some (Ok (store_own m.1 l key m.2)))
                (Object_keys h0 patch) (Some (Ok h0));;
        Some (Ok (h', VRef l))
      else Some (Ok (h, patch))
  end.

(** *** The first definition (lines 33-44) *)

Module FirstHalf.

(** [Reflect.ownKeys(v)]: a TypeError unless [v] is an object; an array
    also has its [length]. *)
Definition Reflect_ownKeys (h : heap) (v : val) : result (list jsstring) :=
  match v with
  | VRef l =>
      Ok (match h !! l with
          | Some o => match arr_length o with
                      | Some _ => map fst (props o) ++ [js "length"]
                      | None => map fst (props o)
                      end
          | None => []
          end)
  | _ => Throw TypeError
  end.

(** [value.push(...items)]: the new length. *)
Definition push (h : heap) (l : loc) (items : list val) : heap * val :=
  match h !! l with
  | Some o =>
      let n := default 0%N (arr_length o) in
      let added := imap (fun i v => (decimal (Z.of_N n + Z.of_nat i), v)) items in
      let n' := (n + N.of_nat (length items))%N in
      (<[l := {| arr_length := Some n'; props := props o ++ added |}]> h,
       VNum (Z.of_N n'))
  | None => (h, VUndefined)
  end.

Section Merge.
Variable array_length_of : heap -> val -> result N.

Fixpoint mergeValues (fuel : nat) (h : heap) (value patch : val)
    : exec (heap * val) :=
  match fuel with
  | O => None
  | S fuel' =>
      if isArray h value then
        if isArray h patch then
          match value with
          | VRef l => Some (Ok (push h l (spread h patch)))
          | _ => Some (Ok (h, value))
          end
        else Some (Ok (h, value))
      else if typeof_object value && typeof_object patch then
        keys <~ lift (Reflect_ownKeys h patch);;
        h' <~ fold_left
                (fun acc key =>
                   h1 <~ acc;;
                   old <~ lift (get_prop h1 value key);;
                   new <~ lift (get_prop h1 patch key);;
                   m <~ mergeValues fuel' h1 old new;;
                   lift (set_prop array_length_of m.1 value key m.2))
                keys (Some (Ok h));;
        Some (Ok (h', value))
      else Some (Ok (h, patch))
  end.
End Merge.

(** [filename] (lines 25-27): the text after the last slash. *)
Definition filename (str : jsstring) : option jsstring := pop (split SLASH str).

(** [isJsonSchema] (lines 29-31): an object whose [type] is one of seven
    names. *)
Definition isJsonSchema (h : heap) (value : val) : result bool :=
  if typeof_object value then
    type ← get_prop h value (js "type");
    Ok (match type with
        | VStr s =>
            bool_decide (s ∈ [js "object"; js "array"; js "string"; js "number";
                              js "boolean"; js "integer"; js "null"])
        | _ => false
        end)
  else Ok false.

End FirstHalf.

(** ** Documents as trees *)

Unset Elimination Schemes.
Inductive json :=
| JUndefined
| JNull
| JBool (b : bool)
| JNum (n : Z)
| JStr (s : jsstring)
| JArr (items : list json)
| JObj (fields : list (jsstring * json)).
Set Elimination Schemes.

(** Builds a document in the store, children first. *)
Fixpoint alloc_json (t : json) (h : heap) : heap * val :=
  match t with
  | JUndefined => (h, VUndefined)
  | JNull => (h, VNull)
  | JBool b => (h, VBool b)
  | JNum n => (h, VNum n)
  | JStr s => (h, VStr s)
  | JArr items =>
      let '(h1, vs) :=
        (fix go (ts : list json) (h : heap) : heap * list val :=
           match ts with
           | [] => (h, [])
           | t :: ts' =>
               let '(h1, v) := alloc_json t h in
               let '(h2, vs) := go ts' h1 in
               (h2, v :: vs)
           end) items h in
      let '(h2, l) := alloc h1 (new_array vs) in
      (h2, VRef l)
  | JObj fields =>
      let '(h1, ps) :=
        (fix go (fs : list (jsstring * json)) (h : heap)
             : heap * list (jsstring * val) :=
           match fs with
           | [] => (h, [])
           | (k, t) :: fs' =>
               let '(h1, v) := alloc_json t h in
               let '(h2, ps) := go fs' h1 in
               (h2, (k, v) :: ps)
           end) fields h in
      let '(h2, l) := alloc h1 (new_object ps) in
      (h2, VRef l)
  end.

Fixpoint sequence {A} (l : list (option A)) : option (list A) :=
  match l with
  | [] => Some []
  | x :: l' => a ← x; as_ ← sequence l'; Some (a :: as_)
  end.

(** Reads a document back from the store, down to depth [fuel]; an array
    must hold its elements and nothing else. *)
Fixpoint read_json (fuel : nat) (h : heap) (v : val) : option json :=
  match v with
  | VUndefined => Some JUndefined
  | VNull => Some JNull
  | VBool b => Some (JBool b)
  | VNum n => Some (JNum n)
  | VStr s => Some (JStr s)
  | VRef l =>
      match fuel with
      | O => None
      | S fuel' =>
          o ← h !! l;
          match arr_length o with
          | Some n =>
              if bool_decide (map fst (props o)
                              = map (fun i => decimal (Z.of_nat i)) (seq 0 (N.to_nat n)))
              then JArr <$> sequence (map (read_json fuel' h) (elements o))
              else None
          | None =>
              JObj <$> sequence (map (fun p => t ← read_json fuel' h p.2; Some (p.1, t))
                                     (props o))
          end
      end
  end.

(** Runs a merge on two documents built in an empty store: the result read
    back, and the first document as it reads after the call. *)
Definition merge_documents (merge : heap -> val -> val -> exec (heap * val))
    (depth : nat) (value patch : json) : exec (option json * option json) :=
  let '(h1, v) := alloc_json value ∅ in
  let '(h2, p) := alloc_json patch h1 in
  m <~ merge h2 v p;;
  Some (Ok (read_json depth m.1 m.2, read_json depth m.1 v)).

(** [getValueByPath] and [setValueByPath] on a document built in an empty
    store; the document is read back after the write. *)
Definition get_in (numeric_key : jsstring -> jsstring) (t : json)
    (path : list key) : result val :=
  let '(h, root) := alloc_json t ∅ in getValueByPath numeric_key h root path.

Definition set_in (array_length_of : heap -> val -> result N) (t : json)
    (path : list key) (x : val) : result (option json) :=
  let '(h, root) := alloc_json t ∅ in
  h' ← setValueByPath array_length_of h root path x;
  Ok (read_json 8 h' root).

(** ** [filename] (lines 253-256) *)

(** The units the dot of a pattern does not match. *)
Definition line_terminator (c : N) : bool :=
  N.eqb c 10 || N.eqb c 13 || N.eqb c 8232 || N.eqb c 8233.

(** The pattern of line 255 without its end anchor, under the [i] flag:
    any unit that is no line terminator (the dot is not escaped), then
    [json], [yaml] or [yml]. *)
Definition extension_pattern : regex :=
  Seq (Chr (fun c => negb (line_terminator c)))
      (Alt (LitI (js "json")) (Alt (LitI (js "yaml")) (LitI (js "yml")))).

(** [s.replace(re, by)] where [re] is the pattern [r] followed by the end
    anchor, with the [g] flag: the leftmost suffix of [s] that [r] matches is
    removed; a match ends at the end of [s], so there is one at most. *)
Fixpoint remove_at_end (r : regex) (s : jsstring) : jsstring :=
  match s with
  | [] => []
  | c :: s' => if regex_test r s then [] else c :: remove_at_end r s'
  end.

Definition filename (str : jsstring) : jsstring :=
  let name := default [] (pop (split SLASH str)) in
  remove_at_end extension_pattern name.

(** ** [MapArray] (lines 185-195) *)

(** A [Map] whose values are arrays, as the list of its entries in
    insertion order; keys are compared by equality. The arrays are held by
    value: what [push] does to the array of an entry is written to the
    entry. *)
Module MapArray.
Section MapArray.
Context {K V : Type} `{EqDecision K}.

Definition t : Type := list (K * list V).

(** [Map.prototype.get] *)
Fixpoint get (key : K) (m : t) : option (list V) :=
  match m with
  | [] => None
  | (k, arr) :: m' => if decide (k = key) then Some arr else get key m'
  end.

(** [Map.prototype.set]: the entry of an old key keeps its place, a new
    key goes to the end. *)
Fixpoint set (key : K) (arr : list V) (m : t) : t :=
  match m with
  | [] => [(key, arr)]
  | (k, a) :: m' =>
      if decide (k = key) then (key, arr) :: m' else (k, a) :: set key arr m'
  end.

Definition add (m : t) (key : K) (value : V) : t :=
  match get key m with
  | Some arr => set key (arr ++ [value]) m
  | None => set key [value] m
  end.

(** The keys in iteration order. *)
Definition keys (m : t) : list K := map fst m.

End MapArray.
End MapArray.

(** ** [isJsonSchema] and [calcJsonType] (lines 213-221 and 258-264) *)

(** [k in v]: a TypeError unless [v] is an object. The names asked for
    here are no members of the built-in prototypes, so own properties
    decide. *)
Definition has_property (h : heap) (v : val) (k : jsstring) : result bool :=
  match v with
  | VRef l =>
      Ok (match h !! l with
          | Some o =>
              bool_decide (is_Some (assoc_get k (props o)))
              || (bool_decide (is_Some (arr_length o)) && bool_decide (k = js "length"))
          | None => false
          end)
  | _ => Throw TypeError
  end.

Definition isBasicJsonSchema (h : heap) (value : val) : result bool :=
  if typeof_object value then
    a ← has_property h value (js "type");
    if a : bool then Ok true
    else
      b ← has_property h value (js "definitions");
      if b : bool then Ok true else has_property h value (js "properties")
  else Ok false.

Definition isJsonSchema (h : heap) (value : val) : result bool :=
  basic ← isBasicJsonSchema h value;
  if basic : bool then Ok true
  else
    anyOf ← get_prop h value (js "anyOf");
    if isArray h anyOf then Ok true
    else
      oneOf ← get_prop h value (js "oneOf");
      if isArray h oneOf then Ok true
      else
        allOf ← get_prop h value (js "allOf");
        Ok (isArray h allOf).

(** [!!v] *)
Definition truthy (v : val) : bool :=
  match v with
  | VUndefined | VNull | VBool false | VNum 0 | VStr [] => false
  | _ => true
  end.

(** A pattern that is a digit, a dot and a plus sign, without anchors and
    flags, tested on [s]: somewhere in [s] the digit [d] is followed by a
    unit that is no line terminator. *)
Fixpoint digit_then_more (d : N) (s : jsstring) : bool :=
  match s with
  | [] => false
  | c :: s' =>
      (N.eqb c d && match s' with
                    | c' :: _ => negb (line_terminator c')
                    | [] => false
                    end)
      || digit_then_more d s'
  end.

Inductive JsonType := OpenApi3 | OpenApi2 | AsyncApi2 | JsonSchema | unknown.

Section JsonTypes.
(** The string of an object ([toString] of the object, which may be
    user code) stays abstract. *)
Variable ToString_object : heap -> loc -> result jsstring.

(** [ToString(v)], as [RegExp.prototype.test] applies it to its argument. *)
Definition ToString (h : heap) (v : val) : result jsstring :=
  match v with
  | VUndefined => Ok (js "undefined")
  | VNull => Ok (js "null")
  | VBool true => Ok (js "true")
  | VBool false => Ok (js "false")
  | VNum n => Ok (decimal n)
  | VStr s => Ok s
  | VRef l => ToString_object h l
  end.

(** The pattern with digit [d] tested on [data[k] || the empty string]. *)
Definition version_test (h : heap) (data : val) (k : jsstring) (d : N)
    : result bool :=
  x ← get_prop h data k;
  s ← ToString h (if truthy x then x else VStr []);
  Ok (digit_then_more d s).

Definition calcJsonType (h : heap) (data : val) : result JsonType :=
  if negb (typeof_object data) || negb (truthy data) then Ok unknown
  else
    v3 ← version_test h data (js "openapi") 51;
    if v3 : bool then Ok OpenApi3
    else
      v2 ← version_test h data (js "swagger") 50;
      if v2 : bool then Ok OpenApi2
      else
        a2 ← version_test h data (js "asyncapi") 50;
        if a2 : bool then Ok AsyncApi2
        else
          schema ← isJsonSchema h data;
          Ok (if schema : bool then JsonSchema else unknown).
End JsonTypes.

(** * Specification-level definitions *)

(** ** The path normaliser by segments (section 4.1 of the specification) *)

(** One segment against the segments kept so far, the last one first: an
    empty segment or [.] is dropped; [..] removes the last segment when that
    is a real one, is kept when going above the root is allowed, and is
    dropped otherwise; any other segment is kept. *)
Definition collapse_segment (allowAboveRoot : bool) (acc : list jsstring)
    (seg : jsstring) : list jsstring :=
  if bool_decide (seg = []) || bool_decide (seg = js ".") then acc
  else if bool_decide (seg = js "..") then
    match acc with
    | top :: rest =>
        if bool_decide (top = js "..")
        then (if allowAboveRoot then seg :: acc else acc)
        else rest
    | [] => if allowAboveRoot then [seg] else []
    end
  else seg :: acc.

Definition collapse (allowAboveRoot : bool) (segs : list jsstring) : list jsstring :=
  rev (fold_left (collapse_segment allowAboveRoot) segs []).

Definition spec_posixNormalize (path : jsstring) (allowAboveRoot : bool) : jsstring :=
  join (js "/") (collapse allowAboveRoot (split SLASH path)).

Definition slash_free (s : jsstring) : Prop := SLASH ∉ s.

(** A segment that names something: not empty, not [.], not [..]. *)
Definition real_segment (s : jsstring) : Prop :=
  s ≠ [] ∧ slash_free s ∧ s ≠ js "." ∧ s ≠ js "..".

Definition good (s : jsstring) : Prop := s ≠ [] ∧ slash_free s.

(** The results of [collapse], last segment first: real segments on top of
    [..] segments, the latter only when going above the root is allowed. *)
Inductive stack_ok (allow : bool) : list jsstring -> Prop :=
| ok_nil : stack_ok allow []
| ok_dotdot acc :
    allow = true -> Forall (eq (js "..")) acc -> stack_ok allow (js ".." :: acc)
| ok_real seg acc :
    real_segment seg -> stack_ok allow acc -> stack_ok allow (seg :: acc).

(** ** The loop of [posixNormalize] against the segments *)

Definition toplen (acc : list jsstring) : Z :=
  match acc with
  | [] => 0
  | top :: _ => str_length top
  end.

(** The value of [dots] after the units [cur] of a segment. *)
Definition dots_of (cur : jsstring) : Z :=
  if forallb (N.eqb DOT) cur then str_length cur else -1.

(** The loop read one code unit at a time: [acc] holds the segments of the
    result so far, the last one first, and [cur] the segment being read. *)
Definition feed (allow : bool) (s : list jsstring * jsstring) (c : N)
    : list jsstring * jsstring :=
  if N.eqb c SLASH then (collapse_segment allow s.1 s.2, []) else (s.1, s.2 ++ [c]).

Definition feed_end (allow : bool) (s : list jsstring * jsstring) : list jsstring :=
  collapse_segment allow s.1 s.2.

(** The state of the loop after the units [done], of which [cur] are the
    segment being read and [acc] the segments kept. *)
Record pn_inv (done : jsstring) (st : pn_state) (acc : list jsstring)
    (cur : jsstring) : Prop := {
  inv_res : res st = join (js "/") (rev acc);
  inv_len : lastSegmentLength st = toplen acc;
  inv_good : Forall good acc;
  inv_cur : slash_free cur;
  inv_dots : dots st = dots_of cur;
  inv_slash : lastSlash st = str_length done - 1 - str_length cur;
  inv_suffix : exists pre, done = pre ++ cur;
  inv_code : code_is (code st) SLASH = true -> cur = []
}.

(** ** The pointer codec on one token *)

Definition escape_token (t : jsstring) : jsstring :=
  replace_unit SLASH (js "~1") (replace_unit TILDE (js "~0") t).

Definition unescape_token (e : jsstring) : jsstring :=
  replace_pair TILDE 48 (js "~") (replace_pair TILDE 49 (js "/") e).

(** A Unicode scalar value: a code point that is no surrogate. *)
Definition scalar_value (cp : N) : Prop :=
  (cp < 1114112)%N ∧ ¬ (55296 <= cp < 57344)%N.

(** The units of an escape sequence: the percent sign and the upper-case
    hexadecimal digits. *)
Definition escape_unit (u : N) : Prop :=
  u = PERCENT ∨ (48 <= u <= 57)%N ∨ (65 <= u <= 70)%N.

(** ** The merge *)

(** The body of the loop of lines 285-287 as a step on the store. *)
Definition merge_step (fuel : nat) (l : loc) (patch : val)
    (acc : exec heap) (key : jsstring) : exec heap :=
  h1 <~ acc;;
  old <~ lift (get_prop h1 (VRef l) key);;
  new <~ lift (get_prop h1 patch key);;
  m <~ mergeValues fuel h1 old new;;
  Some (Ok (store_own m.1 l key m.2)).

(** Value and patch are combined, not replaced: two arrays, or two objects. *)
Definition combined (h : heap) (value patch : val) : bool :=
  (isArray h value && isArray h patch) || (isObject value && isObject patch).

(** [bounded d h v]: every chain of references from [v] ends within [d]
    objects of the store (a finite document of depth [d] at most). *)
Fixpoint bounded (d : nat) (h : heap) (v : val) : Prop :=
  match v with
  | VRef l =>
      match d with
      | O => False
      | S d' => exists o, h !! l = Some o ∧ Forall (fun p => bounded d' h p.2) (props o)
      end
  | _ => True
  end.

(** A value and a patch in one store, for the examples. *)
Definition ex_value : json := JObj [(js "a", JNum 1); (js "b", JArr [JNum 2])].
Definition ex_patch : json := JObj [(js "b", JArr [JNum 3]); (js "c", JNum 4)].
Definition ex_store : heap * val * val :=
  let '(h1, v) := alloc_json ex_value ∅ in
  let '(h2, p) := alloc_json ex_patch h1 in
  (h2, v, p).

(** ** The words of a regular expression *)

Inductive matches : regex -> jsstring -> Prop :=
| matches_eps : matches Eps []
| matches_chr p c : p c = true -> matches (Chr p) [c]
| matches_seq r1 r2 s1 s2 :
    matches r1 s1 -> matches r2 s2 -> matches (Seq r1 r2) (s1 ++ s2)
| matches_alt_l r1 r2 s : matches r1 s -> matches (Alt r1 r2) s
| matches_alt_r r1 r2 s : matches r2 s -> matches (Alt r1 r2) s
| matches_star_nil r : matches (Star r) []
| matches_star_app r s1 s2 :
    matches r s1 -> matches (Star r) s2 -> matches (Star r) (s1 ++ s2).

(** Every character class of [r] lies within [Q]. *)
Fixpoint classes_within (Q : N -> Prop) (r : regex) : Prop :=
  match r with
  | Void | Eps => True
  | Chr p => forall c, p c = true -> Q c
  | Seq r1 r2 | Alt r1 r2 => classes_within Q r1 ∧ classes_within Q r2
  | Star r1 => classes_within Q r1
  end.

(** The lower-case form of an ASCII letter; other units are unchanged. *)
Definition lower (c : N) : N := if in_range 65 90 c then (c + 32)%N else c.

(** ** Pointers *)

(** The units a pointer built by [buildPointer] is made of: the slash, the
    units [encodeURIComponent] leaves alone, and the units of its escape
    sequences. *)
Definition pointer_unit (u : N) : Prop :=
  u = SLASH ∨ unescaped u = true ∨ escape_unit u.

(** The number of slashes of a string. *)
Definition slashes (s : jsstring) : nat := length (List.filter (N.eqb SLASH) s).

(** * Properties *)

(** ** Strings *)

Lemma str_length_app a b : str_length (a ++ b) = str_length a + str_length b.
Proof. unfold str_length. rewrite length_app. lia. Qed.

Lemma str_length_nonneg a : 0 <= str_length a.
Proof. unfold str_length. lia. Qed.

Lemma str_length_nil_inv a : str_length a = 0 -> a = [].
Proof. unfold str_length. destruct a; simpl; [done | lia]. Qed.

Lemma slice_prefix (a b : jsstring) : slice (a ++ b) 0 (str_length a) = a.
Proof.
  unfold slice. pose proof (str_length_nonneg a). pose proof (str_length_nonneg b).
  rewrite str_length_app.
  replace (0 <? 0) with false by done.
  destruct (str_length a <? 0) eqn:E; [lia |].
  rewrite Z.min_l, Z.min_l by lia. simpl.
  rewrite Z.sub_0_r. unfold str_length. rewrite Nat2Z.id.
  change (Z.to_nat 0) with 0%nat. rewrite drop_0. by rewrite take_app_length.
Qed.

Lemma slice_middle (a b c : jsstring) :
  slice (a ++ b ++ c) (str_length a) (str_length a + str_length b) = b.
Proof.
  unfold slice. pose proof (str_length_nonneg a). pose proof (str_length_nonneg b).
  pose proof (str_length_nonneg c).
  rewrite !str_length_app.
  destruct (str_length a <? 0) eqn:E; [lia |].
  destruct (str_length a + str_length b <? 0) eqn:E'; [lia |].
  rewrite Z.min_l, Z.min_l by lia.
  replace (str_length a + str_length b - str_length a) with (str_length b) by lia.
  unfold str_length. rewrite !Nat2Z.id.
  rewrite drop_app_length. by rewrite take_app_length.
Qed.

Lemma lastIndexOf_from_app s t c i f :
  lastIndexOf_from (s ++ t) c i f =
  lastIndexOf_from t c (i + str_length s) (lastIndexOf_from s c i f).
Proof.
  revert i f. induction s as [|x s IH]; intros i f; simpl.
  - f_equal. unfold str_length. simpl. lia.
  - rewrite IH. f_equal. unfold str_length. simpl length. lia.
Qed.

Lemma lastIndexOf_from_free s c i f : c ∉ s -> lastIndexOf_from s c i f = f.
Proof.
  revert i f. induction s as [|x s IH]; intros i f Hs; simpl; [done |].
  apply not_elem_of_cons in Hs as [Hx Hs].
  rewrite IH by done. destruct (N.eqb_spec x c); congruence.
Qed.

Lemma lastIndexOf_free s c : c ∉ s -> lastIndexOf s c = -1.
Proof. apply lastIndexOf_from_free. Qed.

Lemma lastIndexOf_last s t c :
  c ∉ t -> lastIndexOf (s ++ c :: t) c = str_length s.
Proof.
  intros Ht. unfold lastIndexOf. rewrite lastIndexOf_from_app. simpl.
  rewrite N.eqb_refl. rewrite lastIndexOf_from_free by done. lia.
Qed.

Lemma charCodeAt_app_r (a b : jsstring) i :
  0 <= i -> charCodeAt (a ++ b) (str_length a + i) = charCodeAt b i.
Proof.
  intros Hi. unfold charCodeAt. pose proof (str_length_nonneg a).
  destruct (str_length a + i <? 0) eqn:E; [lia |].
  destruct (i <? 0) eqn:E'; [lia |].
  rewrite nth_error_app2; unfold str_length in *; [| lia].
  f_equal. lia.
Qed.

Lemma charCodeAt_middle (a b : jsstring) c :
  charCodeAt (a ++ c :: b) (str_length a) = Some c.
Proof.
  replace (str_length a) with (str_length a + 0) by lia.
  by rewrite charCodeAt_app_r.
Qed.

Lemma charCodeAt_last2 (a : jsstring) x y :
  charCodeAt (a ++ [x; y]) (str_length (a ++ [x; y]) - 1) = Some y ∧
  charCodeAt (a ++ [x; y]) (str_length (a ++ [x; y]) - 2) = Some x.
Proof.
  rewrite str_length_app. change (str_length [x; y]) with 2.
  replace (str_length a + 2 - 1) with (str_length a + 1) by lia.
  replace (str_length a + 2 - 2) with (str_length a + 0) by lia.
  rewrite !charCodeAt_app_r by lia. done.
Qed.

Lemma join_snoc sep (l : list jsstring) x :
  l ≠ [] -> join sep (l ++ [x]) = join sep l ++ sep ++ x.
Proof.
  induction l as [|y l IH]; [done |]. intros _.
  destruct l as [|z l]; [done |].
  change (join sep ((y :: z :: l) ++ [x])) with (y ++ sep ++ join sep ((z :: l) ++ [x])).
  rewrite IH by done. simpl. by rewrite <- !app_assoc.
Qed.

(** The text of the result for a stack whose last segment is [top]. *)
Lemma join_rev_cons top rest :
  join (js "/") (rev (top :: rest)) =
  (if rest is [] then [] else join (js "/") (rev rest) ++ js "/") ++ top.
Proof.
  simpl rev. destruct rest as [|x rest]; [done |].
  rewrite join_snoc; [by rewrite <- app_assoc |].
  simpl. by destruct (rev rest).
Qed.

Lemma join_rev_nonempty acc :
  Forall good acc -> acc ≠ [] -> join (js "/") (rev acc) ≠ [].
Proof.
  intros Hg Hne. destruct acc as [|top rest]; [done |].
  rewrite join_rev_cons. apply Forall_cons in Hg as [[Ht _] _].
  intros H. apply app_eq_nil in H as [_ H]. done.
Qed.

Lemma js_slash : js "/" = [SLASH].
Proof. reflexivity. Qed.
Lemma js_dot : js "." = [DOT].
Proof. reflexivity. Qed.
Lemma js_dotdot : js ".." = [DOT; DOT].
Proof. reflexivity. Qed.
Lemma js_slash_dotdot : js "/.." = [SLASH; DOT; DOT].
Proof. reflexivity. Qed.

Lemma dots_of_1 cur : dots_of cur = 1 <-> cur = js ".".
Proof.
  split; [| by intros ->]. rewrite js_dot. unfold dots_of, str_length.
  destruct cur as [|x [|y cur']]; cbn [forallb length andb].
  - lia.
  - destruct (N.eqb_spec DOT x); cbn [andb]; [intros _; by subst | lia].
  - destruct (DOT =? x)%N, (DOT =? y)%N, (forallb _ cur'); cbn [andb]; lia.
Qed.

Lemma dots_of_2 cur : dots_of cur = 2 <-> cur = js "..".
Proof.
  split; [| by intros ->]. rewrite js_dotdot. unfold dots_of, str_length.
  destruct cur as [|x [|y [|z cur']]]; cbn [forallb length andb].
  - lia.
  - destruct (DOT =? x)%N; cbn [andb]; lia.
  - destruct (N.eqb_spec DOT x), (N.eqb_spec DOT y); cbn [andb]; try lia.
    intros _. by subst.
  - destruct (DOT =? x)%N, (DOT =? y)%N, (DOT =? z)%N, (forallb _ cur'); cbn [andb]; lia.
Qed.

Lemma dots_of_snoc cur c :
  dots_of (cur ++ [c]) =
  if code_is (Some c) DOT && negb (dots_of cur =? -1) then dots_of cur + 1 else -1.
Proof.
  unfold dots_of. rewrite forallb_app. cbn [forallb code_is].
  rewrite str_length_app. change (str_length [c]) with 1.
  rewrite (N.eqb_sym c DOT), andb_true_r. pose proof (str_length_nonneg cur).
  destruct (forallb (N.eqb DOT) cur), (DOT =? c)%N; cbn [andb negb]; try done.
  destruct (Z.eqb_spec (str_length cur) (-1)); [lia | done].
Qed.

Ltac btrue t := let H := fresh in assert (t = true) as H by lia; rewrite H; clear H.
Ltac bfalse t := let H := fresh in assert (t = false) as H by lia; rewrite H; clear H.

(** The test of lines 344-349 holds when the last segment is not [..]. *)
Lemma not_dotdot_test (pre top : jsstring) (l : Z) :
  top ≠ js ".." -> l = str_length top ->
  (str_length (pre ++ top) <? 2)
  || negb (l =? 2)
  || negb (code_is (charCodeAt (pre ++ top) (str_length (pre ++ top) - 1)) DOT)
  || negb (code_is (charCodeAt (pre ++ top) (str_length (pre ++ top) - 2)) DOT) = true.
Proof.
  intros Htop ->. rewrite js_dotdot in Htop.
  destruct (Z.eqb_spec (str_length top) 2) as [H2|H2];
    [| cbn [negb]; by rewrite orb_true_r].
  destruct top as [|x [|y [|z top]]]; try (unfold str_length in H2; simpl in H2; lia).
  destruct (charCodeAt_last2 pre x y) as [-> ->]. cbn [code_is negb orb].
  destruct (N.eqb_spec x DOT), (N.eqb_spec y DOT); subst; cbn [negb];
    rewrite ?orb_true_r; done.
Qed.

Lemma lastIndexOf_join_rev top rest :
  Forall good (top :: rest) ->
  lastIndexOf (join (js "/") (rev (top :: rest))) SLASH =
  str_length (join (js "/") (rev (top :: rest))) - 1 - str_length top.
Proof.
  intros Hg. apply Forall_cons in Hg as [[_ Hfree] _].
  rewrite join_rev_cons. destruct rest as [|r rest].
  - rewrite app_nil_l, lastIndexOf_free by done. lia.
  - rewrite js_slash, <- app_assoc. cbn [app].
    rewrite lastIndexOf_last by done. rewrite !str_length_app.
    change (str_length (SLASH :: top)) with (str_length ([SLASH] ++ top)).
    rewrite str_length_app. change (str_length [SLASH]) with 1. lia.
Qed.

Section slash.
Variables (path : jsstring) (allowAboveRoot : bool) (i : Z).
Variables (st : pn_state) (acc : list jsstring) (cur : jsstring).
Hypothesis Hres : res st = join (js "/") (rev acc).
Hypothesis Hlen : lastSegmentLength st = toplen acc.
Hypothesis Hgood : Forall good acc.
Hypothesis Hcur : slash_free cur.
Hypothesis Hdots : dots st = dots_of cur.
Hypothesis Hslash : lastSlash st = i - 1 - str_length cur.
Hypothesis Hslice : slice path (lastSlash st + 1) i = cur.

Lemma pn_slash_spec :
  pn_slash path allowAboveRoot i st =
  {| res := join (js "/") (rev (collapse_segment allowAboveRoot acc cur));
     lastSegmentLength := toplen (collapse_segment allowAboveRoot acc cur);
     lastSlash := i; dots := 0; code := code st |}.
Proof.
  unfold pn_slash, collapse_segment.
  pose proof (str_length_nonneg cur) as Hnn.
  destruct (decide (cur = [])) as [->|Hne].
  { change (str_length []) with 0 in Hslash.
    btrue (lastSlash st =? i - 1). cbn [orb bool_decide decide_rel].
    rewrite bool_decide_eq_true_2 by done. cbn [orb].
    by rewrite Hres, Hlen. }
  assert (str_length cur ≠ 0) as Hne' by (intros H; by apply str_length_nil_inv in H).
  rewrite (bool_decide_eq_false_2 (cur = [])) by done.
  bfalse (lastSlash st =? i - 1). cbn [orb andb negb].
  destruct (decide (cur = js ".")) as [->|Hdot].
  { rewrite bool_decide_eq_true_2 by done. rewrite Hdots.
    change (dots_of (js ".") =? 1) with true. cbv iota.
    by rewrite Hres, Hlen. }
  rewrite (bool_decide_eq_false_2 (cur = js ".")) by done.
  assert (dots st ≠ 1) as Hd1 by (rewrite Hdots, dots_of_1; done).
  bfalse (dots st =? 1).
  destruct (decide (cur = js "..")) as [->|Hdd].
  - rewrite bool_decide_eq_true_2 by done.
    assert (dots st = 2) as Hd2 by (by rewrite Hdots).
    btrue (dots st =? 2).
    destruct acc as [|top rest].
    + change (res st = []) in Hres. rewrite Hres, Hlen.
      change (str_length []) with 0.
      destruct allowAboveRoot; reflexivity.
    + apply Forall_cons in Hgood as [[Htne Htfree] Hrest].
      assert (str_length top ≠ 0) as Htl by (intros H; by apply str_length_nil_inv in H).
      pose proof (str_length_nonneg top) as Htnn.
      pose proof Hres as Hres'. rewrite join_rev_cons in Hres'.
      set (pre := if rest is [] then [] else join (js "/") (rev rest) ++ js "/") in *.
      assert (str_length (res st) = str_length pre + str_length top) as Hl
        by (by rewrite Hres', str_length_app).
      pose proof (str_length_nonneg pre) as Hprenn.
      change (toplen (top :: rest)) with (str_length top) in Hlen.
      destruct (decide (top = js "..")) as [->|Htop].
      * rewrite bool_decide_eq_true_2 by done.
        destruct (charCodeAt_last2 pre DOT DOT) as [H1 H2].
        change (pre ++ [DOT; DOT]) with (pre ++ js "..") in H1, H2.
        rewrite <- Hres' in H1, H2. rewrite H1, H2.
        change (str_length (js "..")) with 2 in *.
        bfalse (str_length (res st) <? 2).
        btrue (lastSegmentLength st =? 2).
        change (code_is (Some DOT) DOT) with true. cbn [orb negb].
        btrue (str_length (res st) >? 0).
        destruct allowAboveRoot; [| by rewrite Hres, Hlen].
        change (js ".." :: js ".." :: rest) with ([js ".."] ++ js ".." :: rest).
        rewrite rev_app_distr. change (rev [js ".."]) with [js ".."].
        rewrite join_snoc, <- Hres.
        2:{ simpl. by destruct (rev rest). }
        reflexivity.
      * rewrite bool_decide_eq_false_2 by done.
        rewrite Hres'. rewrite not_dotdot_test by done. rewrite <- Hres'.
        destruct rest as [|r rest].
        -- subst pre. rewrite app_nil_l in Hres'.
           change (str_length []) with 0 in Hl.
           destruct (Z.gtb_spec (str_length (res st)) 2).
           ++ rewrite Hres', lastIndexOf_free by done. rewrite <- Hres'.
              bfalse (-1 =? str_length (res st) - 1). reflexivity.
           ++ assert ((str_length (res st) =? 2) || (str_length (res st) =? 1) = true)
                as -> by lia.
              reflexivity.
        -- assert (join (js "/") (rev (r :: rest)) ≠ []) as HJ
             by (by apply join_rev_nonempty).
           set (J := join (js "/") (rev (r :: rest))) in *.
           assert (str_length J ≠ 0) as HJl
             by (intros H; by apply str_length_nil_inv in H).
           pose proof (str_length_nonneg J) as HJnn.
           subst pre. rewrite js_slash, <- app_assoc in Hres'. cbn [app] in Hres'.
           rewrite str_length_app in Hl. change (str_length (js "/")) with 1 in Hl.
           btrue (str_length (res st) >? 2).
           assert (lastIndexOf (res st) SLASH = str_length J) as ->
             by (rewrite Hres'; by apply lastIndexOf_last).
           bfalse (str_length J =? str_length (res st) - 1).
           bfalse (str_length J =? -1). cbn [negb].
           assert (slice (res st) 0 (str_length J) = J) as ->
             by (rewrite Hres'; apply slice_prefix).
           subst J. rewrite lastIndexOf_join_rev by done.
           f_equal. cbn [toplen]. lia.
  - rewrite bool_decide_eq_false_2 by done.
    assert (dots st ≠ 2) as Hd2 by (rewrite Hdots, dots_of_2; done).
    bfalse (dots st =? 2). cbn [andb].
    rewrite Hslice. f_equal; [| cbn [toplen]; lia].
    rewrite join_rev_cons. destruct acc as [|top rest].
    + change (res st = []) in Hres. rewrite Hres. reflexivity.
    + assert (res st ≠ []) as Hr by (rewrite Hres; by apply join_rev_nonempty).
      assert (str_length (res st) ≠ 0) as Hrl
        by (intros H; by apply str_length_nil_inv in H).
      pose proof (str_length_nonneg (res st)).
      btrue (str_length (res st) >? 0). rewrite Hres. by rewrite <- app_assoc.
Qed.
End slash.

Lemma collapse_segment_good allow acc cur :
  Forall good acc -> slash_free cur -> Forall good (collapse_segment allow acc cur).
Proof.
  intros Hacc Hcur. unfold collapse_segment.
  destruct (decide (cur = [])) as [->|Hne].
  { by rewrite bool_decide_eq_true_2. }
  rewrite (bool_decide_eq_false_2 (cur = [])) by done. cbn [orb].
  assert (good cur) by done.
  repeat case_bool_decide; try done.
  - destruct acc as [|top rest]; [destruct allow; by repeat constructor |].
    case_bool_decide; [destruct allow; [by constructor | done] |].
    by apply Forall_cons in Hacc as [_ ?].
  - by constructor.
Qed.

Lemma pn_inv_slice path done todo st acc cur :
  path = done ++ todo -> pn_inv done st acc cur ->
  slice path (lastSlash st + 1) (str_length done) = cur.
Proof.
  intros -> [_ _ _ _ _ Hs [pre ->] _]. rewrite Hs, str_length_app.
  replace (str_length pre + str_length cur - 1 - str_length cur + 1)
    with (str_length pre) by lia.
  rewrite <- !app_assoc. apply slice_middle.
Qed.

Lemma pn_inv_set_code done st acc cur c :
  pn_inv done st acc cur -> (code_is c SLASH = true -> cur = []) ->
  pn_inv done (set_code st c) acc cur.
Proof. intros []. by split. Qed.

Lemma pn_body_slash path allow i st :
  0 <= i -> (i < str_length path -> charCodeAt path i = Some SLASH) ->
  (str_length path <= i -> code_is (code st) SLASH = false) ->
  pn_body path allow i st = Some (pn_slash path allow i (set_code st (Some SLASH))).
Proof.
  intros Hi Hin Hout. unfold pn_body.
  destruct (Z.ltb_spec i (str_length path)).
  - by rewrite Hin.
  - by rewrite Hout.
Qed.

Lemma pn_body_char path allow i st c :
  charCodeAt path i = Some c -> c ≠ SLASH -> i < str_length path ->
  pn_body path allow i st =
  Some (set_dots (set_code st (Some c))
          (if code_is (Some c) DOT && negb (dots st =? -1) then dots st + 1 else -1)).
Proof.
  intros Hc Hne Hi. unfold pn_body. btrue (i <? str_length path). rewrite Hc.
  cbn [code_is set_code code dots]. destruct (N.eqb_spec c SLASH); [done |].
  by destruct (_ && _).
Qed.

Ltac side := first [done | lia | intros; first [done | lia | exfalso; lia]].

Lemma pn_loop_spec path allow todo : forall done st acc cur,
  path = done ++ todo -> pn_inv done st acc cur ->
  res (pn_loop (S (length todo)) path allow (str_length done) st) =
  join (js "/") (rev (feed_end allow (fold_left (feed allow) todo (acc, cur)))).
Proof.
  induction todo as [|c todo IH]; intros done st acc cur Hpath Hinv;
    pose proof (pn_inv_slice _ _ _ _ _ _ Hpath Hinv) as Hsl;
    pose proof (str_length_nonneg done).
  - unfold feed_end. cbn [length pn_loop fold_left fst snd].
    rewrite app_nil_r in Hpath. subst done.
    destruct (code_is (code st) SLASH) eqn:Hc.
    + unfold pn_body. bfalse (str_length path <? str_length path). rewrite Hc.
      rewrite (inv_code _ _ _ _ Hinv Hc), (inv_res _ _ _ _ Hinv).
      unfold collapse_segment. by rewrite bool_decide_eq_true_2.
    + rewrite pn_body_slash by side.
      erewrite pn_slash_spec; [done | apply Hinv..| apply Hinv | apply Hsl].
  - cbn [length fold_left].
    change (pn_loop (S (S (length todo))) path allow (str_length done) st)
      with (match pn_body path allow (str_length done) st with
            | None => st
            | Some st' => pn_loop (S (length todo)) path allow (str_length done + 1) st'
            end).
    assert (str_length path = str_length done + 1 + str_length todo) as Hl.
    { rewrite Hpath, str_length_app. unfold str_length. simpl length. lia. }
    pose proof (str_length_nonneg todo).
    assert (charCodeAt path (str_length done) = Some c) as Hch
      by (rewrite Hpath; apply charCodeAt_middle).
    assert (str_length done + 1 = str_length (done ++ [c])) as ->
      by (by rewrite str_length_app).
    assert (path = (done ++ [c]) ++ todo) as Hpath' by (by rewrite <- app_assoc).
    unfold feed at 2. cbn [fst snd].
    destruct (N.eqb_spec c SLASH) as [->|Hc].
    + rewrite pn_body_slash by side.
      erewrite pn_slash_spec; [| apply Hinv..| apply Hinv | apply Hsl].
      apply IH; [done |]. destruct Hinv.
      split; unfold set_code; cbn [res lastSegmentLength dots lastSlash code]; try done.
      * by apply collapse_segment_good.
      * by intros ?%elem_of_nil.
      * rewrite str_length_app. change (str_length [SLASH]) with 1.
        change (str_length []) with 0. lia.
      * exists (done ++ [SLASH]). by rewrite app_nil_r.
    + rewrite (pn_body_char _ _ _ _ c) by side.
      apply IH; [done |].
      destruct Hinv as [? ? ? ? Hd Hs [pre Hpre] ?].
      split; unfold set_dots, set_code;
        cbn [res lastSegmentLength dots lastSlash code]; try done.
      * intros [?|?%list_elem_of_singleton]%elem_of_app; done.
      * by rewrite dots_of_snoc, <- Hd.
      * rewrite !str_length_app. change (str_length [c]) with 1. lia.
      * exists pre. by rewrite Hpre, <- app_assoc.
      * cbn [code_is]. destruct (N.eqb_spec c SLASH); done.
Qed.

Lemma split_free sep s : sep ∉ s -> split sep s = [s].
Proof.
  induction s as [|c s IH]; [done |]. intros [Hc Hs]%not_elem_of_cons.
  cbn [split]. destruct (N.eqb_spec c sep); [congruence |]. by rewrite IH.
Qed.

Lemma split_app_sep sep a b :
  sep ∉ a -> split sep (a ++ sep :: b) = a :: split sep b.
Proof.
  induction a as [|c a IH]; cbn [app split].
  - by rewrite N.eqb_refl.
  - intros [Hc Ha]%not_elem_of_cons.
    destruct (N.eqb_spec c sep); [congruence |]. by rewrite IH.
Qed.

Lemma feed_fold allow s : forall acc cur,
  slash_free cur ->
  feed_end allow (fold_left (feed allow) s (acc, cur)) =
  fold_left (collapse_segment allow) (split SLASH (cur ++ s)) acc.
Proof.
  induction s as [|c s IH]; intros acc cur Hcur.
  - rewrite app_nil_r, split_free by done. done.
  - cbn [fold_left]. unfold feed at 2. cbn [fst snd].
    destruct (N.eqb_spec c SLASH) as [->|Hc].
    + rewrite IH by (by intros ?%elem_of_nil).
      by rewrite split_app_sep.
    + rewrite IH.
      * by rewrite <- app_assoc.
      * intros [?|?%list_elem_of_singleton]%elem_of_app; done.
Qed.

Lemma pn_inv_init : pn_inv [] pn_init [] [].
Proof.
  split; try done.
  - by intros ?%elem_of_nil.
  - by exists [].
Qed.

(** The loop of [posixNormalize] computes what section 4.1 of the
    specification describes segment by segment. *)
Lemma posixNormalize_spec path allow :
  posixNormalize path allow = spec_posixNormalize path allow.
Proof.
  unfold posixNormalize, spec_posixNormalize, collapse.
  change 0 with (str_length []).
  rewrite (pn_loop_spec path allow path [] pn_init [] []) by (done || apply pn_inv_init).
  rewrite feed_fold by (by intros ?%elem_of_nil). done.
Qed.

Lemma real_not_dotdot seg : real_segment seg -> seg ≠ js "..".
Proof. by intros (_ & _ & _ & ?). Qed.

Lemma stack_ok_dotdots acc : Forall (eq (js "..")) acc -> stack_ok true acc.
Proof.
  induction 1 as [|x acc <- Hacc IH]; [constructor |]. by apply ok_dotdot.
Qed.

Lemma stack_ok_tail allow top rest : stack_ok allow (top :: rest) -> stack_ok allow rest.
Proof.
  inversion 1 as [|? -> Hdd|]; subst; [| done].
  by apply stack_ok_dotdots.
Qed.

Lemma stack_ok_good allow acc : stack_ok allow acc -> Forall good acc.
Proof.
  induction 1 as [|acc _ Hdd|seg acc (Hne & Hfree & _) _ IH].
  - constructor.
  - constructor; [by split; [| vm_compute; intros ?%list_elem_of_In; simpl in *; intuition lia] |].
    eapply Forall_impl; [exact Hdd |]. intros ? <-.
    split; [done |]. vm_compute. intros ?%list_elem_of_In. simpl in *. intuition lia.
  - by constructor.
Qed.

Lemma collapse_segment_ok allow acc cur :
  stack_ok allow acc -> slash_free cur -> stack_ok allow (collapse_segment allow acc cur).
Proof.
  intros Hacc Hcur. unfold collapse_segment.
  destruct (decide (cur = [])) as [->|Hne]; [by rewrite bool_decide_eq_true_2 |].
  rewrite (bool_decide_eq_false_2 (cur = [])) by done. cbn [orb].
  case_bool_decide as Hd; [done |].
  case_bool_decide as Hdd.
  - subst cur. destruct acc as [|top rest].
    + destruct allow; by constructor.
    + case_bool_decide as Ht; [| by eapply stack_ok_tail].
      destruct allow; [| done]. apply ok_dotdot; [done |]. subst top.
      inversion Hacc as [|? ? Hall|? ? Hreal]; subst; [by constructor |].
      by apply real_not_dotdot in Hreal.
  - by apply ok_real.
Qed.

Lemma fold_collapse_ok allow segs : forall acc,
  stack_ok allow acc -> Forall slash_free segs ->
  stack_ok allow (fold_left (collapse_segment allow) segs acc).
Proof.
  induction segs as [|s segs IH]; intros acc Hacc Hs; [done |].
  apply Forall_cons in Hs as [? ?]. cbn [fold_left].
  apply IH; [| done]. by apply collapse_segment_ok.
Qed.

Lemma split_slash_free sep s : Forall (fun seg => sep ∉ seg) (split sep s).
Proof.
  induction s as [|c s IH]; cbn [split].
  - constructor; [by intros ?%elem_of_nil | constructor].
  - destruct (N.eqb_spec c sep) as [->|Hc].
    + constructor; [by intros ?%elem_of_nil | done].
    + destruct (split sep s) as [|seg segs].
      * constructor; [| constructor]. by intros ->%list_elem_of_singleton.
      * apply Forall_cons in IH as [? ?]. constructor; [| done].
        intros [->|?]%elem_of_cons; done.
Qed.

Lemma collapse_segment_real allow acc seg :
  real_segment seg -> collapse_segment allow acc seg = seg :: acc.
Proof.
  intros (Hne & _ & Hd & Hdd). unfold collapse_segment.
  by rewrite !bool_decide_eq_false_2.
Qed.

Lemma collapse_segment_empty allow acc : collapse_segment allow acc [] = acc.
Proof. unfold collapse_segment. by rewrite bool_decide_eq_true_2. Qed.

Lemma collapse_segment_dot allow acc : collapse_segment allow acc (js ".") = acc.
Proof.
  unfold collapse_segment. rewrite (bool_decide_eq_true_2 (js "." = js ".")) by done.
  by rewrite orb_true_r.
Qed.

Lemma collapse_segment_dotdot allow acc :
  collapse_segment allow acc (js "..") =
  match acc with
  | top :: rest =>
      if bool_decide (top = js "..")
      then (if allow then js ".." :: acc else acc)
      else rest
  | [] => if allow then [js ".."] else []
  end.
Proof.
  unfold collapse_segment. rewrite (bool_decide_eq_true_2 (js ".." = js "..")) by done.
  rewrite !bool_decide_eq_false_2; done.
Qed.

(** Collapsing a result again gives it back. *)
Lemma collapse_fixed allow acc :
  stack_ok allow acc -> fold_left (collapse_segment allow) (rev acc) [] = acc.
Proof.
  induction acc as [|top rest IH]; intros Hok; [done |].
  cbn [rev]. rewrite fold_left_app. cbn [fold_left].
  rewrite IH by (by eapply stack_ok_tail).
  inversion Hok as [|? -> Hdd|? ? Hreal]; subst; [| by apply collapse_segment_real].
  rewrite collapse_segment_dotdot. destruct Hdd as [|? ? <-]; [done |].
  by rewrite bool_decide_eq_true_2.
Qed.

Lemma split_cons_sep sep s : split sep (sep :: s) = [] :: split sep s.
Proof. cbn [split]. by rewrite N.eqb_refl. Qed.

Lemma split_nonempty sep s : split sep s ≠ [].
Proof.
  destruct s as [|c s]; cbn [split]; [done |].
  destruct (c =? sep)%N; [done |]. by destruct (split sep s).
Qed.

Lemma split_app sep a b :
  split sep (a ++ sep :: b) = split sep a ++ split sep b.
Proof.
  induction a as [|c a IH]; cbn [app split].
  - by rewrite N.eqb_refl.
  - destruct (c =? sep)%N; [by rewrite IH |]. rewrite IH.
    pose proof (split_nonempty sep a). by destruct (split sep a).
Qed.

Lemma split_join (segs : list jsstring) :
  segs ≠ [] -> Forall slash_free segs -> split SLASH (join (js "/") segs) = segs.
Proof.
  induction segs as [|x segs IH]; [done |]. intros _ [Hx Hs]%Forall_cons.
  destruct segs as [|y segs]; [by apply split_free |].
  change (join (js "/") (x :: y :: segs)) with (x ++ SLASH :: join (js "/") (y :: segs)).
  rewrite split_app_sep by done. by rewrite IH.
Qed.

Lemma decodeURIComponent_no_percent s :
  PERCENT ∉ s -> decodeURIComponent s = Ok s.
Proof.
  induction s as [|c s IH]; [done |]. intros [Hc Hs]%not_elem_of_cons.
  cbn [decodeURIComponent]. destruct (N.eqb_spec c PERCENT); [done |].
  cbn [negb]. by rewrite IH.
Qed.

Lemma charCodeAt_last (x : jsstring) d :
  charCodeAt (x ++ [d]) (str_length (x ++ [d]) - 1) = Some d.
Proof.
  rewrite str_length_app. change (str_length [d]) with 1.
  replace (str_length x + 1 - 1) with (str_length x) by lia.
  apply charCodeAt_middle.
Qed.

Lemma normalize_finish_nonempty a t body :
  body ≠ [] ->
  normalize_finish a t body =
  (if a then [SLASH] else []) ++ body ++ (if t then [SLASH] else []).
Proof.
  intros Hne. unfold normalize_finish.
  assert (str_length body ≠ 0) by (intros H; by apply str_length_nil_inv in H).
  pose proof (str_length_nonneg body).
  bfalse (str_length body =? 0). cbn [andb]. btrue (str_length body >? 0). cbn [andb].
  destruct a, t; by rewrite ?app_nil_r.
Qed.

Lemma join_head (segs : list jsstring) :
  segs ≠ [] -> Forall good segs ->
  exists c tl, join (js "/") segs = c :: tl ∧ c ≠ SLASH.
Proof.
  destruct segs as [|x segs]; [done |]. intros _ [[Hne Hfree] _]%Forall_cons.
  destruct x as [|c x]; [done |]. apply not_elem_of_cons in Hfree as [? _].
  destruct segs; by eexists _, _.
Qed.

Lemma join_rev_last top rest :
  good top ->
  exists pre d, join (js "/") (rev (top :: rest)) = pre ++ [d] ∧ d ≠ SLASH.
Proof.
  intros [Hne Hfree]. rewrite join_rev_cons.
  destruct (rev top) as [|d top'] eqn:E.
  { apply (f_equal (@rev N)) in E. rewrite rev_involutive in E. done. }
  apply (f_equal (@rev N)) in E. rewrite rev_involutive in E. cbn [rev] in E.
  subst top. eexists (_ ++ rev top'), d. split; [by rewrite app_assoc |].
  intros ->. apply Hfree. apply elem_of_app. right. by apply list_elem_of_singleton.
Qed.

Lemma rev_nonempty {A} (l : list A) : l ≠ [] -> rev l ≠ [].
Proof. intros H E. apply H. by rewrite <- (rev_involutive l), E. Qed.

Lemma split_snoc_sep sep s : split sep (s ++ [sep]) = split sep s ++ [[]].
Proof. by rewrite split_app. Qed.

(** [normalize] leaves its own results alone, unless the result still
    holds a percent sign (which it would decode a second time). *)
Lemma normalize_finish_fixed a t s :
  PERCENT ∉ normalize_finish a t (posixNormalize s (negb a)) ->
  normalize (normalize_finish a t (posixNormalize s (negb a))) =
  Ok (normalize_finish a t (posixNormalize s (negb a))).
Proof.
  rewrite posixNormalize_spec. unfold spec_posixNormalize, collapse.
  assert (stack_ok (negb a) (fold_left (collapse_segment (negb a)) (split SLASH s) []))
    as Hok by (apply fold_collapse_ok; [constructor | apply split_slash_free]).
  destruct (fold_left _ _ _) as [|top rest] eqn:Eacc.
  { intros _. destruct a, t; reflexivity. }
  set (acc := top :: rest) in *.
  assert (acc ≠ []) as Hacc by done.
  pose proof (stack_ok_good _ _ Hok) as Hgood.
  pose proof (join_rev_nonempty acc Hgood Hacc) as Hbody.
  destruct (join_head (rev acc)) as (c & tl & Hhead & Hc);
    [by apply rev_nonempty | by apply Forall_rev |].
  destruct (join_rev_last top rest) as (pre & d & Hlast & Hd);
    [by apply Forall_cons in Hgood as [? _] |].
  fold acc in Hlast.
  set (body := join (js "/") (rev acc)) in *.
  rewrite normalize_finish_nonempty by done.
  set (q := (if a then [SLASH] else []) ++ body ++ (if t then [SLASH] else [])).
  intros Hq. unfold normalize.
  assert (str_length q ≠ 0) as Hql.
  { intros H. apply str_length_nil_inv in H. subst q.
    apply app_eq_nil in H as [_ H]. by apply app_eq_nil in H as [H _]. }
  bfalse (str_length q =? 0).
  rewrite decodeURIComponent_no_percent by done.
  assert (code_is (charCodeAt q 0) SLASH = a) as ->.
  { subst q. destruct a; [done |]. rewrite Hhead. cbn [app charCodeAt].
    change (charCodeAt (c :: tl ++ (if t then [SLASH] else [])) 0) with (Some c).
    cbn [code_is]. by destruct (N.eqb_spec c SLASH). }
  assert (code_is (charCodeAt q (str_length q - 1)) SLASH = t) as ->.
  { subst q. destruct t.
    - rewrite app_assoc, charCodeAt_last. done.
    - rewrite app_nil_r, Hlast, app_assoc, charCodeAt_last. cbn [code_is].
      by destruct (N.eqb_spec d SLASH). }
  f_equal. rewrite posixNormalize_spec. unfold spec_posixNormalize, collapse.
  assert (split SLASH q = (if a then [[]] else []) ++ rev acc ++ (if t then [[]] else []))
    as ->.
  { subst q.
    assert (split SLASH (body ++ (if t then [SLASH] else [])) =
            rev acc ++ (if t then [[]] else [])) as Hs.
    { destruct t.
      - rewrite split_snoc_sep. subst body. rewrite split_join; try done.
        + by apply rev_nonempty.
        + apply Forall_rev. eapply Forall_impl; [exact Hgood |]. by intros ? [? ?].
      - rewrite !app_nil_r. subst body. rewrite split_join; try done.
        + by apply rev_nonempty.
        + apply Forall_rev. eapply Forall_impl; [exact Hgood |]. by intros ? [? ?]. }
    destruct a; cbn [app]; by rewrite ?split_cons_sep, Hs. }
  rewrite !fold_left_app.
  assert (fold_left (collapse_segment (negb a)) (if a then [[]] else []) [] = []) as ->
    by (by destruct a).
  rewrite collapse_fixed by done.
  assert (fold_left (collapse_segment (negb a)) (if t then [[]] else []) acc = acc) as ->
    by (destruct t; [apply collapse_segment_empty | done]).
  fold body. by rewrite normalize_finish_nonempty.
Qed.

(** C6, as amended: [normalize(normalize(p)) == normalize(p)] for every
    path [p] on which [normalize] returns a result [q] without a percent
    sign. (A percent sign left in [q] is decoded again by the second call.) *)
Theorem normalize_idempotent_no_percent p q :
  normalize p = Ok q -> PERCENT ∉ q -> normalize q = Ok q.
Proof.
  unfold normalize at 1. destruct (str_length p =? 0).
  { intros [= <-] _. reflexivity. }
  destruct (decodeURIComponent p) as [d|]; [| done].
  intros [= <-]. apply normalize_finish_fixed.
Qed.

Lemma charCodeAt_0_app (x y : jsstring) :
  x ≠ [] -> charCodeAt (x ++ y) 0 = charCodeAt x 0.
Proof. by destruct x. Qed.

Lemma charCodeAt_last_app (x y : jsstring) :
  y ≠ [] ->
  charCodeAt (x ++ y) (str_length (x ++ y) - 1) = charCodeAt y (str_length y - 1).
Proof.
  intros Hy. rewrite str_length_app.
  assert (str_length y ≠ 0) by (intros H; by apply str_length_nil_inv in H).
  pose proof (str_length_nonneg y).
  replace (str_length x + str_length y - 1) with (str_length x + (str_length y - 1)) by lia.
  apply charCodeAt_app_r. lia.
Qed.

(** [normalize] on a path without percent signs. *)
Lemma normalize_no_percent p :
  p ≠ [] -> PERCENT ∉ p ->
  normalize p =
  Ok (normalize_finish (code_is (charCodeAt p 0) SLASH)
        (code_is (charCodeAt p (str_length p - 1)) SLASH)
        (spec_posixNormalize p (negb (code_is (charCodeAt p 0) SLASH)))).
Proof.
  intros Hne Hp. unfold normalize.
  assert (str_length p ≠ 0) by (intros H; by apply str_length_nil_inv in H).
  bfalse (str_length p =? 0).
  by rewrite decodeURIComponent_no_percent, posixNormalize_spec.
Qed.

Lemma normalize_decoded p d :
  p ≠ [] -> decodeURIComponent p = Ok d ->
  normalize p =
  Ok (normalize_finish (code_is (charCodeAt p 0) SLASH)
        (code_is (charCodeAt p (str_length p - 1)) SLASH)
        (spec_posixNormalize d (negb (code_is (charCodeAt p 0) SLASH)))).
Proof.
  intros Hne Hd. unfold normalize.
  assert (str_length p ≠ 0) by (intros H; by apply str_length_nil_inv in H).
  bfalse (str_length p =? 0).
  by rewrite Hd, posixNormalize_spec.
Qed.

Lemma not_elem_of_app3 (c : N) (x y z : jsstring) :
  c ∉ x ++ y ++ z <-> (c ∉ x) ∧ (c ∉ y) ∧ (c ∉ z).
Proof. rewrite !not_elem_of_app. tauto. Qed.

Ltac not_in :=
  repeat (rewrite not_elem_of_app || rewrite not_elem_of_cons);
  repeat split; try done; by apply not_elem_of_nil.

Lemma collapse_real_dotdot pre seg b :
  real_segment seg -> PERCENT ∉ pre ++ seg ++ b ->
  normalize (pre ++ js "/" ++ seg ++ js "/../" ++ b) = normalize (pre ++ js "/" ++ b).
Proof.
  intros Hseg (Hpre & Hs & Hb)%not_elem_of_app3.
  assert (js "/../" = [SLASH; DOT; DOT; SLASH]) as -> by done.
  rewrite js_slash. cbn [app].
  rewrite (normalize_no_percent (pre ++ SLASH :: b));
    [| by destruct pre | by not_in].
  rewrite normalize_no_percent; [| by destruct pre | by not_in].
  assert (forall x, charCodeAt (pre ++ SLASH :: x) 0 = charCodeAt (pre ++ [SLASH]) 0) as H0.
  { intros x. change (SLASH :: x) with ([SLASH] ++ x). rewrite app_assoc.
    apply charCodeAt_0_app. by destruct pre. }
  rewrite (H0 b), (H0 (seg ++ _)).
  assert (forall x y : jsstring, charCodeAt (x ++ SLASH :: y) (str_length (x ++ SLASH :: y) - 1)
                      = charCodeAt (SLASH :: y) (str_length (SLASH :: y) - 1)) as H1.
  { intros x y. by apply charCodeAt_last_app. }
  rewrite (H1 pre b).
  replace (pre ++ SLASH :: seg ++ SLASH :: DOT :: DOT :: SLASH :: b)
    with ((pre ++ SLASH :: seg ++ SLASH :: [DOT; DOT]) ++ SLASH :: b)
    by (repeat (rewrite <- app_assoc; cbn [app]); done).
  rewrite H1. do 2 f_equal.
  unfold spec_posixNormalize, collapse. do 2 f_equal.
  rewrite <- !app_assoc. cbn [app].
  pose proof Hseg as (? & Hfree & ? & ?).
  rewrite !split_app, !fold_left_app.
  replace (split SLASH seg) with [seg] by (by rewrite split_free).
  change (split SLASH [DOT; DOT]) with [js ".."]. cbn [fold_left].
  rewrite (collapse_segment_real _ _ seg) by done.
  rewrite collapse_segment_dotdot. by rewrite bool_decide_eq_false_2.
Qed.

Lemma split_finish a t acc :
  acc ≠ [] -> Forall good acc ->
  split SLASH (normalize_finish a t (join (js "/") (rev acc))) =
  (if a then [[]] else []) ++ rev acc ++ (if t then [[]] else []).
Proof.
  intros Hacc Hgood.
  rewrite normalize_finish_nonempty by (by apply join_rev_nonempty).
  assert (split SLASH (join (js "/") (rev acc) ++ (if t then [SLASH] else [])) =
          rev acc ++ (if t then [[]] else [])) as Hs.
  { assert (split SLASH (join (js "/") (rev acc)) = rev acc) as Hj.
    { apply split_join; [by apply rev_nonempty |].
      apply Forall_rev. eapply Forall_impl; [exact Hgood |]. by intros ? [? ?]. }
    destruct t; [by rewrite split_snoc_sep, Hj | by rewrite !app_nil_r]. }
  destruct a; cbn [app]; by rewrite ?split_cons_sep, Hs.
Qed.

Lemma stack_ok_false_no_dotdot acc : stack_ok false acc -> js ".." ∉ acc.
Proof.
  induction 1 as [| |seg acc Hreal _ IH]; [by apply not_elem_of_nil | done |].
  apply not_elem_of_cons. split; [| done].
  intros E. by apply (real_not_dotdot seg).
Qed.

Arguments normalize_finish : simpl never.

Lemma absolute_no_dotdot p q :
  code_is (charCodeAt p 0) SLASH = true -> normalize p = Ok q ->
  js ".." ∉ split SLASH q.
Proof.
  intros Habs. unfold normalize. destruct (str_length p =? 0) eqn:E.
  { apply Z.eqb_eq, str_length_nil_inv in E. by subst p. }
  rewrite Habs. generalize (code_is (charCodeAt p (str_length p - 1)) SLASH) as t.
  intros t. destruct (decodeURIComponent p) as [d|]; [| done].
  intros [= <-]. rewrite posixNormalize_spec. unfold spec_posixNormalize, collapse.
  assert (stack_ok false (fold_left (collapse_segment false) (split SLASH d) []))
    as Hok by (apply fold_collapse_ok; [constructor | apply split_slash_free]).
  destruct (fold_left _ _ _) as [|top rest] eqn:Eacc.
  { destruct t; vm_compute; intros H%list_elem_of_In; simpl in H;
      intuition discriminate. }
  rewrite split_finish; [| done | by eapply stack_ok_good].
  apply stack_ok_false_no_dotdot in Hok.
  rewrite !not_elem_of_app. repeat split.
  - apply not_elem_of_cons. split; [done | apply not_elem_of_nil].
  - intros H%list_elem_of_In. apply Hok, list_elem_of_In, in_rev. exact H.
  - destruct t; [| apply not_elem_of_nil].
    apply not_elem_of_cons. split; [done | apply not_elem_of_nil].
Qed.

Lemma dotdot_bottom segs : forall acc,
  exists acc', fold_left (collapse_segment true) segs (acc ++ [js ".."]) = acc' ++ [js ".."].
Proof.
  induction segs as [|seg segs IH]; intros acc; [by exists acc |].
  cbn [fold_left].
  assert (exists acc', collapse_segment true (acc ++ [js ".."]) seg = acc' ++ [js ".."])
    as [acc' ->]; [| apply IH].
  unfold collapse_segment.
  destruct (bool_decide (seg = []) || bool_decide (seg = js ".")); [by exists acc |].
  case_bool_decide; [| by exists (seg :: acc)].
  destruct acc as [|top acc]; cbn [app].
  - rewrite bool_decide_eq_true_2 by done. by exists [seg].
  - case_bool_decide; [by exists (seg :: top :: acc) | by exists acc].
Qed.

Lemma relative_dotdot_kept b :
  PERCENT ∉ b -> exists r, normalize (js "../" ++ b) = Ok (js ".." ++ r).
Proof.
  intros Hb. assert (js "../" = [DOT; DOT; SLASH]) as -> by done.
  rewrite normalize_no_percent; [| done | by not_in].
  change (code_is (charCodeAt ([DOT; DOT; SLASH] ++ b) 0) SLASH) with false.
  generalize (code_is (charCodeAt ([DOT; DOT; SLASH] ++ b)
                         (str_length ([DOT; DOT; SLASH] ++ b) - 1)) SLASH) as t.
  intros t. unfold spec_posixNormalize, collapse. change (negb false) with true.
  change ([DOT; DOT; SLASH] ++ b) with ([DOT; DOT] ++ SLASH :: b).
  rewrite split_app, fold_left_app.
  change (fold_left (collapse_segment true) (split SLASH [DOT; DOT]) [])
    with ([] ++ [js ".."]).
  destruct (dotdot_bottom (split SLASH b) []) as [acc' ->].
  rewrite rev_app_distr. cbn [rev app].
  assert (exists r, join (js "/") (js ".." :: rev acc') = js ".." ++ r) as [r Hr].
  { destruct (rev acc'); [by exists [] | by eexists]. }
  rewrite normalize_finish_nonempty by (by rewrite Hr).
  rewrite Hr. cbn [app]. rewrite <- app_assoc. by eexists.
Qed.

Lemma absolute_dotdot_dropped b :
  PERCENT ∉ b -> normalize (js "/../" ++ b) = normalize (js "/" ++ b).
Proof.
  intros Hb. assert (js "/../" = [SLASH; DOT; DOT; SLASH]) as -> by done.
  rewrite js_slash.
  rewrite !normalize_no_percent; [| done | by not_in | done | by not_in].
  change (code_is (charCodeAt ([SLASH; DOT; DOT; SLASH] ++ b) 0) SLASH) with true.
  change (code_is (charCodeAt ([SLASH] ++ b) 0) SLASH) with true.
  change ([SLASH; DOT; DOT; SLASH] ++ b) with ([SLASH; DOT; DOT] ++ [SLASH] ++ b).
  rewrite (charCodeAt_last_app [SLASH; DOT; DOT]) by done.
  do 2 f_equal.
Qed.

Lemma not_elem_of_forallb (c : N) (s : jsstring) :
  forallb (fun x => negb (N.eqb x c)) s = true -> c ∉ s.
Proof.
  induction s as [|x s IH]; cbn [forallb]; [intros _; apply not_elem_of_nil |].
  intros [Hx Hs]%andb_prop. apply not_elem_of_cons. split; [| by apply IH].
  intros ->. by rewrite N.eqb_refl in Hx.
Qed.

Lemma normalize_idempotent_witness :
  normalize (js "/a/b/../c") = Ok (js "/a/c") ∧ (PERCENT ∉ js "/a/c") ∧
  normalize (js "/a/c") = Ok (js "/a/c").
Proof.
  assert (normalize (js "/a/b/../c") = Ok (js "/a/c")) as H1 by reflexivity.
  assert (PERCENT ∉ js "/a/c") as H2 by (by apply not_elem_of_forallb).
  exact (conj H1 (conj H2 (normalize_idempotent_no_percent _ _ H1 H2))).
Defined.

(** C6 fails as stated: [normalize] decodes percent-escapes on every call,
    so a path whose result still holds an escape is changed by a second
    call: [%2541] gives [%41], and [%41] gives [A]. *)
Lemma normalize_twice_differs :
  normalize (js "%2541") = Ok (js "%41") ∧
  normalize (js "%41") = Ok (js "A") ∧
  js "A" ≠ js "%41".
Proof. split; [reflexivity | split; [reflexivity | discriminate]]. Qed.

(** C1 (the code does otherwise): a malformed percent-escape is not ignored.
    The [try] of [normalize] has a [finally] and no [catch], so the URIError
    of [decodeURIComponent] leaves [normalize]: for the lone percent sign,
    and for every path whose decoding throws. *)
Theorem normalize_malformed_escape_throws :
  normalize (js "%") = Throw URIError ∧
  (forall p e, decodeURIComponent p = Throw e -> normalize p = Throw e).
Proof.
  split; [reflexivity |]. intros p e He. unfold normalize.
  destruct p as [|c p]; [done |]. by rewrite He.
Qed.

(** C8: [normalize] collapses [..] against the real segment before it; a
    leading [..] is kept for a relative path and dropped for an absolute
    one, whose result never holds a [..] segment. In general the result is
    built from the segments of the decoded path as [collapse] keeps them,
    going above the root being allowed for a relative path only. *)
Theorem normalize_dotdot :
  normalize (js "/a/b/../c") = Ok (js "/a/c") ∧
  normalize (js "a/b/../../c") = Ok (js "c") ∧
  normalize (js "../a") = Ok (js "../a") ∧
  normalize (js "/../a") = Ok (js "/a") ∧
  (forall pre seg b, real_segment seg -> PERCENT ∉ pre ++ seg ++ b ->
     normalize (pre ++ js "/" ++ seg ++ js "/../" ++ b)
     = normalize (pre ++ js "/" ++ b)) ∧
  (forall b, PERCENT ∉ b -> exists r, normalize (js "../" ++ b) = Ok (js ".." ++ r)) ∧
  (forall b, PERCENT ∉ b -> normalize (js "/../" ++ b) = normalize (js "/" ++ b)) ∧
  (forall p q, code_is (charCodeAt p 0) SLASH = true -> normalize p = Ok q ->
     js ".." ∉ split SLASH q) ∧
  (forall p d, p ≠ [] -> decodeURIComponent p = Ok d ->
     let isAbsolute := code_is (charCodeAt p 0) SLASH in
     let trailingSeparator := code_is (charCodeAt p (str_length p - 1)) SLASH in
     normalize p =
     Ok (normalize_finish isAbsolute trailingSeparator
           (join (js "/") (collapse (negb isAbsolute) (split SLASH d))))).
Proof.
  repeat split; try reflexivity.
  - apply collapse_real_dotdot.
  - apply relative_dotdot_kept.
  - apply absolute_dotdot_dropped.
  - apply absolute_no_dotdot.
  - intros p d Hne Hd. cbv zeta. by rewrite (normalize_decoded p d).
Qed.

Lemma normalize_dotdot_witness :
  real_segment (js "b") ∧ (PERCENT ∉ js "/a" ++ js "b" ++ js "c") ∧
  normalize (js "/a" ++ js "/" ++ js "b" ++ js "/../" ++ js "c")
  = normalize (js "/a" ++ js "/" ++ js "c").
Proof.
  assert (real_segment (js "b")) as H1.
  { repeat split; try discriminate. by apply not_elem_of_forallb. }
  assert (PERCENT ∉ js "/a" ++ js "b" ++ js "c") as H2
    by (by apply not_elem_of_forallb).
  exact (conj H1 (conj H2
    (proj1 (proj2 (proj2 (proj2 (proj2 normalize_dotdot)))) _ _ _ H1 H2))).
Defined.

(** ** The pointer codec *)

Section Codec.
Local Open Scope N_scope.
Ltac Zify.zify_post_hook ::= Z.to_euclidean_division_equations.
Ltac nb_true t := let H := fresh in assert (t = true) as H by lia; rewrite H; clear H.
Ltac nb_false t := let H := fresh in assert (t = false) as H by lia; rewrite H; clear H.

Lemma hex_value_digit n : n < 16 -> hex_value (hex_digit n) = Some n.
Proof.
  intros Hn. unfold hex_value, hex_digit.
  destruct (N.ltb_spec n 10).
  - nb_true ((48 <=? 48 + n) && (48 + n <=? 57))%N. f_equal. lia.
  - nb_false ((48 <=? 55 + n) && (55 + n <=? 57))%N.
    nb_true ((65 <=? 55 + n) && (55 + n <=? 70))%N. f_equal. lia.
Qed.

Lemma escape_octet_percent b :
  b < 256 -> escape_octet PERCENT (hex_digit (b / 16)) (hex_digit (b mod 16)) = Some b.
Proof.
  intros Hb. unfold escape_octet. rewrite N.eqb_refl.
  rewrite !hex_value_digit by lia. f_equal. lia.
Qed.

(** Unfolding [decodeURIComponent] on an escape sequence. *)
Lemma decode_escape1 x y b0 s :
  escape_octet PERCENT x y = Some b0 -> b0 < 128 ->
  decodeURIComponent (PERCENT :: x :: y :: s) = rmap (cons b0) (decodeURIComponent s).
Proof.
  intros H0 Hb. cbn [decodeURIComponent]. rewrite N.eqb_refl. cbn [negb].
  rewrite H0. by nb_true (b0 <? 128).
Qed.

Lemma decode_escape2 x y x1 y1 b0 b1 v s :
  escape_octet PERCENT x y = Some b0 -> 192 <= b0 < 224 ->
  escape_octet PERCENT x1 y1 = Some b1 -> utf8_decode2 b0 b1 = Some v ->
  decodeURIComponent (PERCENT :: x :: y :: PERCENT :: x1 :: y1 :: s) =
  rmap (app (utf16_encode v)) (decodeURIComponent s).
Proof.
  intros H0 Hb H1 Hv. cbn [decodeURIComponent]. rewrite N.eqb_refl. cbn [negb].
  rewrite H0. nb_false (b0 <? 128). nb_false (b0 <? 192). nb_true (b0 <? 224).
  rewrite H1. cbn [mbind option_bind]. rewrite Hv. done.
Qed.

Lemma decode_escape3 x y x1 y1 x2 y2 b0 b1 b2 v s :
  escape_octet PERCENT x y = Some b0 -> 224 <= b0 < 240 ->
  escape_octet PERCENT x1 y1 = Some b1 -> escape_octet PERCENT x2 y2 = Some b2 ->
  utf8_decode3 b0 b1 b2 = Some v ->
  decodeURIComponent
    (PERCENT :: x :: y :: PERCENT :: x1 :: y1 :: PERCENT :: x2 :: y2 :: s) =
  rmap (app (utf16_encode v)) (decodeURIComponent s).
Proof.
  intros H0 Hb H1 H2 Hv. cbn [decodeURIComponent]. rewrite N.eqb_refl. cbn [negb].
  rewrite H0. nb_false (b0 <? 128). nb_false (b0 <? 192). nb_false (b0 <? 224).
  nb_true (b0 <? 240).
  rewrite H1, H2. cbn [mbind option_bind]. rewrite Hv. done.
Qed.

Lemma decode_escape4 x y x1 y1 x2 y2 x3 y3 b0 b1 b2 b3 v s :
  escape_octet PERCENT x y = Some b0 -> 240 <= b0 < 248 ->
  escape_octet PERCENT x1 y1 = Some b1 -> escape_octet PERCENT x2 y2 = Some b2 ->
  escape_octet PERCENT x3 y3 = Some b3 ->
  utf8_decode4 b0 b1 b2 b3 = Some v ->
  decodeURIComponent
    (PERCENT :: x :: y :: PERCENT :: x1 :: y1 :: PERCENT :: x2 :: y2
       :: PERCENT :: x3 :: y3 :: s) =
  rmap (app (utf16_encode v)) (decodeURIComponent s).
Proof.
  intros H0 Hb H1 H2 H3 Hv. cbn [decodeURIComponent]. rewrite N.eqb_refl. cbn [negb].
  rewrite H0. nb_false (b0 <? 128). nb_false (b0 <? 192). nb_false (b0 <? 224).
  nb_false (b0 <? 240). nb_true (b0 <? 248).
  rewrite H1, H2, H3. cbn [mbind option_bind]. rewrite Hv. done.
Qed.

Lemma continuation_payload r : r < 64 -> continuation (128 + r) = Some r.
Proof.
  intros Hr. unfold continuation. nb_true ((128 <=? 128 + r) && (128 + r <? 192)).
  f_equal. lia.
Qed.

(** Decoding the escapes of a code point gives the code point back. *)
Lemma decode_encode_code_point cp s :
  scalar_value cp ->
  decodeURIComponent (percent_octets (utf8_encode cp) ++ s) =
  rmap (app (utf16_encode cp)) (decodeURIComponent s).
Proof.
  intros [Hmax Hsur]. unfold utf8_encode.
  destruct (N.ltb_spec cp 128); [| destruct (N.ltb_spec cp 2048); [| destruct (N.ltb_spec cp 65536)]];
    cbn [percent_octets flat_map percent_octet app].
  - rewrite (decode_escape1 _ _ cp); [| apply escape_octet_percent; lia | lia].
    unfold utf16_encode. by nb_true (cp <? 65536).
  - erewrite decode_escape2; [done | apply escape_octet_percent; lia | lia
                              | apply escape_octet_percent; lia |].
    unfold utf8_decode2. rewrite continuation_payload by lia. cbn [mbind option_bind].
    nb_true (128 <=? (192 + cp / 64 - 192) * 64 + cp mod 64). f_equal. lia.
  - erewrite decode_escape3; [done | apply escape_octet_percent; lia | lia
                              | apply escape_octet_percent; lia
                              | apply escape_octet_percent; lia |].
    unfold utf8_decode3. rewrite !continuation_payload by lia. cbn [mbind option_bind].
    replace ((224 + cp / 4096 - 224) * 4096 + (cp / 64) mod 64 * 64 + cp mod 64)
      with cp by lia.
    by nb_true ((2048 <=? cp) && negb ((55296 <=? cp) && (cp <? 57344))).
  - erewrite decode_escape4; [done | apply escape_octet_percent; lia | lia
                              | apply escape_octet_percent; lia
                              | apply escape_octet_percent; lia
                              | apply escape_octet_percent; lia |].
    unfold utf8_decode4. rewrite !continuation_payload by lia. cbn [mbind option_bind].
    replace ((240 + cp / 262144 - 240) * 262144 + (cp / 4096) mod 64 * 4096
             + (cp / 64) mod 64 * 64 + cp mod 64) with cp by lia.
    by nb_true ((65536 <=? cp) && (cp <? 1114112)).
Qed.

Lemma well_formed_ind (P : jsstring -> Prop) :
  P [] ->
  (forall c s, is_high_surrogate c = false -> is_low_surrogate c = false ->
               c < 65536 -> well_formed s = true -> P s -> P (c :: s)) ->
  (forall hi lo s, is_high_surrogate hi = true -> is_low_surrogate lo = true ->
                   well_formed s = true -> P s -> P (hi :: lo :: s)) ->
  forall s, well_formed s = true -> P s.
Proof.
  intros Hnil Hone Htwo s.
  enough ((well_formed s = true -> P s) ∧
          (forall c, well_formed (c :: s) = true -> P (c :: s))) as [? _]; [done |].
  induction s as [|x s [IH1 IH2]].
  - split; [done |]. intros c. cbn [well_formed].
    destruct (is_high_surrogate c) eqn:Eh; [done |].
    intros [[Hl Hc]%andb_prop _]%andb_prop.
    apply Hone; try done; [by apply negb_true_iff | lia].
  - split; [apply IH2 |]. intros c. cbn [well_formed].
    destruct (is_high_surrogate c) eqn:Eh.
    + intros [Hl Hs]%andb_prop. by apply Htwo; auto.
    + intros [[Hl Hc]%andb_prop Hs]%andb_prop.
      apply Hone; try done; [by apply negb_true_iff | lia | by apply IH2].
Qed.

Lemma escape_token_cons c t :
  escape_token (c :: t) =
  (if N.eqb c TILDE then [TILDE; 48] else if N.eqb c SLASH then [TILDE; 49] else [c])
  ++ escape_token t.
Proof.
  unfold escape_token, replace_unit. cbn [flat_map].
  destruct (N.eqb_spec c TILDE) as [->|Ht]; [by rewrite flat_map_app |].
  rewrite flat_map_app. cbn [flat_map].
  by destruct (N.eqb_spec c SLASH) as [->|Hs].
Qed.

Lemma replace_pair_cons_ne a b by_ x s :
  x ≠ a -> replace_pair a b by_ (x :: s) = x :: replace_pair a b by_ s.
Proof.
  intros Hx. cbn [replace_pair]. destruct s as [|y s]; [done |].
  by destruct (N.eqb_spec x a).
Qed.

Lemma replace_pair_hit a b by_ s :
  replace_pair a b by_ (a :: b :: s) = by_ ++ replace_pair a b by_ s.
Proof. cbn [replace_pair]. by rewrite !N.eqb_refl. Qed.

Lemma replace_pair_miss a b by_ y s :
  y ≠ b -> replace_pair a b by_ (a :: y :: s) = a :: replace_pair a b by_ (y :: s).
Proof.
  intros Hy. cbn [replace_pair]. rewrite N.eqb_refl.
  by destruct (N.eqb_spec y b).
Qed.

Lemma replace_pair_app_free a b by_ x s :
  a ∉ x -> replace_pair a b by_ (x ++ s) = x ++ replace_pair a b by_ s.
Proof.
  induction x as [|c x IH]; [done |]. intros [Hc Hx]%not_elem_of_cons.
  cbn [app]. rewrite replace_pair_cons_ne by done. by rewrite IH.
Qed.

Lemma hex_digit_unit n : n < 16 -> escape_unit (hex_digit n).
Proof. intros Hn. unfold escape_unit, hex_digit. destruct (N.ltb_spec n 10); lia. Qed.

Lemma percent_octet_units b : b < 256 -> Forall escape_unit (percent_octet b).
Proof.
  intros Hb. unfold percent_octet.
  apply Forall_cons_2; [by left |].
  apply Forall_cons_2; [apply hex_digit_unit; lia |].
  apply Forall_cons_2; [apply hex_digit_unit; lia | constructor].
Qed.

Lemma utf8_encode_octets cp : cp < 1114112 -> Forall (fun b => b < 256) (utf8_encode cp).
Proof.
  intros Hcp. unfold utf8_encode.
  destruct (N.ltb_spec cp 128); [| destruct (N.ltb_spec cp 2048); [| destruct (N.ltb_spec cp 65536)]];
    repeat constructor; lia.
Qed.

Lemma percent_octets_units cp :
  cp < 1114112 -> Forall escape_unit (percent_octets (utf8_encode cp)).
Proof.
  intros Hcp%utf8_encode_octets. unfold percent_octets.
  induction Hcp as [|b bs Hb _ IH]; [constructor |].
  cbn [flat_map]. apply Forall_app. split; [by apply percent_octet_units | done].
Qed.

Lemma escape_units_free (c : N) (e : jsstring) :
  ¬ escape_unit c -> Forall escape_unit e -> c ∉ e.
Proof.
  intros Hc He Hin. rewrite Forall_forall in He. by apply Hc, He.
Qed.

Lemma utf16_encode_pair hi lo :
  is_high_surrogate hi = true -> is_low_surrogate lo = true ->
  utf16_encode (pair_code_point hi lo) = [hi; lo] ∧ scalar_value (pair_code_point hi lo).
Proof.
  unfold is_high_surrogate, is_low_surrogate, in_range, pair_code_point, utf16_encode,
    scalar_value.
  intros Hh Hl. split; [| lia].
  nb_false ((hi - 55296) * 1024 + (lo - 56320) + 65536 <? 65536).
  f_equal; [| f_equal]; lia.
Qed.

Lemma unescaped_not_percent c : unescaped c = true -> c ≠ PERCENT.
Proof. by intros H ->. Qed.

Lemma unescaped_not_slash c : unescaped c = true -> c ≠ SLASH.
Proof. by intros H ->. Qed.

Lemma decode_plain c s :
  c ≠ PERCENT -> decodeURIComponent (c :: s) = rmap (cons c) (decodeURIComponent s).
Proof. intros Hc. cbn [decodeURIComponent]. by destruct (N.eqb_spec c PERCENT). Qed.

Lemma surrogate_not_unescaped c :
  is_high_surrogate c = true ∨ is_low_surrogate c = true -> unescaped c = false.
Proof.
  unfold is_high_surrogate, is_low_surrogate, unescaped, in_range. intros H.
  repeat (apply orb_false_intro); lia.
Qed.

Lemma token_roundtrip t :
  well_formed t = true ->
  exists e, encodeURIComponent (escape_token t) = Ok e ∧ (SLASH ∉ e) ∧
            decodeURIComponent (unescape_token e) = Ok t.
Proof.
  revert t. apply well_formed_ind.
  - exists []. repeat split; [apply not_elem_of_nil].
  - intros c s Hh Hl Hc _ (e & He & Hfree & Hd). rewrite escape_token_cons.
    unfold unescape_token in *.
    destruct (N.eqb_spec c TILDE) as [->|Ht]; [| destruct (N.eqb_spec c SLASH) as [->|Hs]].
    + exists (TILDE :: 48 :: e). cbn [app encodeURIComponent].
      change (unescaped TILDE) with true. change (unescaped 48) with true. cbv iota.
      rewrite He. repeat split; [by not_in |].
      rewrite replace_pair_miss, (replace_pair_cons_ne _ _ _ 48) by done.
      rewrite replace_pair_hit.
      change (js "~" ++ ?r) with (TILDE :: r).
      rewrite decode_plain by done. by rewrite Hd.
    + exists (TILDE :: 49 :: e). cbn [app encodeURIComponent].
      change (unescaped TILDE) with true. change (unescaped 49) with true. cbv iota.
      rewrite He. repeat split; [by not_in |].
      rewrite replace_pair_hit.
      change (js "/" ++ ?r) with (SLASH :: r).
      rewrite replace_pair_cons_ne by done.
      rewrite decode_plain by done. by rewrite Hd.
    + cbn [app encodeURIComponent]. destruct (unescaped c) eqn:Eu.
      * exists (c :: e). rewrite He. repeat split; [by not_in |].
        rewrite !replace_pair_cons_ne by done.
        rewrite decode_plain by (by apply unescaped_not_percent). by rewrite Hd.
      * rewrite Hh, Hl, He.
        assert (scalar_value c) as Hsv.
        { unfold scalar_value, is_high_surrogate, is_low_surrogate, in_range in *. lia. }
        pose proof (percent_octets_units c (proj1 Hsv)) as Hu.
        exists (percent_octets (utf8_encode c) ++ e). repeat split.
        -- apply not_elem_of_app. split; [| done].
           apply escape_units_free; [| done]. unfold escape_unit, SLASH, PERCENT. lia.
        -- assert (TILDE ∉ percent_octets (utf8_encode c)) as Hti.
           { apply escape_units_free; [| done]. unfold escape_unit, TILDE, PERCENT. lia. }
           rewrite !replace_pair_app_free by done.
           rewrite decode_encode_code_point by done. rewrite Hd.
           unfold utf16_encode. by nb_true (c <? 65536).
  - intros hi lo s Hh Hl _ (e & He & Hfree & Hd).
    rewrite !escape_token_cons. unfold unescape_token in *.
    assert (hi ≠ TILDE ∧ hi ≠ SLASH ∧ lo ≠ TILDE ∧ lo ≠ SLASH) as (? & ? & ? & ?).
    { unfold is_high_surrogate, is_low_surrogate, in_range, TILDE, SLASH in *. lia. }
    destruct (N.eqb_spec hi TILDE); [done |]. destruct (N.eqb_spec hi SLASH); [done |].
    destruct (N.eqb_spec lo TILDE); [done |]. destruct (N.eqb_spec lo SLASH); [done |].
    cbn [app encodeURIComponent].
    rewrite (surrogate_not_unescaped hi) by (by left). rewrite Hh, Hl, He.
    destruct (utf16_encode_pair hi lo Hh Hl) as [Hpair Hsv].
    pose proof (percent_octets_units _ (proj1 Hsv)) as Hu.
    exists (percent_octets (utf8_encode (pair_code_point hi lo)) ++ e). repeat split.
    + apply not_elem_of_app. split; [| done].
      apply escape_units_free; [| done]. unfold escape_unit, SLASH, PERCENT. lia.
    + assert (TILDE ∉ percent_octets (utf8_encode (pair_code_point hi lo))) as Hti.
      { apply escape_units_free; [| done]. unfold escape_unit, TILDE, PERCENT. lia. }
      rewrite !replace_pair_app_free by done.
      rewrite decode_encode_code_point by done. by rewrite Hd, Hpair.
Qed.
End Codec.

Lemma tokens_roundtrip (t : list jsstring) :
  Forall (fun s => well_formed s = true) t ->
  exists es,
    map_result (fun i => encodeURIComponent
                           (replace_unit SLASH (js "~1")
                              (replace_unit TILDE (js "~0") (String_of i))))
      (map KStr t) = Ok es ∧
    Forall slash_free es ∧ length es = length t ∧
    map_result (fun i => decodeURIComponent
                           (replace_pair TILDE 48 (js "~")
                              (replace_pair TILDE 49 (js "/") i))) es = Ok t.
Proof.
  induction 1 as [|s t Hs _ (es & Hes & Hfree & Hlen & Hd)].
  - by exists [].
  - destruct (token_roundtrip s Hs) as (e & He & Hf & Hde).
    exists (e :: es). cbn [map map_result String_of length].
    unfold escape_token in He. unfold unescape_token in Hde.
    rewrite He, Hes, Hde, Hd. repeat split; [by constructor | by rewrite Hlen].
Qed.

Lemma pointer_roundtrip (t : list jsstring) :
  Forall (fun s => well_formed s = true) t ->
  exists p, buildPointer (map KStr t) = Ok p ∧ parsePointer p = Ok t.
Proof.
  intros Ht. destruct t as [|s t]; [by exists [] |].
  destruct (tokens_roundtrip _ Ht) as (es & Hes & Hfree & Hlen & Hd).
  unfold buildPointer. rewrite length_map. cbn [length Nat.eqb].
  rewrite Hes. eexists; split; [done |].
  change (js "/" ++ ?r) with (SLASH :: r). unfold parsePointer.
  rewrite split_cons_sep, split_join; [| by destruct es | done].
  cbn [map_result]. by rewrite Hd.
Qed.




(** ** References *)

Lemma ref_parts_no_hash a base : HASH ∉ a -> ref_parts a base = (a, None).
Proof. intros Ha. unfold ref_parts. by rewrite split_free. Qed.

Lemma ref_parts_one_hash a b base :
  HASH ∉ a -> HASH ∉ b -> ref_parts (a ++ HASH :: b) base = (a, Some b).
Proof.
  intros Ha Hb. unfold ref_parts. by rewrite split_app_sep, (split_free _ b).
Qed.

Lemma ref_parts_more_hashes a b rest base :
  HASH ∉ a -> HASH ∉ b ->
  ref_parts (a ++ HASH :: b ++ HASH :: rest) base = (a, Some b).
Proof.
  intros Ha Hb. unfold ref_parts. by rewrite !split_app_sep.
Qed.

Lemma ref_parts_fragment_only rest base :
  ref_parts (HASH :: rest) base = ([], nth_error (split HASH rest) 0).
Proof. unfold ref_parts. by rewrite split_cons_sep. Qed.

Lemma relativePath_empty base :
  base ≠ [] -> relativePath [] (Some base) = normalize base.
Proof. by destruct base. Qed.

Section ReferenceProperties.
Variable URL_href : jsstring -> result jsstring.

(** C4, as amended: [parseRef] splits the reference on every [#] and binds
    the first two parts. The source path is the text before the first [#]
    (it stays empty when that text is empty), the raw pointer fragment is
    the text between the first and the second [#], or up to the end when
    there is no second one, and what follows a second [#] is dropped. *)
Theorem parseRef_two_parts (a b rest base : jsstring) :
  HASH ∉ a -> HASH ∉ b ->
  ref_parts a base = (a, None) ∧
  ref_parts (a ++ HASH :: b) base = (a, Some b) ∧
  ref_parts (a ++ HASH :: b ++ HASH :: rest) base = (a, Some b) ∧
  parseRef URL_href (a ++ HASH :: b ++ HASH :: rest) (Some base)
  = parseRef URL_href (a ++ HASH :: b) (Some base) ∧
  (forall r, parseRef URL_href (a ++ HASH :: b) (Some base) = Ok r ->
     pointer r = if bool_decide (b = []) || bool_decide (b = js "/") then [] else b).
Proof.
  intros Ha Hb. repeat split.
  - by apply ref_parts_no_hash.
  - by apply ref_parts_one_hash.
  - by apply ref_parts_more_hashes.
  - unfold parseRef. by rewrite ref_parts_more_hashes, ref_parts_one_hash.
  - intros r. unfold parseRef. rewrite ref_parts_one_hash by done.
    destruct (if validURL a then _ else _) as [fp|e]; [| done].
    intros [= <-]. cbn [pointer]. destruct b as [|c b]; [done |].
    cbn [falsy orb default from_option id].
    rewrite (bool_decide_eq_false_2 (c :: b = [])) by done. cbn [orb].
    repeat case_bool_decide; congruence.
Qed.

(** C9: a reference with nothing before its [#], resolved against a base
    path that is not empty, has the normalised base path as its file path. *)
Theorem parseRef_fragment_only :
  (forall rest base : jsstring,
     base ≠ [] ->
     filePath <$> parseRef URL_href (HASH :: rest) (Some base) = normalize base) ∧
  filePath <$> parseRef URL_href (js "#/x") (Some (js "dir/base.yaml"))
  = Ok (js "dir/base.yaml").
Proof.
  split; [| reflexivity]. intros rest base Hbase. unfold parseRef.
  change (default [] (Some base)) with base.
  rewrite ref_parts_fragment_only.
  change (validURL []) with false. cbv iota.
  rewrite relativePath_empty by done.
  by destruct (normalize base).
Qed.
End ReferenceProperties.

Lemma parseRef_two_parts_witness :
  (HASH ∉ js "a") ∧ (HASH ∉ js "b") ∧
  parseRef (fun _ => Throw TypeError) (js "a" ++ HASH :: js "b" ++ HASH :: js "c")
    (Some (js "dir/base.yaml"))
  = parseRef (fun _ => Throw TypeError) (js "a" ++ HASH :: js "b")
      (Some (js "dir/base.yaml")).
Proof.
  assert (HASH ∉ js "a") as Ha by (by apply not_elem_of_forallb).
  assert (HASH ∉ js "b") as Hb by (by apply not_elem_of_forallb).
  exact (conj Ha (conj Hb (proj1 (proj2 (proj2 (proj2
    (parseRef_two_parts (fun _ => Throw TypeError) (js "a") (js "b") (js "c")
       (js "dir/base.yaml") Ha Hb))))))).
Defined.

(** C4 fails as stated: the text after a second [#] is no part of the
    pointer. *)
Lemma parseRef_second_hash_cut :
  ref_parts (js "a#b#c") [] = (js "a", Some (js "b")) ∧
  pointer <$> parseRef (fun _ => Throw TypeError) (js "a#b#c") None = Ok (js "b") ∧
  js "b" ≠ js "b#c".
Proof. split; [reflexivity | split; [reflexivity | discriminate]]. Qed.

Lemma parseRef_fragment_only_witness :
  js "dir/base.yaml" ≠ [] ∧
  filePath <$> parseRef (fun _ => Throw TypeError) (HASH :: js "/x")
                 (Some (js "dir/base.yaml"))
  = normalize (js "dir/base.yaml").
Proof.
  assert (js "dir/base.yaml" ≠ []) as H by discriminate.
  exact (conj H (proj1 (parseRef_fragment_only (fun _ => Throw TypeError)) _ _ H)).
Defined.

(** ** The merge *)

Lemma exec_bind_ok {A B} (e : exec A) (k : A -> exec B) b :
  exec_bind e k = Some (Ok b) -> exists a, e = Some (Ok a) ∧ k a = Some (Ok b).
Proof. destruct e as [[a|x]|]; [by exists a | done | done]. Qed.

Lemma alloc_fresh (h : heap) o h' l :
  alloc h o = (h', l) -> h !! l = None ∧ h' = <[l := o]> h.
Proof.
  unfold alloc. intros [= <- <-]. split; [| done].
  apply not_elem_of_dom. apply is_fresh.
Qed.

Lemma alloc_extends (h : heap) o h' l : alloc h o = (h', l) -> h ⊆ h'.
Proof. intros [Hl ->]%alloc_fresh. by apply insert_subseteq. Qed.

Lemma store_own_extends (h0 h : heap) l k v :
  h0 !! l = None -> h0 ⊆ h -> h0 ⊆ store_own h l k v.
Proof.
  intros Hl Hsub. unfold store_own. destruct (h !! l); [| done].
  by apply insert_subseteq_r.
Qed.

Lemma mergeValues_unfold fuel h value patch :
  mergeValues (S fuel) h value patch =
  if isArray h value && isArray h patch then
    let '(h', l) :=
      alloc h (new_array (if isArray h patch
                          then spread h value ++ spread h patch
                          else spread h value)) in
    Some (Ok (h', VRef l))
  else if isObject value && isObject patch then
    let '(h0, l) := alloc h (new_object (own_enumerable h value)) in
    h' <~ fold_left (merge_step fuel l patch) (Object_keys h0 patch) (Some (Ok h0));;
    Some (Ok (h', VRef l))
  else Some (Ok (h, patch)).
Proof. reflexivity. Qed.

Lemma fold_merge_step_failed fuel l patch keys acc :
  (forall h, acc ≠ Some (Ok h)) ->
  forall h, fold_left (merge_step fuel l patch) keys acc ≠ Some (Ok h).
Proof.
  revert acc. induction keys as [|k keys IH]; intros acc Hacc; [done |].
  cbn [fold_left]. apply IH. intros h. unfold merge_step.
  destruct acc as [[h1|x]|]; [by destruct (Hacc h1) | done | done].
Qed.

Lemma fold_merge_step_extends fuel l patch (h : heap) :
  (forall h value patch h' r,
     mergeValues fuel h value patch = Some (Ok (h', r)) -> h ⊆ h') ->
  h !! l = None ->
  forall keys h1 h2,
    h ⊆ h1 ->
    fold_left (merge_step fuel l patch) keys (Some (Ok h1)) = Some (Ok h2) ->
    h ⊆ h2.
Proof.
  intros IH Hl keys. induction keys as [|k keys IHk]; intros h1 h2 Hsub.
  - by intros [= <-].
  - cbn [fold_left]. unfold merge_step at 2. cbn [exec_bind].
    destruct (lift (get_prop h1 (VRef l) k)) as [[old|x]|] eqn:Eo;
      [| intros H; by apply fold_merge_step_failed in H..].
    destruct (lift (get_prop h1 patch k)) as [[new|x]|] eqn:En;
      [| intros H; by apply fold_merge_step_failed in H..].
    cbn [exec_bind].
    destruct (mergeValues fuel h1 old new) as [[[hm rm]|x]|] eqn:Em;
      [| intros H; by apply fold_merge_step_failed in H..].
    cbn [exec_bind fst snd]. apply IHk. apply store_own_extends; [done |].
    etrans; [exact Hsub |]. by eapply IH.
Qed.

(** Copy-on-write: a call only adds objects to the store. *)
Lemma mergeValues_extends fuel : forall h value patch h' r,
  mergeValues fuel h value patch = Some (Ok (h', r)) -> h ⊆ h'.
Proof.
  induction fuel as [|fuel IH]; intros h value patch h' r; [done |].
  rewrite mergeValues_unfold.
  destruct (isArray h value && isArray h patch).
  { destruct (alloc h _) as [h1 l] eqn:Ea. intros [= <- <-]. by eapply alloc_extends. }
  destruct (isObject value && isObject patch); [| by intros [= <- <-]].
  destruct (alloc h _) as [h0 l] eqn:Ea.
  pose proof (alloc_extends _ _ _ _ Ea) as Hsub.
  apply alloc_fresh in Ea as [Hl _].
  intros (h2 & Hfold & [= <- <-])%exec_bind_ok.
  by eapply fold_merge_step_extends.
Qed.

Lemma store_own_lookup_same (h : heap) l k v :
  is_Some (h !! l) -> is_Some (store_own h l k v !! l).
Proof.
  intros [o Ho]. unfold store_own. rewrite Ho. rewrite lookup_insert_eq. by eexists.
Qed.

Lemma fold_merge_step_keeps fuel l patch :
  forall keys h1 h2,
    is_Some (h1 !! l) ->
    fold_left (merge_step fuel l patch) keys (Some (Ok h1)) = Some (Ok h2) ->
    is_Some (h2 !! l).
Proof.
  intros keys. induction keys as [|k keys IHk]; intros h1 h2 Hl.
  - by intros [= <-].
  - cbn [fold_left]. unfold merge_step at 2. cbn [exec_bind].
    destruct (lift (get_prop h1 (VRef l) k)) as [[old|x]|] eqn:Eo;
      [| intros H; by apply fold_merge_step_failed in H..].
    destruct (lift (get_prop h1 patch k)) as [[new|x]|] eqn:En;
      [| intros H; by apply fold_merge_step_failed in H..].
    cbn [exec_bind].
    destruct (mergeValues fuel h1 old new) as [[[hm rm]|x]|] eqn:Em;
      [| intros H; by apply fold_merge_step_failed in H..].
    cbn [exec_bind fst snd]. apply IHk. apply store_own_lookup_same.
    apply mergeValues_extends in Em. destruct Hl as [o Ho].
    exists o. by eapply lookup_weaken.
Qed.

(** Where value and patch are combined the result is a new object; in
    every other case it is the patch, and the store is as it was. *)
Lemma mergeValues_result fuel h value patch h' r :
  mergeValues fuel h value patch = Some (Ok (h', r)) ->
  if (isArray h value && isArray h patch) || (isObject value && isObject patch)
  then exists l, r = VRef l ∧ h !! l = None ∧ is_Some (h' !! l)
  else h' = h ∧ r = patch.
Proof.
  destruct fuel as [|fuel]; [done |]. rewrite mergeValues_unfold.
  destruct (isArray h value && isArray h patch); cbn [orb].
  { destruct (alloc h _) as [h1 l] eqn:Ea. apply alloc_fresh in Ea as [Hl ->].
    intros [= <- <-]. exists l. by rewrite lookup_insert_eq. }
  destruct (isObject value && isObject patch); [| by intros [= <- <-]].
  destruct (alloc h _) as [h0 l] eqn:Ea. apply alloc_fresh in Ea as [Hl ->].
  intros (h2 & Hfold & [= <- <-])%exec_bind_ok.
  exists l. repeat split; [done |].
  eapply fold_merge_step_keeps; [| exact Hfold]. by rewrite lookup_insert_eq.
Qed.

Lemma bounded_mono d : forall (h h' : heap) v, h ⊆ h' -> bounded d h v -> bounded d h' v.
Proof.
  induction d as [|d IH]; intros h h' v Hsub; destruct v as [| | | | |l]; try done.
  cbn [bounded]. intros (o & Ho & Hall). exists o. split; [by eapply lookup_weaken |].
  eapply Forall_impl; [exact Hall |]. intros p. by apply IH.
Qed.

Lemma assoc_get_elem k ps v : assoc_get k ps = Some v -> (k, v) ∈ ps.
Proof.
  induction ps as [|[k' v'] ps IH]; [done |]. cbn [assoc_get].
  case_bool_decide as E; [intros [= ->]; subst; by left | right; auto].
Qed.

Lemma bounded_primitive d (h : heap) v : (forall l, v ≠ VRef l) -> bounded d h v.
Proof. intros Hv. destruct d, v; try done; by destruct (Hv l). Qed.

Lemma bounded_get_prop d (h : heap) patch k new :
  bounded (S d) h patch -> get_prop h patch k = Ok new -> bounded d h new.
Proof.
  destruct patch as [| | | | |l]; cbn [get_prop bounded]; try done.
  - intros _ [= <-]. by apply bounded_primitive.
  - intros _ [= <-]. by apply bounded_primitive.
  - intros _ [= <-]. apply bounded_primitive. intros l. by repeat case_match.
  - intros (o & Ho & Hall) [= <-]. rewrite Ho. unfold own_get.
    assert (bounded d h (default VUndefined (assoc_get k (props o)))) as Hd.
    { destruct (assoc_get k (props o)) as [v|] eqn:E; [| by apply bounded_primitive].
      apply assoc_get_elem in E. rewrite Forall_forall in Hall.
      by apply (Hall (k, v)). }
    destruct (arr_length o); [| done].
    case_bool_decide; [by apply bounded_primitive | done].
Qed.

Lemma isObject_ref v : isObject v = true -> exists l, v = VRef l.
Proof. destruct v; try done. by eexists. Qed.

Lemma mergeValues_returns d : forall h value patch,
  bounded d h patch ->
  exists h' r, mergeValues (S d) h value patch = Some (Ok (h', r)).
Proof.
  induction d as [|d IH]; intros h value patch Hb; rewrite mergeValues_unfold.
  - destruct (isArray h value && isArray h patch) eqn:Ea.
    { apply andb_prop in Ea as [_ Ea]. by destruct patch. }
    destruct (isObject value && isObject patch) eqn:Eo; [| by eexists _, _].
    apply andb_prop in Eo as [_ Eo]. by destruct patch.
  - destruct (isArray h value && isArray h patch).
    { destruct (alloc h _). by eexists _, _. }
    destruct (isObject value && isObject patch) eqn:Eo; [| by eexists _, _].
    destruct (alloc h _) as [h0 l] eqn:Ea.
    pose proof (alloc_extends _ _ _ _ Ea) as Hsub.
    apply alloc_fresh in Ea as [Hl _].
    enough (exists h2, fold_left (merge_step (S d) l patch) (Object_keys h0 patch)
                         (Some (Ok h0)) = Some (Ok h2)) as [h2 ->]
      by (by eexists _, _).
    revert Hsub. generalize (Object_keys h0 patch) as keys. generalize h0 as h1.
    intros h1 keys. revert h1. induction keys as [|k keys IHk]; intros h1 Hsub.
    + by eexists.
    + cbn [fold_left]. unfold merge_step at 2. cbn [exec_bind lift get_prop].
      assert (bounded (S d) h1 patch) as Hb1 by (by eapply bounded_mono).
      destruct (get_prop h1 patch k) as [new|x] eqn:En.
      2:{ apply andb_prop in Eo as [_ [lp ->]%isObject_ref]. done. }
      cbn [exec_bind].
      pose proof (bounded_get_prop _ _ _ _ _ Hb1 En) as Hnew.
      destruct (IH h1 (match h1 !! l with Some o => own_get o k | None => VUndefined end)
                  new Hnew) as (hm & rm & Hm).
      rewrite Hm. cbn [exec_bind fst snd]. apply IHk.
      apply store_own_extends; [done |]. etrans; [exact Hsub |].
      by eapply mergeValues_extends.
Qed.

Lemma fold_merge_step_none fuel l patch keys :
  fold_left (merge_step fuel l patch) keys None = None.
Proof. induction keys; [done | apply IHkeys]. Qed.

Lemma fold_merge_step_throw fuel l patch keys x :
  fold_left (merge_step fuel l patch) keys (Some (Throw x)) = Some (Throw x).
Proof. induction keys; [done | apply IHkeys]. Qed.

(** More fuel changes no result. *)
Lemma mergeValues_fuel_mono fuel : forall fuel' h value patch out,
  (fuel <= fuel')%nat ->
  mergeValues fuel h value patch = Some out ->
  mergeValues fuel' h value patch = Some out.
Proof.
  induction fuel as [|fuel IH]; intros fuel' h value patch out Hle; [done |].
  destruct fuel' as [|fuel']; [lia |]. rewrite !mergeValues_unfold.
  destruct (isArray h value && isArray h patch); [done |].
  destruct (isObject value && isObject patch); [| done].
  destruct (alloc h _) as [h0 l].
  enough (forall keys acc res,
            fold_left (merge_step fuel l patch) keys acc = Some res ->
            fold_left (merge_step fuel' l patch) keys acc = Some res) as Hfold.
  { destruct (fold_left (merge_step fuel l patch) _ _) as [res|] eqn:E; [| done].
    by rewrite (Hfold _ _ _ E). }
  intros keys. induction keys as [|k keys IHk]; intros acc res; [done |].
  cbn [fold_left]. destruct acc as [[h1|x]|].
  - unfold merge_step at 2 4. cbn [exec_bind].
    destruct (lift (get_prop h1 (VRef l) k)) as [[old|x]|]; [| apply IHk..].
    destruct (lift (get_prop h1 patch k)) as [[new|x]|]; [| apply IHk..].
    cbn [exec_bind].
    destruct (mergeValues fuel h1 old new) as [m|] eqn:Em.
    + rewrite (IH fuel' _ _ _ _ ltac:(lia) Em). apply IHk.
    + cbn [exec_bind]. by rewrite fold_merge_step_none.
  - apply IHk.
  - apply IHk.
Qed.

Lemma sequence_map_impl {A B} (f g : A -> option B) (l : list A) ys :
  (forall x y, f x = Some y -> g x = Some y) ->
  sequence (map f l) = Some ys -> sequence (map g l) = Some ys.
Proof.
  intros Hfg. revert ys. induction l as [|x l IH]; intros ys; [done |].
  cbn [map sequence]. destruct (f x) as [y|] eqn:Ef; [| done].
  rewrite (Hfg _ _ Ef). cbn [mbind option_bind].
  destruct (sequence (map f l)) as [ys'|]; [| done].
  by rewrite (IH ys').
Qed.

(** A document read in a store reads the same in every larger store. *)
Lemma read_json_mono n : forall (h h' : heap) v t,
  h ⊆ h' -> read_json n h v = Some t -> read_json n h' v = Some t.
Proof.
  induction n as [|n IH]; intros h h' v t Hsub; destruct v as [| | | | |l]; try done.
  cbn [read_json]. destruct (h !! l) as [o|] eqn:Ho; [| done].
  rewrite (lookup_weaken _ _ _ _ Ho Hsub). cbn [mbind option_bind].
  destruct (arr_length o).
  - case_bool_decide; [| done].
    destruct (sequence (map (read_json n h) (elements o))) as [ts|] eqn:E; [| done].
    erewrite sequence_map_impl; [done | | exact E]. intros ? ?. by apply IH.
  - destruct (sequence (map _ (props o))) as [ts|] eqn:E; [| done].
    erewrite sequence_map_impl; [done | | exact E].
    intros p y. cbn beta. destruct (read_json n h p.2) as [t'|] eqn:Et; [| done].
    by rewrite (IH _ _ _ _ Hsub Et).
Qed.

(** C10: the second [mergeValues] is copy-on-write. On a finite patch the
    call returns (for every amount of fuel above the depth of the patch);
    every object of the store is afterwards as it was, so the value and
    everything under it read as before; and where value and patch are
    combined the result is an object that was not in the store, every
    other result being the patch itself in an unchanged store. *)
Theorem mergeValues_copy_on_write d (h : heap) value patch :
  bounded d h patch ->
  exists h' r,
    (forall fuel, (d < fuel)%nat ->
       mergeValues fuel h value patch = Some (Ok (h', r))) ∧
    h ⊆ h' ∧
    (forall n v t, read_json n h v = Some t -> read_json n h' v = Some t) ∧
    (if combined h value patch
     then exists l, r = VRef l ∧ h !! l = None ∧ is_Some (h' !! l)
     else h' = h ∧ r = patch).
Proof.
  intros Hb. destruct (mergeValues_returns d h value patch Hb) as (h' & r & Hm).
  exists h', r. pose proof (mergeValues_extends _ _ _ _ _ _ Hm) as Hsub.
  repeat split.
  - intros fuel Hf. eapply mergeValues_fuel_mono; [| exact Hm]. lia.
  - done.
  - intros n v t. by apply read_json_mono.
  - by apply mergeValues_result in Hm.
Qed.

Lemma mergeValues_copy_on_write_witness :
  bounded 2 ex_store.1.1 ex_store.2 ∧
  exists h' r,
    (forall fuel, (2 < fuel)%nat ->
       mergeValues fuel ex_store.1.1 ex_store.1.2 ex_store.2 = Some (Ok (h', r))) ∧
    ex_store.1.1 ⊆ h' ∧
    (forall n v t, read_json n ex_store.1.1 v = Some t -> read_json n h' v = Some t) ∧
    (if combined ex_store.1.1 ex_store.1.2 ex_store.2
     then exists l, r = VRef l ∧ ex_store.1.1 !! l = None ∧ is_Some (h' !! l)
     else h' = ex_store.1.1 ∧ r = ex_store.2).
Proof.
  assert (bounded 2 ex_store.1.1 ex_store.2) as Hb.
  { vm_compute. eexists. split; [reflexivity |].
    repeat constructor. eexists. split; [reflexivity |]. repeat constructor. }
  split; [exact Hb |]. exact (mergeValues_copy_on_write 2 _ _ _ Hb).
Defined.

(** The three examples of the specification, on the second [mergeValues];
    the value reads after each call as it did before. *)
Lemma mergeValues_examples :
  merge_documents (mergeValues 4) 4
    (JObj [(js "a", JNum 1); (js "b", JNum 2)])
    (JObj [(js "b", JNum 3); (js "c", JNum 4)])
  = Some (Ok (Some (JObj [(js "a", JNum 1); (js "b", JNum 3); (js "c", JNum 4)]),
              Some (JObj [(js "a", JNum 1); (js "b", JNum 2)]))) ∧
  merge_documents (mergeValues 4) 4 (JArr [JNum 1; JNum 2]) (JArr [JNum 3])
  = Some (Ok (Some (JArr [JNum 1; JNum 2; JNum 3]), Some (JArr [JNum 1; JNum 2]))) ∧
  merge_documents (mergeValues 4) 4 (JNum 5) (JObj [(js "a", JNum 1)])
  = Some (Ok (Some (JObj [(js "a", JNum 1)]), Some (JNum 5))).
Proof. repeat split; vm_compute; reflexivity. Qed.

(** C7 (the code does otherwise): an array against a mapping is no case of
    "any other shape combination returns patch". [isObject] holds of arrays
    too, so the second [mergeValues] spreads the array into a new mapping and
    merges the patch into it: [[1,2]] and [{a:1}] give [{0:1, 1:2, a:1}],
    and [{a:1}] and [[3]] give [{a:1, 0:3}]. *)
Theorem mergeValues_array_with_mapping :
  merge_documents (mergeValues 4) 4 (JArr [JNum 1; JNum 2]) (JObj [(js "a", JNum 1)])
  = Some (Ok (Some (JObj [(js "0", JNum 1); (js "1", JNum 2); (js "a", JNum 1)]),
              Some (JArr [JNum 1; JNum 2]))) ∧
  merge_documents (mergeValues 4) 4 (JObj [(js "a", JNum 1)]) (JArr [JNum 3])
  = Some (Ok (Some (JObj [(js "a", JNum 1); (js "0", JNum 3)]),
              Some (JObj [(js "a", JNum 1)]))).
Proof. split; vm_compute; reflexivity. Qed.

(** The first [mergeValues] (lines 33-44) on the same inputs: two arrays
    give the new length, and the value is changed in place; an array
    against a mapping gives the array; two mappings are merged into the
    value itself. *)
Lemma first_mergeValues_examples array_length_of :
  merge_documents (FirstHalf.mergeValues array_length_of 4) 4
    (JArr [JNum 1; JNum 2]) (JArr [JNum 3])
  = Some (Ok (Some (JNum 3), Some (JArr [JNum 1; JNum 2; JNum 3]))) ∧
  merge_documents (FirstHalf.mergeValues array_length_of 4) 4
    (JArr [JNum 1; JNum 2]) (JObj [(js "a", JNum 1)])
  = Some (Ok (Some (JArr [JNum 1; JNum 2]), Some (JArr [JNum 1; JNum 2]))) ∧
  merge_documents (FirstHalf.mergeValues array_length_of 4) 4
    (JObj [(js "a", JNum 1); (js "b", JNum 2)])
    (JObj [(js "b", JNum 3); (js "c", JNum 4)])
  = Some (Ok (Some (JObj [(js "a", JNum 1); (js "b", JNum 3); (js "c", JNum 4)]),
              Some (JObj [(js "a", JNum 1); (js "b", JNum 3); (js "c", JNum 4)]))).
Proof. repeat split; vm_compute; reflexivity. Qed.

(** ** The accessors *)

(** C2 (the code does otherwise): the loop stops on [undefined] only. A
    lookup on [null] throws a TypeError, for a root that is [null] and for
    a [null] met on the way ([{a: null}] with the path [a], [b]). *)
Theorem getValueByPath_null_throws numeric_key :
  (forall h k path, getValueByPath numeric_key h VNull (k :: path) = Throw TypeError) ∧
  get_in numeric_key (JObj [(js "a", JNull)]) [KStr (js "a"); KStr (js "b")]
  = Throw TypeError.
Proof. split; [done |]. vm_compute. reflexivity. Qed.

(** The two examples of the specification. *)
Lemma getValueByPath_examples numeric_key :
  get_in numeric_key (JObj [(js "a", JArr [JNum 1; JNum 2; JNum 3])])
    [KStr (js "a"); KNum 1]
  = Ok (VNum 2) ∧
  get_in numeric_key (JObj []) [KStr (js "a"); KStr (js "b")] = Ok VUndefined.
Proof. split; vm_compute; reflexivity. Qed.

(** C3 (the code does otherwise): [typeof null] is ["object"], so a [null]
    on the way is not replaced by an empty mapping, and the descent into it
    throws a TypeError ([{a: null}] with the path [a], [b]). *)
Theorem setValueByPath_null_throws array_length_of :
  set_in array_length_of (JObj [(js "a", JNull)]) [KStr (js "a"); KStr (js "b")]
    (VNum 1)
  = Throw TypeError.
Proof. vm_compute. reflexivity. Qed.

(** A scalar on the way is replaced, and an empty path writes nothing. *)
Lemma setValueByPath_examples array_length_of :
  set_in array_length_of (JObj [(js "a", JNum 7)]) [KStr (js "a"); KStr (js "b")]
    (VNum 1)
  = Ok (Some (JObj [(js "a", JObj [(js "b", JNum 1)])])) ∧
  set_in array_length_of (JObj [(js "a", JNum 7)]) [] (VNum 1)
  = Ok (Some (JObj [(js "a", JNum 7)])).
Proof. split; vm_compute; reflexivity. Qed.

(** ** The path normaliser: further properties *)

Lemma stack_ok_shape allow acc :
  stack_ok allow acc ->
  exists n reals,
    rev acc = replicate n (js "..") ++ reals ∧ Forall real_segment reals ∧
    (allow = false -> n = 0%nat).
Proof.
  induction 1 as [|acc Hallow Hdd|seg acc Hreal _ (n & reals & Hrev & Hreals & Hn)].
  - by exists 0%nat, [].
  - exists (S (length acc)), []. repeat split; [| done | by intros ->].
    rewrite app_nil_r. cbn [rev].
    assert (rev acc = replicate (length acc) (js "..")) as ->.
    { rewrite <- length_rev. apply Forall_rev in Hdd.
      induction Hdd as [|? ? <- _ IH]; [done | cbn; by f_equal]. }
    clear. induction (length acc) as [|n IH]; [done |]. cbn in *. by f_equal.
  - exists n, (reals ++ [seg]). repeat split; [| | done].
    + cbn [rev]. by rewrite Hrev, app_assoc.
    + apply Forall_app. split; [done | by apply Forall_singleton].
Qed.

Lemma collapse_stack_ok allow path :
  stack_ok allow (fold_left (collapse_segment allow) (split SLASH path) []).
Proof. apply fold_collapse_ok; [constructor | apply split_slash_free]. Qed.

Lemma posixNormalize_fixed allow acc :
  stack_ok allow acc ->
  posixNormalize (join (js "/") (rev acc)) allow = join (js "/") (rev acc).
Proof.
  intros Hok. rewrite posixNormalize_spec. unfold spec_posixNormalize, collapse.
  destruct acc as [|top rest]; [done |].
  rewrite split_join.
  - by rewrite collapse_fixed.
  - by apply rev_nonempty.
  - apply Forall_rev. eapply Forall_impl; [by eapply stack_ok_good |]. by intros ? [? ?].
Qed.

Lemma decodeURIComponent_throws_URIError_upto n : forall s e,
  (length s <= n)%nat -> decodeURIComponent s = Throw e -> e = URIError.
Proof.
  assert (forall {A B} (f : A -> B) r e, rmap f r = Throw e -> r = Throw e) as Hrmap.
  { intros A B f [a|x] e; [done |]. by intros [= ->]. }
  assert (forall {A} (o : option A) {B} (k : A -> result B) e,
            (forall a, k a = Throw e -> e = URIError) ->
            (of_option o ≫= k) = Throw e -> e = URIError) as Hopt.
  { intros A [a|] B k e Hk; [apply Hk |]. by intros [= <-]. }
  induction n as [|n IH]; intros s e Hlen.
  { destruct s; [done | cbn in Hlen; lia]. }
  destruct s as [|c s1]; [done |]. cbn [decodeURIComponent].
  assert (forall {B} (f : jsstring -> B) s', (length s' <= n)%nat ->
            rmap f (decodeURIComponent s') = Throw e -> e = URIError) as Hrec.
  { intros B f s' Hs' H%Hrmap. by apply (IH s'). }
  cbn [length] in Hlen.
  destruct (negb (N.eqb c PERCENT)); [apply Hrec; lia |].
  destruct s1 as [|x [|y s2]]; [by intros [= <-] | by intros [= <-] |].
  cbn [length] in Hlen.
  destruct (escape_octet c x y) as [b0|]; [| by intros [= <-]].
  destruct (b0 <? 128)%N; [apply Hrec; lia |].
  destruct (b0 <? 192)%N; [by intros [= <-] |].
  destruct (b0 <? 224)%N.
  { destruct s2 as [|p1 [|x1 [|y1 s3]]]; try by intros [= <-].
    cbn [length] in Hlen. apply Hopt. intros v. apply Hrec. lia. }
  destruct (b0 <? 240)%N.
  { destruct s2 as [|p1 [|x1 [|y1 [|p2 [|x2 [|y2 s3]]]]]]; try by intros [= <-].
    cbn [length] in Hlen. apply Hopt. intros v. apply Hrec. lia. }
  destruct (b0 <? 248)%N; [| by intros [= <-]].
  destruct s2 as [|p1 [|x1 [|y1 [|p2 [|x2 [|y2 [|p3 [|x3 [|y3 s3]]]]]]]]];
    try by intros [= <-].
  cbn [length] in Hlen. apply Hopt. intros v. apply Hrec. lia.
Qed.

Lemma normalize_ok_inv p q :
  normalize p = Ok q ->
  p = [] ∧ q = js "." ∨
  p ≠ [] ∧ exists acc,
    stack_ok (negb (code_is (charCodeAt p 0) SLASH)) acc ∧
    q = normalize_finish (code_is (charCodeAt p 0) SLASH)
          (code_is (charCodeAt p (str_length p - 1)) SLASH)
          (join (js "/") (rev acc)).
Proof.
  unfold normalize. destruct (str_length p =? 0) eqn:E.
  { apply Z.eqb_eq, str_length_nil_inv in E. intros [= <-]. by left. }
  destruct (decodeURIComponent p) as [d|]; [| done].
  intros [= <-]. right. split; [by intros -> |].
  eexists. split; [apply (collapse_stack_ok _ d) |].
  by rewrite posixNormalize_spec.
Qed.

(** X1: The loop of [posixNormalize], which reads the path one code unit at a
    time, computes the collapse of its segments: the path is cut at every
    slash, empty and [.] segments are dropped, [..] removes the segment
    before it when that is a real one (and is kept or dropped otherwise as
    [allowAboveRoot] says), and what is kept is joined by slashes. *)
Theorem posixNormalize_by_segments path allowAboveRoot :
  posixNormalize path allowAboveRoot
  = join (js "/") (collapse allowAboveRoot (split SLASH path)).
Proof. apply posixNormalize_spec. Qed.

(** X2: The result of [posixNormalize] is a run of [..] segments (none unless
    [allowAboveRoot]) followed by real segments, joined by single slashes:
    no empty segment, no [.] segment, no [..] after a real segment, no
    slash at either end. *)
Theorem posixNormalize_shape path allowAboveRoot :
  exists n reals,
    posixNormalize path allowAboveRoot
    = join (js "/") (replicate n (js "..") ++ reals) ∧
    Forall real_segment reals ∧
    (allowAboveRoot = false -> n = 0%nat).
Proof.
  rewrite posixNormalize_spec. unfold spec_posixNormalize, collapse.
  destruct (stack_ok_shape _ _ (collapse_stack_ok allowAboveRoot path))
    as (n & reals & -> & Hreals & Hn).
  by exists n, reals.
Qed.

(** X3: [posixNormalize] is idempotent. *)
Theorem posixNormalize_idempotent path allowAboveRoot :
  posixNormalize (posixNormalize path allowAboveRoot) allowAboveRoot
  = posixNormalize path allowAboveRoot.
Proof.
  rewrite (posixNormalize_spec path). unfold spec_posixNormalize, collapse.
  apply posixNormalize_fixed, collapse_stack_ok.
Qed.

(** X4: [normalize] never returns the empty string, and its result starts with
    a slash exactly when its argument does. *)
Theorem normalize_keeps_absoluteness p q :
  normalize p = Ok q ->
  q ≠ [] ∧ code_is (charCodeAt q 0) SLASH = code_is (charCodeAt p 0) SLASH.
Proof.
  intros [[-> ->]|(Hp & acc & Hok & ->)]%normalize_ok_inv; [done |].
  generalize (code_is (charCodeAt p (str_length p - 1)) SLASH) as t.
  generalize dependent (code_is (charCodeAt p 0) SLASH). intros a Hok t.
  destruct acc as [|top rest]; [by destruct a, t |].
  pose proof (stack_ok_good _ _ Hok) as Hgood.
  rewrite normalize_finish_nonempty by (by apply join_rev_nonempty).
  destruct (join_head (rev (top :: rest))) as (c & tl & -> & Hc);
    [by apply rev_nonempty | by apply Forall_rev |].
  destruct a; [done |]. split; [done |].
  cbn [app]. change (charCodeAt (c :: tl ++ (if t then [SLASH] else [])) 0) with (Some c).
  cbn [code_is]. by destruct (N.eqb_spec c SLASH).
Qed.

(** X5: A trailing slash of the argument is kept by [normalize]. *)
Theorem normalize_keeps_trailing_slash p q :
  normalize p = Ok q ->
  code_is (charCodeAt p (str_length p - 1)) SLASH = true ->
  code_is (charCodeAt q (str_length q - 1)) SLASH = true.
Proof.
  intros [[-> ->]|(Hp & acc & Hok & ->)]%normalize_ok_inv; [done |].
  intros ->.
  generalize dependent (code_is (charCodeAt p 0) SLASH). intros a Hok.
  destruct acc as [|top rest]; [by destruct a |].
  pose proof (stack_ok_good _ _ Hok) as Hgood.
  rewrite normalize_finish_nonempty by (by apply join_rev_nonempty).
  rewrite !app_assoc, charCodeAt_last. done.
Qed.

(** X6: The only exception of [normalize] is the URIError of the decoding, and
    a path without a percent sign is always normalised. *)
Theorem normalize_throws_only_URIError p :
  (forall e, normalize p = Throw e -> e = URIError ∧ PERCENT ∈ p) ∧
  (PERCENT ∉ p -> exists q, normalize p = Ok q).
Proof.
  split.
  - intros e. unfold normalize. destruct (str_length p =? 0); [done |].
    destruct (decodeURIComponent p) as [d|x] eqn:E; [done |]. intros [= <-].
    split; [by eapply decodeURIComponent_throws_URIError_upto |].
    destruct (decide (PERCENT ∈ p)) as [|Hp]; [done |].
    by rewrite decodeURIComponent_no_percent in E.
  - intros Hp. unfold normalize. destruct (str_length p =? 0); [by eexists |].
    rewrite decodeURIComponent_no_percent by done. by eexists.
Qed.

Lemma normalize_keeps_trailing_slash_witness :
  normalize (js "a/./b/") = Ok (js "a/b/") ∧
  code_is (charCodeAt (js "a/b/") (str_length (js "a/b/") - 1)) SLASH = true.
Proof.
  assert (normalize (js "a/./b/") = Ok (js "a/b/")) as H by reflexivity.
  exact (conj H (normalize_keeps_trailing_slash _ _ H eq_refl)).
Defined.

Lemma normalize_keeps_absoluteness_witness :
  normalize (js "/a/../b") = Ok (js "/b") ∧
  js "/b" ≠ [] ∧
  code_is (charCodeAt (js "/b") 0) SLASH = code_is (charCodeAt (js "/a/../b") 0) SLASH.
Proof.
  assert (normalize (js "/a/../b") = Ok (js "/b")) as H by reflexivity.
  exact (conj H (normalize_keeps_absoluteness _ _ H)).
Defined.

(** ** References: further properties *)

Lemma join_split (s : jsstring) : join [SLASH] (split SLASH s) = s.
Proof.
  induction s as [|c s IH]; [done |]. cbn [split].
  pose proof (split_nonempty SLASH s) as Hne.
  destruct (split SLASH s) as [|seg segs]; [done |].
  destruct (N.eqb_spec c SLASH) as [->|Hc].
  - change (join [SLASH] ([] :: seg :: segs))
      with ([] ++ [SLASH] ++ join [SLASH] (seg :: segs)).
    by rewrite IH.
  - rewrite <- IH. by destruct segs.
Qed.

Lemma insert_last {A} (l : list A) (x y : A) :
  <[(length (l ++ [x]) - 1)%nat := y]> (l ++ [x]) = l ++ [y].
Proof.
  rewrite length_app. cbn [length].
  replace (length l + 1 - 1)%nat with (length l + 0)%nat by lia.
  by rewrite insert_app_r.
Qed.

Lemma relativePath_sibling path d f :
  path ≠ [] -> SLASH ∉ f ->
  relativePath path (Some (d ++ SLASH :: f)) = normalize (d ++ SLASH :: path).
Proof.
  intros Hpath Hf. unfold relativePath.
  assert (falsy (Some (d ++ SLASH :: f)) = false) as -> by (by destruct d).
  assert (falsy (Some path) = false) as -> by (by destruct path).
  cbn [default from_option id]. rewrite split_app, (split_free _ f) by done.
  rewrite insert_last, js_slash.
  rewrite join_snoc by apply split_nonempty. by rewrite join_split.
Qed.

Lemma relativePath_no_directory path f :
  path ≠ [] -> SLASH ∉ f -> relativePath path (Some f) = normalize path.
Proof.
  intros Hpath Hf. unfold relativePath. destruct f as [|c f]; [done |].
  assert (falsy (Some path) = false) as -> by (by destruct path).
  cbn [falsy default from_option id]. rewrite split_free by done. done.
Qed.

(** X7: [relativePath] resolves a path that is not empty against the directory
    of the base path: the text of the base path after its last slash is
    replaced by the path, whatever the path is (a path that starts with a
    slash is not treated as absolute), and the result is normalised. A base
    path without a slash is replaced as a whole. *)
Theorem relativePath_replaces_last_segment path d f :
  path ≠ [] -> SLASH ∉ f ->
  relativePath path (Some (d ++ SLASH :: f)) = normalize (d ++ SLASH :: path) ∧
  relativePath path (Some f) = normalize path.
Proof.
  intros Hpath Hf. split.
  - by apply relativePath_sibling.
  - by apply relativePath_no_directory.
Qed.

Lemma relativePath_replaces_last_segment_witness :
  js "/x.yaml" ≠ [] ∧ (SLASH ∉ js "base.yaml") ∧
  relativePath (js "/x.yaml") (Some (js "dir" ++ SLASH :: js "base.yaml"))
  = normalize (js "dir" ++ SLASH :: js "/x.yaml").
Proof.
  assert (js "/x.yaml" ≠ []) as H1 by discriminate.
  assert (SLASH ∉ js "base.yaml") as H2 by (by apply not_elem_of_forallb).
  exact (conj H1 (conj H2
    (proj1 (relativePath_replaces_last_segment _ (js "dir") _ H1 H2)))).
Defined.

(** X9: [createRef] never returns the empty string, and a reference made from
    a file path that is not empty and a pointer, both without [#], is cut
    by the [split] of [parseRef] into these two again; the pointer part is
    absent when the pointer is empty. Without a file path the reference is
    the [#] followed by the pointer. *)
Theorem createRef_parts (filePath pointer base : jsstring) :
  filePath ≠ [] -> HASH ∉ filePath -> HASH ∉ pointer ->
  createRef (Some filePath) (Some pointer) ≠ [] ∧
  ref_parts (createRef (Some filePath) (Some pointer)) base
  = (filePath, if bool_decide (pointer = []) then None else Some pointer) ∧
  createRef None (Some pointer) = js "#" ++ pointer ∧
  createRef (Some []) (Some pointer) = js "#" ++ pointer.
Proof.
  intros Hne Hf Hp. unfold createRef.
  assert (falsy (Some filePath) = false) as -> by (by destruct filePath).
  cbn [default from_option id]. destruct pointer as [|c p].
  - cbn [falsy]. rewrite app_nil_r, ref_parts_no_hash by done.
    by rewrite bool_decide_eq_true_2.
  - cbn [falsy]. change (js "#" ++ c :: p) with (HASH :: c :: p).
    rewrite ref_parts_one_hash by done.
    rewrite bool_decide_eq_false_2 by done.
    split; [by destruct filePath | done].
Qed.

Lemma createRef_parts_witness :
  js "d/x.yaml" ≠ [] ∧ (HASH ∉ js "d/x.yaml") ∧ (HASH ∉ js "/a/b") ∧
  ref_parts (createRef (Some (js "d/x.yaml")) (Some (js "/a/b"))) []
  = (js "d/x.yaml", Some (js "/a/b")).
Proof.
  assert (js "d/x.yaml" ≠ []) as H1 by discriminate.
  assert (HASH ∉ js "d/x.yaml") as H2 by (by apply not_elem_of_forallb).
  assert (HASH ∉ js "/a/b") as H3 by (by apply not_elem_of_forallb).
  exact (conj H1 (conj H2 (conj H3
    (proj1 (proj2 (createRef_parts _ _ [] H1 H2 H3)))))).
Defined.

Section MoreReferenceProperties.
Variable URL_href : jsstring -> result jsstring.

(** X8: A reference without [#], one that ends with [#] and one that ends with
    [#/] are parsed to the same record: all three have the empty pointer. *)
Theorem parseRef_no_pointer_forms (a : jsstring) (basePath : option jsstring) :
  HASH ∉ a ->
  parseRef URL_href (a ++ js "#") basePath = parseRef URL_href a basePath ∧
  parseRef URL_href (a ++ js "#/") basePath = parseRef URL_href a basePath ∧
  (forall r, parseRef URL_href a basePath = Ok r ->
     pointer r = [] ∧ (filePath r ≠ [] -> normalized r = filePath r)).
Proof.
  intros Ha. unfold parseRef.
  assert (js "#" = [HASH]) as -> by done.
  assert (js "#/" = [HASH; SLASH]) as -> by done.
  change (a ++ [HASH; SLASH]) with (a ++ HASH :: [SLASH]).
  rewrite !ref_parts_one_hash, ref_parts_no_hash by (done || by not_in).
  split; [done | split; [done |]].
  intros r. destruct (if validURL a then _ else _) as [fp|]; [| done].
  intros [= <-]. cbn [pointer filePath normalized falsy orb].
  split; [done |]. unfold createRef. cbn [falsy default from_option id].
  destruct fp; [done | by rewrite app_nil_r].
Qed.
End MoreReferenceProperties.

Lemma parseRef_no_pointer_forms_witness :
  (HASH ∉ js "a.yaml") ∧
  parseRef (fun _ => Throw TypeError) (js "a.yaml" ++ js "#/") (Some (js "d/b.yaml"))
  = parseRef (fun _ => Throw TypeError) (js "a.yaml") (Some (js "d/b.yaml")).
Proof.
  assert (HASH ∉ js "a.yaml") as H by (by apply not_elem_of_forallb).
  exact (conj H (proj1 (proj2
    (parseRef_no_pointer_forms (fun _ => Throw TypeError) _ (Some (js "d/b.yaml")) H)))).
Defined.

(** ** The pointer codec: further properties *)

Lemma pointer_unit_not_hash u : pointer_unit u -> u ≠ HASH.
Proof.
  intros [->|[Hu| [->|H]]]; [done | by intros -> | done |].
  unfold HASH. lia.
Qed.

Lemma token_units t :
  well_formed t = true ->
  exists e, encodeURIComponent (escape_token t) = Ok e ∧
            Forall (fun u => unescaped u = true ∨ escape_unit u) e.
Proof.
  revert t. apply well_formed_ind.
  - by exists [].
  - intros c s Hh Hl Hc _ (e & He & Hu). rewrite escape_token_cons.
    destruct (N.eqb_spec c TILDE) as [->|Ht]; [| destruct (N.eqb_spec c SLASH) as [->|Hs]].
    + exists (TILDE :: 48%N :: e). cbn [app encodeURIComponent].
      change (unescaped TILDE) with true. change (unescaped 48) with true. cbv iota.
      rewrite He. split; [done |]. repeat constructor; done.
    + exists (TILDE :: 49%N :: e). cbn [app encodeURIComponent].
      change (unescaped TILDE) with true. change (unescaped 49) with true. cbv iota.
      rewrite He. split; [done |]. repeat constructor; done.
    + cbn [app encodeURIComponent]. destruct (unescaped c) eqn:Eu.
      * exists (c :: e). rewrite He. split; [done |]. constructor; [by left | done].
      * rewrite Hh, Hl, He. eexists. split; [done |].
        apply Forall_app. split; [| done].
        eapply Forall_impl; [apply percent_octets_units; lia |]. by right.
  - intros hi lo s Hh Hl _ (e & He & Hu). rewrite !escape_token_cons.
    assert (hi ≠ TILDE ∧ hi ≠ SLASH ∧ lo ≠ TILDE ∧ lo ≠ SLASH) as (? & ? & ? & ?).
    { unfold is_high_surrogate, is_low_surrogate, in_range, TILDE, SLASH in *. lia. }
    destruct (N.eqb_spec hi TILDE); [done |]. destruct (N.eqb_spec hi SLASH); [done |].
    destruct (N.eqb_spec lo TILDE); [done |]. destruct (N.eqb_spec lo SLASH); [done |].
    cbn [app encodeURIComponent].
    rewrite (surrogate_not_unescaped hi) by (by left). rewrite Hh, Hl, He.
    destruct (utf16_encode_pair hi lo Hh Hl) as [_ Hsv].
    eexists. split; [done |]. apply Forall_app. split; [| done].
    eapply Forall_impl; [apply percent_octets_units, Hsv |]. by right.
Qed.

Lemma tokens_units (t : list jsstring) :
  Forall (fun s => well_formed s = true) t ->
  exists es,
    map_result (fun i => encodeURIComponent
                           (replace_unit SLASH (js "~1")
                              (replace_unit TILDE (js "~0") (String_of i))))
      (map KStr t) = Ok es ∧
    Forall (Forall (fun u => unescaped u = true ∨ escape_unit u)) es.
Proof.
  induction 1 as [|s t Hs _ (es & Hes & Hu)]; [by exists [] |].
  destruct (token_units s Hs) as (e & He & Hue).
  exists (e :: es). cbn [map map_result String_of].
  unfold escape_token in He. rewrite He, Hes. by split; [| constructor].
Qed.

Lemma slashes_app a b : slashes (a ++ b) = (slashes a + slashes b)%nat.
Proof. unfold slashes. by rewrite List.filter_app, length_app. Qed.

Lemma slashes_free s : SLASH ∉ s -> slashes s = 0%nat.
Proof.
  induction s as [|c s IH]; [done |]. intros [Hc Hs]%not_elem_of_cons.
  unfold slashes in *. cbn [List.filter].
  destruct (N.eqb_spec SLASH c); [congruence | by apply IH].
Qed.

Lemma split_length s : length (split SLASH s) = S (slashes s).
Proof.
  induction s as [|c s IH]; [done |]. cbn [split]. unfold slashes in *.
  cbn [List.filter]. rewrite (N.eqb_sym SLASH c).
  destruct (N.eqb c SLASH); [cbn [length]; by rewrite IH |].
  pose proof (split_nonempty SLASH s).
  destruct (split SLASH s); [done | exact IH].
Qed.

Lemma slashes_join (es : list jsstring) :
  Forall slash_free es -> slashes (join (js "/") es) = (length es - 1)%nat.
Proof.
  induction 1 as [|e es He Hes IH]; [done |].
  destruct es as [|e' es].
  - cbn [join length]. by rewrite slashes_free.
  - change (join (js "/") (e :: e' :: es))
      with (e ++ [SLASH] ++ join (js "/") (e' :: es)).
    rewrite !slashes_app, IH, slashes_free by done.
    change (slashes [SLASH]) with 1%nat. cbn [length]. lia.
Qed.

Lemma Forall_join {P : N -> Prop} sep (es : list jsstring) :
  Forall P sep -> Forall (Forall P) es -> Forall P (join sep es).
Proof.
  intros Hsep. induction 1 as [|e es He Hes IH]; [done |].
  destruct es as [|e' es]; [done |].
  change (join sep (e :: e' :: es)) with (e ++ sep ++ join sep (e' :: es)).
  by repeat (apply Forall_app; split).
Qed.

Lemma map_result_length {A B} (f : A -> result B) l ys :
  map_result f l = Ok ys -> length ys = length l.
Proof.
  revert ys. induction l as [|x l IH]; intros ys; cbn [map_result].
  { by intros [= <-]. }
  destruct (f x) as [y|]; [| done]. cbn.
  destruct (map_result f l) as [ys'|]; [| done]. cbn.
  intros [= <-]. cbn [length]. f_equal. by apply IH.
Qed.

Lemma buildPointer_tokens (t : list jsstring) :
  Forall (fun s => well_formed s = true) t -> t ≠ [] ->
  exists es,
    buildPointer (map KStr t) = Ok ([SLASH] ++ join (js "/") es) ∧
    Forall slash_free es ∧ length es = length t ∧
    Forall (Forall (fun u => unescaped u = true ∨ escape_unit u)) es ∧
    map_result (fun i => decodeURIComponent
                           (replace_pair TILDE 48 (js "~")
                              (replace_pair TILDE 49 (js "/") i))) es = Ok t.
Proof.
  intros Ht Hne.
  destruct (tokens_roundtrip _ Ht) as (es & Hes & Hfree & Hlen & Hd).
  destruct (tokens_units _ Ht) as (es' & Hes' & Hu).
  assert (es' = es) as -> by congruence.
  exists es. split; [| done].
  unfold buildPointer. rewrite length_map.
  destruct t; [done |]. cbn [length Nat.eqb]. by rewrite Hes.
Qed.

Lemma pointer_units_join (es : list jsstring) :
  Forall (Forall (fun u => unescaped u = true ∨ escape_unit u)) es ->
  Forall pointer_unit ([SLASH] ++ join (js "/") es).
Proof.
  intros Hu. apply Forall_app. split; [repeat constructor |].
  apply Forall_join; [repeat constructor |].
  eapply Forall_impl; [exact Hu |]. intros e He.
  eapply Forall_impl; [exact He |]. intros u Hu'. by right.
Qed.

Lemma pointer_units_no_hash p : Forall pointer_unit p -> HASH ∉ p.
Proof.
  intros Hp Hin. rewrite Forall_forall in Hp.
  by apply (pointer_unit_not_hash HASH (Hp _ Hin)).
Qed.

(** X10: A pointer built from well-formed tokens is made of slashes, unescaped
    units and escape sequences only (no [#], no space, no unit above 127),
    and it has exactly one slash for each token. *)
Theorem buildPointer_units (t : list jsstring) :
  Forall (fun s => well_formed s = true) t ->
  exists p, buildPointer (map KStr t) = Ok p ∧
            Forall pointer_unit p ∧ (HASH ∉ p) ∧ slashes p = length t.
Proof.
  intros Ht. destruct t as [|s t].
  { exists []. split; [done | split; [done | split; [apply not_elem_of_nil | done]]]. }
  destruct (buildPointer_tokens _ Ht) as (es & Hp & Hfree & Hlen & Hu & _); [done |].
  eexists. split; [exact Hp |].
  pose proof (pointer_units_join _ Hu) as Hunits.
  split; [done | split; [by apply pointer_units_no_hash |]].
  rewrite slashes_app, slashes_join, Hlen by done. cbn. lia.
Qed.

(** X11: [parsePointer] returns one token for each slash of the pointer, empty
    tokens included: the text before the first slash is not a token. *)
Theorem parsePointer_token_count (p : jsstring) (ts : list jsstring) :
  parsePointer p = Ok ts -> length ts = slashes p.
Proof.
  unfold parsePointer. destruct (map_result _ _) as [ys|] eqn:E; [| done].
  intros [= <-]. apply map_result_length in E.
  rewrite length_skipn, E, split_length. lia.
Qed.

Lemma buildPointer_wf_witness_tokens :
  Forall (fun s => well_formed s = true) [js "paths"; js "/pets"; js "a b"].
Proof. repeat constructor. Qed.

Section PointerReferences.
Variable URL_href : jsstring -> result jsstring.

(** X12: A reference built by [buildRef] from a file name without [#] and
    well-formed tokens is taken apart again by [parseRef] and
    [parsePointer]: the pointer of the parsed reference is the pointer that
    was built, and it decodes to the tokens. The one token sequence left out
    is the single empty token, whose pointer is the lone slash that
    [parseRef] reads as no pointer. *)
Theorem buildRef_parseRef_tokens (t : list jsstring) (file : jsstring)
    (basePath : option jsstring) :
  Forall (fun s => well_formed s = true) t -> t ≠ [] -> t ≠ [[]] -> HASH ∉ file ->
  exists p,
    buildPointer (map KStr t) = Ok p ∧
    buildRef (map KStr t) (Some file) = Ok (file ++ js "#" ++ p) ∧
    forall r, parseRef URL_href (file ++ js "#" ++ p) basePath = Ok r ->
      pointer r = p ∧ parsePointer (pointer r) = Ok t.
Proof.
  intros Ht Hne Hne1 Hfile.
  destruct (buildPointer_tokens _ Ht Hne) as (es & Hp & Hfree & Hlen & Hu & Hd).
  exists ([SLASH] ++ join (js "/") es). split; [done |]. split.
  { unfold buildRef. rewrite length_map. destruct t; [done |].
    cbn [length Nat.eqb]. rewrite Hp. done. }
  assert (join (js "/") es ≠ []) as Hjoin.
  { destruct es as [|e [|e' es]]; [by destruct t | |].
    - cbn [join]. intros ->. cbn in Hd. destruct t as [|? [|]]; try done.
      injection Hd as <-. done.
    - change (join (js "/") (e :: e' :: es))
        with (e ++ [SLASH] ++ join (js "/") (e' :: es)).
      by destruct e. }
  pose proof (pointer_units_no_hash _ (pointer_units_join _ Hu)) as Hhash.
  destruct (pointer_roundtrip _ Ht) as (p' & Hp' & Hparse).
  assert (p' = [SLASH] ++ join (js "/") es) as -> by congruence.
  intros r. unfold parseRef.
  change (js "#" ++ ?x) with (HASH :: x).
  rewrite ref_parts_one_hash by done.
  destruct (if validURL file then _ else _) as [fp|]; [| done].
  intros [= <-]. cbn [pointer].
  rewrite bool_decide_eq_false_2; [done |].
  intros [= H]. done.
Qed.
End PointerReferences.

Lemma buildRef_parseRef_tokens_witness :
  Forall (fun s => well_formed s = true) [js "paths"; js "/pets"; js "a b"] ∧
  (HASH ∉ js "api.yaml") ∧
  exists p,
    buildPointer (map KStr [js "paths"; js "/pets"; js "a b"]) = Ok p ∧
    buildRef (map KStr [js "paths"; js "/pets"; js "a b"]) (Some (js "api.yaml"))
    = Ok (js "api.yaml" ++ js "#" ++ p) ∧
    forall r, parseRef (fun _ => Throw TypeError) (js "api.yaml" ++ js "#" ++ p) None
              = Ok r ->
      pointer r = p ∧ parsePointer (pointer r) = Ok [js "paths"; js "/pets"; js "a b"].
Proof.
  assert (HASH ∉ js "api.yaml") as H by (by apply not_elem_of_forallb).
  split; [exact buildPointer_wf_witness_tokens |]. split; [exact H |].
  apply (buildRef_parseRef_tokens (fun _ => Throw TypeError) _ _ None
           buildPointer_wf_witness_tokens); [done | done | exact H].
Defined.

Lemma buildPointer_units_witness :
  Forall (fun s => well_formed s = true) [js "paths"; js "/pets"; js "a b"] ∧
  exists p, buildPointer (map KStr [js "paths"; js "/pets"; js "a b"]) = Ok p ∧
            Forall pointer_unit p ∧ (HASH ∉ p) ∧ slashes p = 3%nat.
Proof.
  split; [exact buildPointer_wf_witness_tokens |].
  exact (buildPointer_units _ buildPointer_wf_witness_tokens).
Defined.

Lemma parsePointer_token_count_witness :
  parsePointer (js "x/a//b") = Ok [js "a"; []; js "b"] ∧
  length [js "a"; []; js "b"] = slashes (js "x/a//b").
Proof.
  assert (parsePointer (js "x/a//b") = Ok [js "a"; []; js "b"]) as H by reflexivity.
  exact (conj H (parsePointer_token_count _ _ H)).
Defined.









(** ** [validURL] *)

Lemma nullable_matches r : nullable r = true -> matches r [].
Proof.
  induction r as [| |p|r1 IH1 r2 IH2|r1 IH1 r2 IH2|r IH]; cbn [nullable]; try done.
  - intros _. constructor.
  - intros [H1 H2]%andb_prop. apply (matches_seq _ _ [] []); auto.
  - intros [H|H]%orb_prop; [apply matches_alt_l | apply matches_alt_r]; auto.
  - intros _. constructor.
Qed.

Lemma deriv_matches c r : forall s, matches (deriv c r) s -> matches r (c :: s).
Proof.
  induction r as [| |p|r1 IH1 r2 IH2|r1 IH1 r2 IH2|r IH]; intros s; cbn [deriv].
  - inversion 1.
  - inversion 1.
  - destruct (p c) eqn:E; inversion 1; subst. by constructor.
  - destruct (nullable r1) eqn:E.
    + inversion 1 as [| | | ? ? ? Hl | ? ? ? Hr | |]; subst.
      * inversion Hl as [| | ? ? s1 s2 H1 H2 | | | |]; subst.
        apply (matches_seq _ _ (c :: s1) s2); auto.
      * apply (matches_seq _ _ [] (c :: s)); [by apply nullable_matches | auto].
    + inversion 1 as [| | ? ? s1 s2 H1 H2 | | | |]; subst.
      apply (matches_seq _ _ (c :: s1) s2); auto.
  - inversion 1; subst; [apply matches_alt_l | apply matches_alt_r]; auto.
  - inversion 1 as [| | ? ? s1 s2 H1 H2 | | | |]; subst.
    apply (matches_star_app _ (c :: s1) s2); auto.
Qed.

Lemma regex_test_matches s : forall r, regex_test r s = true -> matches r s.
Proof.
  unfold regex_test. induction s as [|c s IH]; intros r; cbn [fold_left].
  - apply nullable_matches.
  - intros H. by apply deriv_matches, IH.
Qed.

Lemma matches_within Q r s : classes_within Q r -> matches r s -> Forall Q s.
Proof.
  intros Hr Hm. induction Hm; cbn [classes_within] in Hr; try done.
  - repeat constructor. by apply Hr.
  - apply Forall_app. split; [apply IHHm1 | apply IHHm2]; tauto.
  - apply IHHm; tauto.
  - apply IHHm; tauto.
  - apply Forall_app. split; [apply IHHm1 | apply IHHm2]; tauto.
Qed.

Lemma matches_Seq_inv r1 r2 s :
  matches (Seq r1 r2) s -> exists s1 s2, s = s1 ++ s2 ∧ matches r1 s1 ∧ matches r2 s2.
Proof. inversion 1; subst. by eexists _, _. Qed.

Lemma matches_Chr_inv p s : matches (Chr p) s -> exists c, s = [c] ∧ p c = true.
Proof. inversion 1; subst. by eexists. Qed.

Lemma matches_Alt_inv r1 r2 s : matches (Alt r1 r2) s -> matches r1 s ∨ matches r2 s.
Proof. inversion 1; subst; auto. Qed.

Lemma matches_Eps_inv s : matches Eps s -> s = [].
Proof. by inversion 1. Qed.

Lemma matches_Lit l s : matches (Lit l) s -> s = l.
Proof.
  revert s. induction l as [|c l IH]; intros s; cbn [Lit].
  - apply matches_Eps_inv.
  - intros (s1 & s2 & -> & (x & -> & Hx)%matches_Chr_inv & H2%IH)%matches_Seq_inv.
    subst. cbn [app]. f_equal. symmetry. by apply N.eqb_eq.
Qed.

Lemma matches_LitI l s : matches (LitI l) s -> map lower s = map lower l.
Proof.
  revert s. induction l as [|c l IH]; intros s; cbn [LitI].
  - by intros ->%matches_Eps_inv.
  - intros (s1 & s2 & -> & (x & -> & Hx)%matches_Chr_inv & H2%IH)%matches_Seq_inv.
    cbn [app map]. f_equal; [| done].
    unfold lower, in_range in Hx |- *.
    destruct (N.eqb_spec x c) as [E|E]; [by rewrite E |].
    repeat case_match; lia.
Qed.

Lemma printable_forallb (l : jsstring) :
  forallb (fun c => (33 <=? c) && (c <? 127))%N l = true ->
  Forall (fun c => (33 <= c < 127)%N) l.
Proof.
  induction l as [|c l IH]; cbn [forallb]; [done |].
  intros [Hc Hl]%andb_prop. constructor; [lia | by apply IH].
Qed.

Lemma Lit_within (Q : N -> Prop) l : Forall Q l -> classes_within Q (Lit l).
Proof.
  induction 1 as [|c l Hc _ IH]; [done |]. cbn [Lit classes_within].
  split; [| done]. by intros x ->%N.eqb_eq.
Qed.

Lemma LitI_within l :
  Forall (fun c => (65 <= c < 91)%N ∨ (97 <= c < 123)%N) l ->
  classes_within (fun c => (33 <= c < 127)%N) (LitI l).
Proof.
  induction 1 as [|c l Hc _ IH]; [done |]. cbn [LitI classes_within].
  split; [| done]. intros x. unfold in_range. lia.
Qed.

Lemma letters_forallb (l : jsstring) :
  forallb letter l = true -> Forall (fun c => (65 <= c < 91)%N ∨ (97 <= c < 123)%N) l.
Proof.
  induction l as [|c l IH]; cbn [forallb]; [done |].
  intros [Hc Hl]%andb_prop. constructor; [| by apply IH].
  unfold letter, in_range in Hc. lia.
Qed.

Lemma validURL_classes :
  classes_within (fun c => (33 <= c < 127)%N) validURL_pattern.
Proof.
  unfold validURL_pattern, Opt, Plus. cbn [classes_within].
  repeat match goal with |- _ ∧ _ => split end; try exact I;
    try (by apply Lit_within, printable_forallb);
    try (by apply LitI_within, letters_forallb);
    intros c; unfold letter, digit, one_of, in_range;
    change (js "-%_.~+") with [45; 37; 95; 46; 126; 43]%N;
    change (js ";&%_.~+=-") with [59; 38; 37; 95; 46; 126; 43; 61; 45]%N;
    change (js "-_") with [45; 95]%N;
    cbn [existsb]; intros H; lia.
Qed.

(** X14: A string that [validURL] accepts starts with [http://] or [https://],
    in any mix of cases, and is made of printable ASCII units only: no
    space, no control unit, no unit above 126. A file path is never taken
    for a URL. *)
Theorem validURL_scheme (str : jsstring) :
  validURL str = true ->
  (exists scheme rest,
     str = scheme ++ js "://" ++ rest ∧
     (map lower scheme = js "http" ∨ map lower scheme = js "https")) ∧
  Forall (fun c => (33 <= c < 127)%N) str.
Proof.
  intros Hm%regex_test_matches. split; [| by eapply matches_within, Hm; apply validURL_classes].
  unfold validURL_pattern in Hm.
  apply matches_Seq_inv in Hm as (s1 & rest & -> & Hproto & _).
  apply matches_Seq_inv in Hproto as (h & s2 & -> & Hh%matches_LitI & H2).
  apply matches_Seq_inv in H2 as (o & sep & -> & Ho & ->%matches_Lit).
  exists (h ++ o), rest. split; [by rewrite <- !app_assoc |].
  rewrite map_app, Hh.
  apply matches_Alt_inv in Ho as [->%matches_Eps_inv|Hs%matches_LitI]; [by left |].
  right. by rewrite Hs.
Qed.

Lemma validURL_scheme_witness :
  validURL (js "HTTPS://Example.com/a.yaml") = true ∧
  Forall (fun c => (33 <= c < 127)%N) (js "HTTPS://Example.com/a.yaml").
Proof.
  assert (validURL (js "HTTPS://Example.com/a.yaml") = true) as H by reflexivity.
  exact (conj H (proj2 (validURL_scheme _ H))).
Defined.

Lemma lower_letter_not_slash (l s : jsstring) :
  Forall (fun c => (97 <= c < 123)%N) l -> map lower s = l -> SLASH ∉ s.
Proof.
  intros Hl <-. induction s as [|c s IH]; [apply not_elem_of_nil |].
  cbn [map] in Hl. apply Forall_cons in Hl as [Hc Hs].
  apply not_elem_of_cons. split; [| by apply IH].
  intros <-. change (lower SLASH) with 47%N in Hc. lia.
Qed.

Lemma lowercase_forallb (l : jsstring) :
  forallb (in_range 97 122) l = true -> Forall (fun c => (97 <= c < 123)%N) l.
Proof.
  induction l as [|c l IH]; cbn [forallb]; [done |].
  intros [Hc Hl]%andb_prop. constructor; [| by apply IH].
  unfold in_range in Hc. lia.
Qed.

Lemma validURL_split (str : jsstring) :
  validURL str = true ->
  exists s0 rest, s0 ≠ [] ∧ split SLASH str = s0 :: [] :: split SLASH rest.
Proof.
  intros Hm%regex_test_matches. unfold validURL_pattern in Hm.
  apply matches_Seq_inv in Hm as (s1 & rest & -> & Hproto & _).
  apply matches_Seq_inv in Hproto as (h & s2 & -> & Hh%matches_LitI & H2).
  apply matches_Seq_inv in H2 as (o & sep & -> & Ho & ->%matches_Lit).
  assert (SLASH ∉ h) as Hfh.
  { eapply lower_letter_not_slash; [| exact Hh]. by apply lowercase_forallb. }
  assert (SLASH ∉ o) as Hfo.
  { apply matches_Alt_inv in Ho as [->%matches_Eps_inv|Hs%matches_LitI];
      [apply not_elem_of_nil |].
    eapply lower_letter_not_slash; [| exact Hs]. by apply lowercase_forallb. }
  exists (h ++ o ++ [58%N]), rest. split; [by destruct h |].
  change (js "://") with ([58%N] ++ SLASH :: [SLASH]).
  replace ((h ++ o ++ [58%N] ++ SLASH :: [SLASH]) ++ rest)
    with ((h ++ o ++ [58%N]) ++ SLASH :: SLASH :: rest)
    by (by rewrite <- !app_assoc).
  rewrite split_app_sep, split_cons_sep; [done |].
  rewrite !not_elem_of_app. repeat split; [done | done |].
  by apply not_elem_of_forallb.
Qed.

Lemma normalize_not_URL p q : normalize p = Ok q -> validURL q = false.
Proof.
  intros [[-> ->]|(Hp & acc & Hok & ->)]%normalize_ok_inv; [done |].
  generalize (code_is (charCodeAt p (str_length p - 1)) SLASH) as t.
  generalize dependent (code_is (charCodeAt p 0) SLASH). intros a Hok t.
  destruct acc as [|top rest]; [by destruct a, t |].
  pose proof (stack_ok_good _ _ Hok) as Hgood.
  destruct (validURL _) eqn:E; [| done]. exfalso.
  apply validURL_split in E as (s0 & tl & Hs0 & E).
  rewrite split_finish in E by done.
  apply Forall_rev in Hgood.
  pose proof (rev_nonempty (top :: rest) ltac:(done)) as Hne.
  destruct (rev (top :: rest)) as [|r0 R]; [done |].
  apply Forall_cons in Hgood as [_ HR].
  destruct a; [cbn [app] in E; congruence |].
  cbn [app] in E. injection E as _ E.
  destruct R as [|r1 R].
  - destruct t; [| done]. cbn [app] in E. injection E as E.
    by destruct (split_nonempty SLASH tl).
  - apply Forall_cons in HR as [[Hr1 _] _]. cbn [app] in E. congruence.
Qed.

(** X15: The result of [normalize] is never a string that [validURL] accepts:
    the two slashes after the scheme do not survive the normalisation. So
    [relativePath] never returns a URL, whatever the base path. *)
Theorem normalize_never_URL :
  (forall p q, normalize p = Ok q -> validURL q = false) ∧
  (forall path basePath q, relativePath path basePath = Ok q -> validURL q = false) ∧
  normalize (js "https://example.com/a.yaml") = Ok (js "https:/example.com/a.yaml").
Proof.
  split; [apply normalize_not_URL |]. split; [| reflexivity].
  intros path basePath q. unfold relativePath.
  repeat case_match; apply normalize_not_URL.
Qed.

Lemma normalize_fixed_point p q :
  normalize p = Ok q -> PERCENT ∉ q -> normalize q = Ok q.
Proof.
  unfold normalize at 1. destruct (str_length p =? 0).
  { intros [= <-] _. reflexivity. }
  destruct (decodeURIComponent p) as [d|]; [| done].
  intros [= <-]. apply normalize_finish_fixed.
Qed.

Lemma relativePath_normalized path basePath q :
  relativePath path basePath = Ok q -> exists x, normalize x = Ok q.
Proof. unfold relativePath. repeat case_match; by eexists. Qed.

Lemma normalize_nonempty p q : normalize p = Ok q -> q ≠ [].
Proof.
  intros [[-> ->]|(Hp & acc & Hok & ->)]%normalize_ok_inv; [done |].
  generalize (code_is (charCodeAt p (str_length p - 1)) SLASH) as t.
  generalize dependent (code_is (charCodeAt p 0) SLASH). intros a Hok t.
  destruct acc as [|top rest]; [by destruct a, t |].
  pose proof (stack_ok_good _ _ Hok) as Hgood.
  rewrite normalize_finish_nonempty by (by apply join_rev_nonempty).
  pose proof (join_rev_nonempty _ Hgood ltac:(done)) as Hne.
  destruct a; [done |]. cbn [app]. by destruct (join _ _).
Qed.

Lemma ref_parts_fragment_free ref base f :
  (ref_parts ref base).2 = Some f -> HASH ∉ f.
Proof.
  unfold ref_parts. cbn [snd]. intros Hf%nth_error_In.
  pose proof (split_slash_free HASH ref) as Hall. rewrite Forall_forall in Hall.
  by apply Hall, list_elem_of_In.
Qed.

Lemma createRef_file fp ptr :
  fp ≠ [] ->
  createRef (Some fp) (Some ptr) = fp ++ (if falsy (Some ptr) then [] else HASH :: ptr).
Proof. by destruct fp. Qed.

Lemma relativePath_no_base path : relativePath path (Some []) = normalize path.
Proof. done. Qed.

Section NormalizedReferences.
Variable URL_href : jsstring -> result jsstring.

(** X16: The [normalized] string of a parsed reference parses to the same
    record again, with no base path: [parseRef] is idempotent through
    [normalized]. This is for a reference whose source path is not a URL
    and whose file path holds neither [#] nor a percent sign. *)
Theorem parseRef_normalized_fixed (ref : jsstring) (basePath : option jsstring)
    (r : parsed_ref) :
  parseRef URL_href ref basePath = Ok r ->
  validURL (ref_parts ref (default [] basePath)).1 = false ->
  HASH ∉ filePath r -> PERCENT ∉ filePath r ->
  parseRef URL_href (normalized r) None = Ok r.
Proof.
  unfold parseRef at 1.
  pose proof (ref_parts_fragment_free ref (default [] basePath)) as Hfree.
  destruct (ref_parts ref (default [] basePath)) as [src frag]. cbn [fst snd] in *.
  intros Hr Hsrc. rewrite Hsrc in Hr.
  destruct (relativePath src _) as [fp|] eqn:Efp; [| done].
  apply relativePath_normalized in Efp as [x Hx].
  injection Hr as <-. cbn [filePath normalized pointer].
  intros Hhash Hpercent.
  pose proof (normalize_nonempty _ _ Hx) as Hne.
  pose proof (normalize_not_URL _ _ Hx) as Hurl.
  pose proof (normalize_fixed_point _ _ Hx Hpercent) as Hfix.
  set (ptr := if falsy frag || bool_decide (frag = Some (js "/"))
              then [] else default [] frag).
  assert (ptr = [] ∨ ptr ≠ [] ∧ ptr ≠ js "/" ∧ HASH ∉ ptr) as Hptr.
  { subst ptr. destruct frag as [[|c f]|]; cbn [falsy orb]; [by left | | by left].
    case_bool_decide as E; [by left | right]. cbn [default from_option id].
    repeat split; [done | congruence | by apply Hfree]. }
  rewrite createRef_file by done.
  destruct Hptr as [->|(Hp1 & Hp2 & Hp3)].
  - cbn [falsy]. rewrite app_nil_r. unfold parseRef.
    rewrite ref_parts_no_hash by done.
    rewrite Hurl. unfold relativePath. cbn [falsy default from_option id].
    rewrite Hfix. cbn [mbind result_bind bind falsy orb].
    by rewrite createRef_file, app_nil_r.
  - assert (falsy (Some ptr) = false) as Hf by (by destruct ptr). rewrite Hf.
    unfold parseRef. rewrite ref_parts_one_hash by done.
    rewrite Hurl. cbn [default from_option id].
    rewrite relativePath_no_base, Hfix. cbn [mbind result_bind bind].
    rewrite Hf. cbn [orb]. rewrite bool_decide_eq_false_2 by congruence.
    cbn [default from_option id]. by rewrite createRef_file, Hf.
Qed.
End NormalizedReferences.

Lemma parseRef_normalized_fixed_witness :
  parseRef (fun _ => Throw TypeError) (js "../x.yaml#/a/b") (Some (js "d/e/base.yaml"))
  = Ok {| filePath := js "d/x.yaml"; pointer := js "/a/b";
          normalized := js "d/x.yaml#/a/b" |} ∧
  parseRef (fun _ => Throw TypeError) (js "d/x.yaml#/a/b") None
  = Ok {| filePath := js "d/x.yaml"; pointer := js "/a/b";
          normalized := js "d/x.yaml#/a/b" |}.
Proof.
  assert (parseRef (fun _ => Throw TypeError) (js "../x.yaml#/a/b")
            (Some (js "d/e/base.yaml"))
          = Ok {| filePath := js "d/x.yaml"; pointer := js "/a/b";
                  normalized := js "d/x.yaml#/a/b" |}) as H by reflexivity.
  split; [exact H |].
  apply (parseRef_normalized_fixed _ _ _ _ H); [reflexivity | |];
    by apply not_elem_of_forallb.
Defined.

(** ** The accessors: further properties *)



Section AccessorProperties.
Variable numeric_key : jsstring -> jsstring.
Variable array_length_of : heap -> val -> result N.

(** X17: Reading along a path in two steps gives what reading along the whole
    path gives: the value at [p1 ++ p2] is the value at [p2] of the value
    at [p1], and it is undefined as soon as the value at [p1] is. *)
Theorem getValueByPath_app h (v : val) (p1 p2 : list key) :
  is_undefined v = false ->
  getValueByPath numeric_key h v (p1 ++ p2) =
  x ← getValueByPath numeric_key h v p1;
  if is_undefined x then Ok x else getValueByPath numeric_key h x p2.
Proof.
  revert v. induction p1 as [|k p1 IH]; intros v Hv.
  - cbn [app getValueByPath mbind result_bind bind]. by rewrite Hv.
  - cbn [app getValueByPath].
    destruct (get_prop h v _) as [value'|]; [| done].
    cbn [mbind result_bind bind].
    destruct (is_undefined value') eqn:E; [cbn; by rewrite E | by apply IH].
Qed.





End AccessorProperties.

Lemma getValueByPath_app_witness :
  let h : heap := <[1%positive := new_object [(js "a", VNum 7)]]> ∅ in
  is_undefined (VRef 1%positive) = false ∧
  getValueByPath (fun s => s) h (VRef 1%positive) ([KStr (js "a")] ++ [KStr (js "b")])
  = (x ← getValueByPath (fun s => s) h (VRef 1%positive) [KStr (js "a")];
     if is_undefined x then Ok x else getValueByPath (fun s => s) h x [KStr (js "b")]).
Proof.
  intros h. split; [reflexivity |].
  exact (getValueByPath_app (fun s => s) h (VRef 1%positive) _ _ eq_refl).
Defined.



(** ** The merge: further properties *)





(** The value of a string of decimal digits. *)
Lemma digits_of_value fuel : forall n acc,
  (n < 10 ^ N.of_nat fuel)%N ->
  exists d, digits_of fuel n acc = d ++ acc ∧
            fold_left (fun a c => (10 * a + (c - 48))%N) d 0%N = n.
Proof.
  induction fuel as [|fuel IH]; intros n acc Hn.
  - exists []. split; [done |]. change (10 ^ N.of_nat 0)%N with 1%N in Hn.
    cbn [fold_left]. lia.
  - cbn [digits_of]. destruct (N.ltb_spec n 10) as [Hlt|Hge].
    + exists [(48 + n mod 10)%N]. split; [done |]. cbn [fold_left].
      rewrite N.mod_small by done. lia.
    + destruct (IH (n / 10)%N ((48 + n mod 10)%N :: acc)) as (d & -> & Hd).
      { apply N.Div0.div_lt_upper_bound.
        rewrite Nat2N.inj_succ, N.pow_succ_r' in Hn. lia. }
      exists (d ++ [(48 + n mod 10)%N]). split; [by rewrite <- app_assoc |].
      rewrite fold_left_app, Hd. cbn [fold_left].
      replace (48 + n mod 10 - 48)%N with (n mod 10)%N
        by (generalize (n mod 10)%N; intros; lia).
      symmetry. by apply N.div_mod.
Qed.

Lemma decimal_value (i : nat) :
  fold_left (fun a c => (10 * a + (c - 48))%N) (decimal (Z.of_nat i)) 0%N = N.of_nat i.
Proof.
  unfold decimal. assert ((Z.of_nat i <? 0) = false) as -> by lia.
  assert (Z.to_N (Z.abs (Z.of_nat i)) = N.of_nat i) as -> by lia.
  destruct (digits_of_value (S (N.to_nat (N.log2 (N.of_nat i)))) (N.of_nat i) [])
    as (d & -> & Hd); [| by rewrite app_nil_r].
  rewrite Nat2N.inj_succ, N2Nat.id.
  destruct (N.eq_dec (N.of_nat i) 0%N) as [->|Hpos]; [done |].
  pose proof (N.log2_spec (N.of_nat i) ltac:(lia)) as [_ Hlog].
  eapply N.lt_le_trans; [exact Hlog |].
  apply N.pow_le_mono_l. lia.
Qed.

Lemma decimal_inj (i j : nat) :
  decimal (Z.of_nat i) = decimal (Z.of_nat j) -> i = j.
Proof.
  intros H. apply Nat2N.inj. by rewrite <- !decimal_value, H.
Qed.

Lemma assoc_get_indexed (vs : list val) : forall (g : nat -> nat) i,
  (forall a b, g a = g b -> a = b) ->
  assoc_get (decimal (Z.of_nat (g i)))
    (imap (fun j v => (decimal (Z.of_nat (g j)), v)) vs) = vs !! i.
Proof.
  induction vs as [|v vs IH]; intros g i Hg; [done |].
  cbn [imap assoc_get]. destruct i as [|i].
  - by rewrite bool_decide_eq_true_2.
  - rewrite bool_decide_eq_false_2.
    + apply (IH (g ∘ S) i). intros a b H. apply Hg in H. lia.
    + intros H%decimal_inj%Hg. done.
Qed.

Lemma elements_new_array (vs : list val) : elements (new_array vs) = vs.
Proof.
  unfold elements, new_array. cbn [arr_length props]. rewrite Nat2N.id.
  apply list_eq. intros i. rewrite list_lookup_fmap.
  destruct (decide (i < length vs)%nat) as [Hi|Hi].
  - rewrite lookup_seq_lt by done. cbn [fmap option_fmap option_map].
    rewrite (assoc_get_indexed vs (fun j => j)) by auto.
    destruct (lookup_lt_is_Some_2 vs i Hi) as [x Hx]. cbn [Nat.add]. by rewrite Hx.
  - rewrite lookup_seq_ge, lookup_ge_None_2 by lia. done.
Qed.

(** X21: Merging two arrays allocates a new array whose elements are those of
    [value] followed by those of [patch], in order; the two arrays
    themselves stay in the store as they are. *)
Theorem mergeValues_arrays fuel h (value patch : val) :
  isArray h value = true -> isArray h patch = true ->
  exists l,
    h !! l = None ∧
    mergeValues (S fuel) h value patch
    = Some (Ok (<[l := new_array (spread h value ++ spread h patch)]> h, VRef l)) ∧
    spread (<[l := new_array (spread h value ++ spread h patch)]> h) (VRef l)
    = spread h value ++ spread h patch.
Proof.
  intros Hv Hp. rewrite mergeValues_unfold, Hv, Hp. cbn [andb].
  destruct (alloc h _) as [h0 l] eqn:Ea. apply alloc_fresh in Ea as [Hl ->].
  exists l. split; [done |]. split; [done |].
  unfold spread at 1. rewrite lookup_insert_eq. apply elements_new_array.
Qed.



Lemma mergeValues_arrays_witness :
  let h : heap := <[2%positive := new_array [VNum 3]]>
                    (<[1%positive := new_array [VNum 1; VNum 2]]> ∅) in
  isArray h (VRef 1%positive) = true ∧ isArray h (VRef 2%positive) = true ∧
  exists l,
    h !! l = None ∧
    mergeValues 1 h (VRef 1%positive) (VRef 2%positive)
    = Some (Ok (<[l := new_array (spread h (VRef 1%positive) ++ spread h (VRef 2%positive))]> h,
                VRef l)) ∧
    spread (<[l := new_array (spread h (VRef 1%positive) ++ spread h (VRef 2%positive))]> h)
      (VRef l)
    = spread h (VRef 1%positive) ++ spread h (VRef 2%positive).
Proof.
  intros h.
  assert (isArray h (VRef 1%positive) = true) as H1 by reflexivity.
  assert (isArray h (VRef 2%positive) = true) as H2 by reflexivity.
  exact (conj H1 (conj H2 (mergeValues_arrays 0 h _ _ H1 H2))).
Defined.


(** ** [filename] *)

Lemma matches_nil r s : matches r s -> s = [] -> nullable r = true.
Proof.
  induction 1 as [|p c Hc|r1 r2 s1 s2 _ IH1 _ IH2|r1 r2 s _ IH|r1 r2 s _ IH|r
                  |r s1 s2 _ _ _ _]; intros Hs; cbn [nullable]; try done.
  - apply app_eq_nil in Hs as [-> ->]. by rewrite IH1, IH2.
  - by rewrite IH.
  - rewrite IH by done. apply orb_true_r.
Qed.

Lemma matches_deriv r s0 :
  matches r s0 -> forall c s, s0 = c :: s -> matches (deriv c r) s.
Proof.
  induction 1 as [|p x Hx|r1 r2 s1 s2 H1 IH1 H2 IH2|r1 r2 s0 _ IH|r1 r2 s0 _ IH|r
                  |r s1 s2 H1 IH1 H2 IH2]; intros c s Hs; cbn [deriv]; try done.
  - injection Hs as -> <-. rewrite Hx. constructor.
  - destruct s1 as [|c1 s1].
    + cbn [app] in Hs. rewrite (matches_nil _ _ H1 eq_refl).
      apply matches_alt_r. by apply IH2.
    + cbn [app] in Hs. injection Hs as -> <-.
      pose proof (matches_seq _ _ _ _ (IH1 _ _ eq_refl) H2) as Hseq.
      destruct (nullable r1); [by apply matches_alt_l | done].
  - apply matches_alt_l. by apply IH.
  - apply matches_alt_r. by apply IH.
  - destruct s1 as [|c1 s1]; [by apply IH2 |].
    cbn [app] in Hs. injection Hs as -> <-.
    apply matches_seq; [by apply IH1 | done].
Qed.

Lemma matches_regex_test s : forall r, matches r s -> regex_test r s = true.
Proof.
  unfold regex_test. induction s as [|c s IH]; intros r Hm; cbn [fold_left].
  - by eapply matches_nil.
  - eapply IH, matches_deriv; [exact Hm | done].
Qed.

Lemma LitI_matches l s : map lower s = map lower l -> matches (LitI l) s.
Proof.
  revert s. induction l as [|c l IH]; intros [|x s]; try done; cbn [map LitI].
  { intros _. constructor. }
  intros [= Hx Hs]. apply (matches_seq _ _ [x] s); [| by apply IH].
  constructor. unfold lower, in_range in *.
  destruct (N.eqb_spec x c) as [|Hne]; [done |].
  repeat case_match; lia.
Qed.

Lemma matches_LitI_length l s : matches (LitI l) s -> length s = length l.
Proof. intros H%matches_LitI. by rewrite <- (length_map lower s), H, length_map. Qed.

(** The three extensions, in any mix of cases. *)
Lemma extension_inv s :
  matches extension_pattern s ->
  exists c e, s = c :: e ∧ line_terminator c = false ∧
    (map lower e = js "json" ∨ map lower e = js "yaml" ∨ map lower e = js "yml").
Proof.
  unfold extension_pattern.
  intros (s1 & e & -> & (c & -> & Hc)%matches_Chr_inv & He)%matches_Seq_inv.
  exists c, e. split; [done |]. split; [by destruct (line_terminator c) |].
  apply matches_Alt_inv in He as [H|He]; [left; by apply matches_LitI in H |].
  apply matches_Alt_inv in He as [H|H]; [right; left | right; right];
    by apply matches_LitI in H.
Qed.

Lemma extension_matches c e :
  line_terminator c = false ->
  map lower e = js "json" ∨ map lower e = js "yaml" ∨ map lower e = js "yml" ->
  matches extension_pattern (c :: e).
Proof.
  intros Hc He. apply (matches_seq _ _ [c] e); [constructor; by rewrite Hc |].
  destruct He as [H|[H|H]].
  - apply matches_alt_l. by apply LitI_matches.
  - apply matches_alt_r, matches_alt_l. by apply LitI_matches.
  - apply matches_alt_r, matches_alt_r. by apply LitI_matches.
Qed.

Lemma remove_at_end_prefix r s : exists suf, s = remove_at_end r s ++ suf.
Proof.
  induction s as [|c s [suf IH]]; [by exists [] |]. cbn [remove_at_end].
  destruct (regex_test r (c :: s)); [by eexists |].
  exists suf. cbn [app]. by f_equal.
Qed.

Lemma pop_split_app dir name :
  SLASH ∉ name -> pop (split SLASH (dir ++ SLASH :: name)) = Some name.
Proof.
  intros Hn. rewrite split_app, (split_free _ name) by done.
  unfold pop. rewrite map_app. cbn [map]. by rewrite last_last.
Qed.

Lemma pop_split_free name : SLASH ∉ name -> pop (split SLASH name) = Some name.
Proof. intros Hn. by rewrite split_free. Qed.

Lemma pop_split_slash_free str :
  exists name, pop (split SLASH str) = Some name ∧ SLASH ∉ name.
Proof.
  pose proof (split_slash_free SLASH str) as Hall.
  pose proof (split_nonempty SLASH str) as Hne.
  unfold pop. induction (split SLASH str) as [|seg segs IH]; [done |].
  apply Forall_cons in Hall as [Hseg Hsegs].
  destruct segs as [|seg' segs]; [by exists seg |].
  by apply IH.
Qed.

Lemma extension_length e :
  map lower e = js "json" ∨ map lower e = js "yaml" ∨ map lower e = js "yml" ->
  (3 <= length e <= 4)%nat.
Proof.
  intros [H|[H|H]]; apply (f_equal length) in H; rewrite length_map in H;
    [change (length (js "json")) with 4%nat in H
    |change (length (js "yaml")) with 4%nat in H
    |change (length (js "yml")) with 3%nat in H]; lia.
Qed.

Lemma remove_extension stem c e :
  line_terminator c = false ->
  map lower e = js "json" ∨ map lower e = js "yaml" ∨ map lower e = js "yml" ->
  remove_at_end extension_pattern (stem ++ c :: e) = stem.
Proof.
  intros Hc He. induction stem as [|x stem IH].
  - cbn [app remove_at_end].
    by rewrite (matches_regex_test _ _ (extension_matches c e Hc He)).
  - cbn [app remove_at_end].
    destruct (regex_test extension_pattern (x :: stem ++ c :: e)) eqn:E;
      [exfalso | by rewrite IH].
    apply regex_test_matches, extension_inv in E as (c0 & e0 & [= <- <-] & _ & He0).
    pose proof (extension_length _ He) as Hl.
    pose proof (extension_length _ He0) as Hl0.
    rewrite length_app in Hl0. cbn [length] in Hl0.
    destruct stem as [|? ?]; [| cbn [length] in Hl0; lia].
    cbn [app map] in He0.
    destruct He as [He|[He|He]].
    + apply (f_equal length) in He. rewrite length_map in He.
      change (length (js "json")) with 4%nat in He. cbn [length] in Hl0. lia.
    + apply (f_equal length) in He. rewrite length_map in He.
      change (length (js "yaml")) with 4%nat in He. cbn [length] in Hl0. lia.
    + rewrite He in He0. by destruct He0 as [?|[?|?]].
Qed.

(** X23: [filename] drops an extension together with the unit before it,
    whatever that unit is: the dot of the pattern is not escaped, so a last
    segment [stem ++ c :: e], where [e] is [json], [yaml] or [yml] in any
    mix of cases and [c] is any unit but a slash or a line terminator, gives
    [stem]. The directory part is ignored. *)
Theorem filename_strips_extension (dir stem e : jsstring) (c : N) :
  SLASH ∉ stem -> c ≠ SLASH -> line_terminator c = false ->
  map lower e = js "json" ∨ map lower e = js "yaml" ∨ map lower e = js "yml" ->
  filename (stem ++ c :: e) = stem ∧
  filename (dir ++ SLASH :: stem ++ c :: e) = stem.
Proof.
  intros Hstem Hc Hlt He.
  assert (SLASH ∉ stem ++ c :: e) as Hname.
  { apply not_elem_of_app. split; [done |]. apply not_elem_of_cons. split; [done |].
    destruct He as [He|[He|He]];
      (eapply lower_letter_not_slash; [| exact He]); by apply lowercase_forallb. }
  unfold filename. rewrite pop_split_app, pop_split_free by done.
  cbn [default from_option id]. split; by apply remove_extension.
Qed.

(** X24: [filename] looks at the text after the last slash only, what it returns
    is the beginning of that text, and it holds no slash. The first
    [filename] returns that text as it is. *)
Theorem filename_last_segment (dir name : jsstring) :
  SLASH ∉ name ->
  filename (dir ++ SLASH :: name) = filename name ∧
  FirstHalf.filename (dir ++ SLASH :: name) = Some name ∧
  (exists suffix, name = filename name ++ suffix) ∧
  SLASH ∉ filename name.
Proof.
  intros Hname. unfold filename, FirstHalf.filename.
  rewrite pop_split_app, pop_split_free by done. cbn [default from_option id].
  split; [done |]. split; [done |].
  destruct (remove_at_end_prefix extension_pattern name) as [suf Hsuf].
  split; [by exists suf |].
  rewrite Hsuf in Hname. by apply not_elem_of_app in Hname as [? _].
Qed.

Lemma filename_strips_extension_witness :
  filename (js "myjson") = js "m" ∧
  filename (js "specs/v1" ++ SLASH :: js "petstore.YAML") = js "petstore".
Proof.
  split.
  - apply (filename_strips_extension [] (js "m") (js "json") 121%N);
      [by apply not_elem_of_forallb | done | done | by left].
  - apply (filename_strips_extension (js "specs/v1") (js "petstore") (js "YAML") 46%N);
      [by apply not_elem_of_forallb | done | done | right; by left].
Defined.

Lemma filename_last_segment_witness :
  (SLASH ∉ js "a.txt") ∧
  filename (js "x/y" ++ SLASH :: js "a.txt") = filename (js "a.txt").
Proof.
  assert (SLASH ∉ js "a.txt") as H by (by apply not_elem_of_forallb).
  exact (conj H (proj1 (filename_last_segment (js "x/y") _ H))).
Defined.

(** ** [MapArray] *)

Section MapArrayProperties.
Context {K V : Type} `{EqDecision K}.
Implicit Types (m : @MapArray.t K V) (k : K) (v : V).

Lemma MapArray_get_set_eq m k arr : MapArray.get k (MapArray.set k arr m) = Some arr.
Proof.
  induction m as [|[k0 a0] m IH]; cbn [MapArray.set MapArray.get].
  - by rewrite decide_True.
  - destruct (decide (k0 = k)); cbn [MapArray.get].
    + by rewrite decide_True.
    + by rewrite decide_False.
Qed.

Lemma MapArray_get_set_ne m k k' arr :
  k ≠ k' -> MapArray.get k' (MapArray.set k arr m) = MapArray.get k' m.
Proof.
  intros Hk. induction m as [|[k0 a0] m IH]; cbn [MapArray.set MapArray.get].
  - by rewrite decide_False.
  - destruct (decide (k0 = k)) as [->|]; cbn [MapArray.get].
    + by rewrite !decide_False.
    + by rewrite IH.
Qed.


Lemma MapArray_get_add m k v :
  MapArray.get k (MapArray.add m k v) = Some (default [] (MapArray.get k m) ++ [v]).
Proof.
  unfold MapArray.add. destruct (MapArray.get k m); by rewrite MapArray_get_set_eq.
Qed.

Lemma MapArray_get_add_ne m k k' v :
  k ≠ k' -> MapArray.get k' (MapArray.add m k v) = MapArray.get k' m.
Proof.
  intros Hk. unfold MapArray.add.
  destruct (MapArray.get k m); by rewrite MapArray_get_set_ne.
Qed.


(** X26: Adding the pairs of a list one after the other to the empty map groups
    them by key: the array of a key holds the values that were added under
    it, in the order of the list, and a key that was never added has no
    array. *)
Theorem MapArray_add_groups (pairs : list (K * V)) k :
  MapArray.get k (fold_left (fun m p => MapArray.add m p.1 p.2) pairs [])
  = match List.filter (fun p => bool_decide (p.1 = k)) pairs with
    | [] => None
    | ps => Some (map snd ps)
    end.
Proof.
  assert (forall m,
    MapArray.get k (fold_left (fun m p => MapArray.add m p.1 p.2) pairs m)
    = match List.filter (fun p => bool_decide (p.1 = k)) pairs with
      | [] => MapArray.get k m
      | ps => Some (default [] (MapArray.get k m) ++ map snd ps)
      end) as H.
  { induction pairs as [|[k0 v0] pairs IH]; intros m; [done |].
    cbn [fold_left List.filter fst snd]. rewrite IH. case_bool_decide as E.
    - subst k0. rewrite MapArray_get_add. cbn [default from_option id map snd].
      destruct (List.filter _ pairs); [done |]. by rewrite <- app_assoc.
    - by rewrite MapArray_get_add_ne. }
  rewrite H. by destruct (List.filter _ pairs).
Qed.
End MapArrayProperties.

(** ** [isJsonSchema] and [calcJsonType] *)

Lemma isJsonSchema_object h l : exists b, isJsonSchema h (VRef l) = Ok b.
Proof.
  unfold isJsonSchema, isBasicJsonSchema, has_property, get_prop.
  cbn [typeof_object mbind result_bind bind].
  repeat (case_match; cbn [mbind result_bind bind]); by eexists.
Qed.

(** X27: What the two [isJsonSchema] do outside the objects: the second one
    throws a TypeError on null and on undefined and returns false on every
    other primitive; the first one throws on null only and returns false on
    undefined. Neither throws on an object. *)
Theorem isJsonSchema_errors h :
  isJsonSchema h VNull = Throw TypeError ∧
  isJsonSchema h VUndefined = Throw TypeError ∧
  FirstHalf.isJsonSchema h VNull = Throw TypeError ∧
  FirstHalf.isJsonSchema h VUndefined = Ok false ∧
  (forall v, isObject v = false -> v ≠ VNull -> v ≠ VUndefined ->
             isJsonSchema h v = Ok false ∧ FirstHalf.isJsonSchema h v = Ok false) ∧
  (forall l, (exists b, isJsonSchema h (VRef l) = Ok b) ∧
             (exists b, FirstHalf.isJsonSchema h (VRef l) = Ok b)).
Proof.
  repeat match goal with |- _ ∧ _ => split end; try reflexivity.
  - intros v Hv Hn Hu. by destruct v.
  - intros l. split; [apply isJsonSchema_object |].
    unfold FirstHalf.isJsonSchema. cbn [typeof_object get_prop mbind result_bind bind].
    by eexists.
Qed.

Section JsonTypeProperties.
Variable ToString_object : heap -> loc -> result jsstring.

Lemma version_test_primitive h l o k d :
  h !! l = Some o -> isObject (own_get o k) = false ->
  exists b, version_test ToString_object h (VRef l) k d = Ok b.
Proof.
  intros Hl Hk. unfold version_test, get_prop. rewrite Hl.
  cbn [mbind result_bind bind].
  destruct (own_get o k) as [| |[]|n|s|l']; try done;
    try (destruct (truthy _)); cbn [ToString mbind result_bind bind]; by eexists.
Qed.

(** X28: [calcJsonType] is total on the documents whose [openapi], [swagger]
    and [asyncapi] members are no objects: it never throws, since its first
    test keeps null and undefined away from [isJsonSchema]; and every value
    that is no object, null included, is of type [unknown]. A document
    whose [openapi] member is a string in which a 3 is followed by another
    unit is of type [OpenApi3] whatever its other members are. *)
Theorem calcJsonType_total h :
  (forall data, isObject data = false ->
     calcJsonType ToString_object h data = Ok unknown) ∧
  (forall l o, h !! l = Some o ->
     isObject (own_get o (js "openapi")) = false ->
     isObject (own_get o (js "swagger")) = false ->
     isObject (own_get o (js "asyncapi")) = false ->
     exists t, calcJsonType ToString_object h (VRef l) = Ok t) ∧
  (forall l o s, h !! l = Some o ->
     own_get o (js "openapi") = VStr s -> digit_then_more 51 s = true ->
     calcJsonType ToString_object h (VRef l) = Ok OpenApi3).
Proof.
  split; [| split].
  - intros data Hd. unfold calcJsonType. by destruct data as [| |[]|[]|[]|].
  - intros l o Hl H3 H2 Ha. unfold calcJsonType.
    cbn [typeof_object truthy negb orb].
    destruct (version_test_primitive h l o (js "openapi") 51 Hl H3) as [b3 ->].
    destruct (version_test_primitive h l o (js "swagger") 50 Hl H2) as [b2 ->].
    destruct (version_test_primitive h l o (js "asyncapi") 50 Hl Ha) as [ba ->].
    destruct (isJsonSchema_object h l) as [bs ->].
    cbn [mbind result_bind bind]. destruct b3, b2, ba; by eexists.
  - intros l o s Hl Hs Hd. unfold calcJsonType, version_test, get_prop.
    cbn [typeof_object truthy negb orb]. rewrite Hl, Hs.
    cbn [mbind result_bind bind].
    assert (truthy (VStr s) = true) as -> by (by destruct s).
    cbn [ToString mbind result_bind bind]. by rewrite Hd.
Qed.
End JsonTypeProperties.
